(** * Account generator backend: orchestration core

    A shallow embedding of the concurrency core of [local-server.js] and of
    the captcha queue of the React front end ([App.js]): the captcha turn
    queue, the browser context pool, the e-mail prefetch queue, the registry
    of pending captcha answers, the captcha solving loop of one task, the
    adaptive batch scheduler and the final acknowledgment of a task.

    JavaScript runs one callback at a time: every function below is the
    effect of one synchronous stretch of code (between two [await]s) on the
    global variables of the server, which are the fields of [server]. *)

From Stdlib Require Import ZArith String Ascii List Lia Bool Uint63 Floats.
From Stdlib Require Import DecimalString DecimalZ DecimalPos.
From stdpp Require Import base option list gmap.
Import ListNotations.

Local Open Scope nat_scope.

(** Thread identities are the attempt ordinals given out by the scheduler
    ([const threadId = totalAttempts], from 1). *)
Abbreviation threadId := nat (only parsing).

(** ** Global state of the server *)

(** What the console shows of the turn queue; the two entries are the
    [console.log] lines of [processCaptchaQueue] and [releaseCaptchaLock]. *)
Inductive console :=
| AcquiredLock (t : threadId) (waiting : nat)
| ReleasedLock (t : threadId).

#[global] Instance console_eq_dec : EqDecision console.
Proof. solve_decision. Defined.

(** The JSON object a client sends for a click, or [{skipped: true}]; a
    field that is absent is [None], and an absent [skipped] is [false]. *)
Record solution := Solution {
  sol_x : option Z;
  sol_y : option Z;
  sol_position : option Z;
  sol_skipped : bool
}.

#[global] Instance solution_eq_dec : EqDecision solution.
Proof. solve_decision. Defined.

Definition skipped_solution : solution := Solution None None None true.

(** A promise created by [waitForCaptchaSolution] is named by a number; the
    value it is resolved with is [None] for the [null] of the timeout. *)
Abbreviation promise := nat (only parsing).

Record server := Server {
  (** [const captchaResolvers = new Map()]: a [Map] iterates in insertion
      order, so it is kept as an association list; the value stands for
      the closure pair [{resolve, reject}] of one promise. *)
  captchaResolvers : list (threadId * promise);
  (** [const skipCaptchaFlags = new Map()] *)
  skipCaptchaFlags : gmap threadId bool;
  (** [const captchaQueue = []]: entries [{threadId, resolve}] *)
  captchaQueue : list threadId;
  (** [let activeCaptchaThreadId = null] *)
  activeCaptchaThreadId : option threadId;
  (** Pending [setTimeout] callbacks of [waitForCaptchaSolution], with the
      [threadId] each one closes over. *)
  timers : gmap promise threadId;
  (** Every call that reaches the [resolve] of a promise, oldest first. *)
  resolved : list (promise * option solution);
  (** Number of promises created so far. *)
  promises : nat;
  (** Console lines of the turn queue, oldest first. *)
  output : list console
}.

Definition initial_server : server :=
  Server [] ∅ [] None ∅ [] 0 [].

Definition set_resolvers (r : list (threadId * promise)) (s : server) : server :=
  Server r (skipCaptchaFlags s) (captchaQueue s) (activeCaptchaThreadId s)
         (timers s) (resolved s) (promises s) (output s).

Definition set_flags (f : gmap threadId bool) (s : server) : server :=
  Server (captchaResolvers s) f (captchaQueue s) (activeCaptchaThreadId s)
         (timers s) (resolved s) (promises s) (output s).

Definition set_queue (q : list threadId) (s : server) : server :=
  Server (captchaResolvers s) (skipCaptchaFlags s) q (activeCaptchaThreadId s)
         (timers s) (resolved s) (promises s) (output s).

Definition set_active (a : option threadId) (s : server) : server :=
  Server (captchaResolvers s) (skipCaptchaFlags s) (captchaQueue s) a
         (timers s) (resolved s) (promises s) (output s).

Definition set_timers (t : gmap promise threadId) (s : server) : server :=
  Server (captchaResolvers s) (skipCaptchaFlags s) (captchaQueue s)
         (activeCaptchaThreadId s) t (resolved s) (promises s) (output s).

Definition set_resolved (r : list (promise * option solution)) (s : server) : server :=
  Server (captchaResolvers s) (skipCaptchaFlags s) (captchaQueue s)
         (activeCaptchaThreadId s) (timers s) r (promises s) (output s).

Definition set_promises (n : nat) (s : server) : server :=
  Server (captchaResolvers s) (skipCaptchaFlags s) (captchaQueue s)
         (activeCaptchaThreadId s) (timers s) (resolved s) n (output s).

Definition log (c : console) (s : server) : server :=
  Server (captchaResolvers s) (skipCaptchaFlags s) (captchaQueue s)
         (activeCaptchaThreadId s) (timers s) (resolved s) (promises s)
         (output s ++ [c]).

(** ** The captcha turn queue *)

Module Arbiter.

(** [processCaptchaQueue]: grants the turn to the oldest waiter when nobody
    holds it; [next.resolve()] wakes that waiter up. *)
Definition processCaptchaQueue (s : server) : server :=
  match activeCaptchaThreadId s, captchaQueue s with
  | None, next :: rest =>
      log (AcquiredLock next (length rest))
          (set_active (Some next) (set_queue rest s))
  | _, _ => s
  end.

(** [waitForCaptchaTurn]: the synchronous part of the promise executor. *)
Definition waitForCaptchaTurn (t : threadId) (s : server) : server :=
  processCaptchaQueue (set_queue (captchaQueue s ++ [t]) s).

(** [releaseCaptchaLock] *)
Definition releaseCaptchaLock (t : threadId) (s : server) : server :=
  if decide (activeCaptchaThreadId s = Some t) then
    processCaptchaQueue
      (log (ReleasedLock t)
           (set_flags (delete t (skipCaptchaFlags s)) (set_active None s)))
  else s.

(** Calls on the queue, as the tasks make them. *)
Inductive call :=
| Enqueue (t : threadId)
| Release (t : threadId).

Definition step (s : server) (c : call) : server :=
  match c with
  | Enqueue t => waitForCaptchaTurn t s
  | Release t => releaseCaptchaLock t s
  end.

Definition run (cs : list call) (s : server) : server := fold_left step cs s.

(** The threads that asked for the turn, in the order of their calls. *)
Fixpoint arrivals (cs : list call) : list threadId :=
  match cs with
  | [] => []
  | Enqueue t :: cs => t :: arrivals cs
  | Release _ :: cs => arrivals cs
  end.

(** The threads that were given the turn, read off the console. *)
Fixpoint grants (out : list console) : list threadId :=
  match out with
  | [] => []
  | AcquiredLock t _ :: out => t :: grants out
  | ReleasedLock _ :: out => grants out
  end.

(** Removes the first occurrence of [t]. *)
Fixpoint remove_first (t : threadId) (l : list threadId) : list threadId :=
  match l with
  | [] => []
  | x :: l => if decide (x = t) then l else x :: remove_first t l
  end.

(** The threads that hold the turn after the console lines [out]: a thread
    holds it from its [AcquiredLock] line to its [ReleasedLock] line. *)
Definition holders (out : list console) : list threadId :=
  fold_left (fun h c =>
               match c with
               | AcquiredLock t _ => h ++ [t]
               | ReleasedLock t => remove_first t h
               end) out [].

(** *** Properties of the turn queue *)

Lemma grants_app (o1 o2 : list console) :
  grants (o1 ++ o2) = grants o1 ++ grants o2.
Proof.
  induction o1 as [|c o1 IH]; simpl; [done|].
  destruct c; simpl; by rewrite IH.
Qed.

Lemma holders_snoc (o : list console) (c : console) :
  holders (o ++ [c]) =
  match c with
  | AcquiredLock t _ => holders o ++ [t]
  | ReleasedLock t => remove_first t (holders o)
  end.
Proof. unfold holders. by rewrite fold_left_app. Qed.

(** What the reachable states have in common: the console and the queue
    together list the arrivals, the holder on the console is the thread
    named by [activeCaptchaThreadId], and nobody waits for a free turn. *)
Record consistent (arrived : list threadId) (s : server) : Prop := {
  cons_fifo : grants (output s) ++ captchaQueue s = arrived;
  cons_holder : holders (output s) = option_list (activeCaptchaThreadId s);
  cons_idle : activeCaptchaThreadId s = None -> captchaQueue s = []
}.

Lemma consistent_initial : consistent [] initial_server.
Proof. by split. Qed.

Lemma consistent_process (arrived : list threadId) (s : server) :
  grants (output s) ++ captchaQueue s = arrived ->
  holders (output s) = option_list (activeCaptchaThreadId s) ->
  consistent arrived (processCaptchaQueue s).
Proof.
  intros Hf Hh. unfold processCaptchaQueue.
  destruct (activeCaptchaThreadId s) as [a|] eqn:Ha.
  - split; [done| by rewrite Ha |]. rewrite Ha. discriminate.
  - destruct (captchaQueue s) as [|next rest] eqn:Hq.
    + split; [by rewrite Hq | by rewrite Ha | done].
    + split; simpl.
      * rewrite grants_app. simpl. by rewrite <- app_assoc.
      * rewrite holders_snoc, Hh. done.
      * discriminate.
Qed.

Lemma consistent_enqueue (arrived : list threadId) (s : server) (t : threadId) :
  consistent arrived s -> consistent (arrived ++ [t]) (waitForCaptchaTurn t s).
Proof.
  intros [Hf Hh _]. apply consistent_process; simpl; [|done].
  by rewrite app_assoc, Hf.
Qed.

Lemma release_other (s : server) (t : threadId) :
  activeCaptchaThreadId s <> Some t -> releaseCaptchaLock t s = s.
Proof. intros Hne. unfold releaseCaptchaLock. by rewrite decide_False. Qed.

Lemma consistent_release (arrived : list threadId) (s : server) (t : threadId) :
  consistent arrived s -> consistent arrived (releaseCaptchaLock t s).
Proof.
  intros Hc. unfold releaseCaptchaLock. case_decide as Ha; [|done].
  destruct Hc as [Hf Hh _]. apply consistent_process; simpl.
  - rewrite grants_app. simpl. by rewrite app_nil_r.
  - rewrite holders_snoc, Hh, Ha. simpl. by rewrite decide_True.
Qed.

Lemma consistent_run (cs : list call) (arrived : list threadId) (s : server) :
  consistent arrived s -> consistent (arrived ++ arrivals cs) (run cs s).
Proof.
  revert arrived s. induction cs as [|c cs IH]; intros arrived s Hc; simpl.
  - by rewrite app_nil_r.
  - destruct c as [t|t]; simpl.
    + replace (arrived ++ t :: arrivals cs) with ((arrived ++ [t]) ++ arrivals cs)
        by (by rewrite <- app_assoc).
      apply IH. by apply consistent_enqueue.
    + apply IH. by apply consistent_release.
Qed.

Lemma release_holder (s : server) (t : threadId) :
  activeCaptchaThreadId s = Some t ->
  releaseCaptchaLock t s =
  match captchaQueue s with
  | [] => log (ReleasedLock t)
              (set_flags (delete t (skipCaptchaFlags s)) (set_active None s))
  | next :: rest =>
      log (AcquiredLock next (length rest))
          (set_active (Some next)
             (set_queue rest
                (log (ReleasedLock t)
                   (set_flags (delete t (skipCaptchaFlags s))
                      (set_active None s)))))
  end.
Proof.
  intros Ha. unfold releaseCaptchaLock. rewrite decide_True by done.
  unfold processCaptchaQueue. simpl. by destruct (captchaQueue s).
Qed.

(** C1.  After any sequence of [waitForCaptchaTurn] and
    [releaseCaptchaLock] calls: the turns granted so far followed by the
    threads still queued are exactly the arrivals in their order of
    arrival (turns are granted first come, first served); at most one
    thread holds the turn, the one named by [activeCaptchaThreadId]; a
    release by a thread that is not the holder changes nothing; a release
    by the holder passes the turn at once to the oldest waiter, or frees
    the turn when nobody waits. *)
Theorem turn_queue_fifo_exclusive (cs : list call) :
  let s := run cs initial_server in
  grants (output s) ++ captchaQueue s = arrivals cs /\
  (holders (output s) = option_list (activeCaptchaThreadId s) /\
   length (holders (output s)) <= 1) /\
  (forall t, activeCaptchaThreadId s <> Some t -> releaseCaptchaLock t s = s) /\
  (forall t next rest,
      activeCaptchaThreadId s = Some t -> captchaQueue s = next :: rest ->
      activeCaptchaThreadId (releaseCaptchaLock t s) = Some next /\
      captchaQueue (releaseCaptchaLock t s) = rest /\
      grants (output (releaseCaptchaLock t s)) = grants (output s) ++ [next] /\
      holders (output (releaseCaptchaLock t s)) = [next]) /\
  (forall t,
      activeCaptchaThreadId s = Some t -> captchaQueue s = [] ->
      activeCaptchaThreadId (releaseCaptchaLock t s) = None /\
      holders (output (releaseCaptchaLock t s)) = []).
Proof.
  intros s.
  pose proof (consistent_run cs [] initial_server consistent_initial) as Hc.
  simpl in Hc. fold s in Hc. destruct Hc as [Hf Hh Hi].
  split; [done|]. split.
  { split; [done|]. rewrite Hh. destruct (activeCaptchaThreadId s); simpl; lia. }
  split; [intros t; apply release_other|]. split.
  - intros t next rest Ha Hq. rewrite release_holder, Hq by done. simpl.
    split; [done|]. split; [done|].
    rewrite !grants_app. simpl. rewrite app_nil_r. split; [done|].
    rewrite !holders_snoc, Hh, Ha. simpl. by rewrite decide_True.
  - intros t Ha Hq. rewrite release_holder, Hq by done. simpl.
    split; [done|]. rewrite holders_snoc, Hh, Ha. simpl. by rewrite decide_True.
Qed.

(** Three threads arrive as 1, 2, 3; thread 3 releases out of turn, which is
    ignored; the turns are then taken in the order 1, 2, 3. *)
Example turn_queue_example :
  let s := run [Enqueue 1; Enqueue 2; Enqueue 3; Release 3; Release 1; Release 2]
               initial_server in
  grants (output s) = [1; 2; 3] /\ activeCaptchaThreadId s = Some 3 /\
  captchaQueue s = [].
Proof. by vm_compute. Qed.

(** Thread 2 arrives while thread 1 holds the turn, and gets it when
    thread 1 releases. *)
Lemma turn_queue_fifo_exclusive_witness :
  activeCaptchaThreadId
    (releaseCaptchaLock 1 (run [Enqueue 1; Enqueue 2] initial_server)) = Some 2 /\
  releaseCaptchaLock 2 (run [Enqueue 1; Enqueue 2] initial_server)
  = run [Enqueue 1; Enqueue 2] initial_server.
Proof.
  destruct (turn_queue_fifo_exclusive [Enqueue 1; Enqueue 2])
    as (_ & _ & Hother & Hnext & _).
  split.
  - destruct (Hnext 1 2 [] eq_refl eq_refl) as [Hactive _]. exact Hactive.
  - apply Hother. discriminate.
Defined.

End Arbiter.

(** ** The browser context pool *)

Module Pool.

(** A browser context is an object of the browser; it is named by the
    number of contexts the browser had created before it. *)
Abbreviation context := nat (only parsing).

(** [class BrowserContextPool], with the browser's side of it (how many
    contexts were created, which ones were closed) and the calls of its
    methods that are suspended at an [await]: the three methods are
    [async], and the code of other tasks runs while one of them waits. *)
Record t := Make {
  pool : list context;        (* this.pool, an array: last element on top *)
  maxSize : nat;              (* this.maxSize *)
  inUse : list context;       (* this.inUse, a Set: its elements in insertion order *)
  created : nat;              (* contexts made by browser.createBrowserContext() *)
  closed : list context;      (* contexts on which close() was called *)
  creating : nat;             (* calls of getContext waiting for createBrowserContext() *)
  releasing : list context;   (* calls of releaseContext waiting inside their try block *)
  cleaning : nat              (* calls of cleanup waiting for the contexts to close *)
}.

(** [constructor(maxSize = 6)] *)
Definition new (maxSize : nat) : t := Make [] maxSize [] 0 [] 0 [] 0.

(** [const contextPool = new BrowserContextPool(6)] *)
Definition contextPool : t := new 6.

(** [Array.prototype.pop]: the last element and the array without it. *)
Definition pop {A} (l : list A) : option (A * list A) :=
  match rev l with
  | [] => None
  | x :: r => Some (x, rev r)
  end.

(** [Set.prototype.add] and [Set.prototype.delete] *)
Definition Set_add (c : context) (s : list context) : list context :=
  if decide (c ∈ s) then s else s ++ [c].

Definition Set_delete (c : context) (s : list context) : list context :=
  filter (fun c' => c' <> c) s.

(** How a call of [getContext] leaves its first stretch: with a [return],
    or suspended on [browser.createBrowserContext()]. *)
Inductive entered :=
| Returns (c : context)
| AwaitsCreation.

(** [getContext(browser)] up to its first [await]. *)
Definition getContext (p : t) : entered * t :=
  match pop (pool p) with
  | Some (context, rest) =>
      (Returns context,
       Make rest (maxSize p) (Set_add context (inUse p)) (created p) (closed p)
            (creating p) (releasing p) (cleaning p))
  | None =>
      (AwaitsCreation,
       Make (pool p) (maxSize p) (inUse p) (created p) (closed p)
            (S (creating p)) (releasing p) (cleaning p))
  end.

(** The rest of [getContext], once [createBrowserContext()] has settled:
    with a context ([ok]), which is added to [inUse] and returned, or with
    an exception, for which the [catch] returns [null] ([None]).  Without a
    call that waits there is nothing to resume. *)
Definition context_created (ok : bool) (p : t) : option context * t :=
  match creating p with
  | 0 => (None, p)
  | S waiting =>
      if ok then
        let context := created p in
        (Some context,
         Make (pool p) (maxSize p) (Set_add context (inUse p)) (S (created p))
              (closed p) waiting (releasing p) (cleaning p))
      else
        (None,
         Make (pool p) (maxSize p) (inUse p) (created p) (closed p) waiting
              (releasing p) (cleaning p))
  end.

(** [releaseContext(context)] up to its first [await]: the context leaves
    [inUse] and the length of the pool is tested.  Below [maxSize] the
    [try] block is entered and the call waits for [context.pages()];
    otherwise the context is closed. *)
Definition releaseContext (context : context) (p : t) : t :=
  if decide (length (pool p) < maxSize p) then
    Make (pool p) (maxSize p) (Set_delete context (inUse p)) (created p)
         (closed p) (creating p) (releasing p ++ [context]) (cleaning p)
  else
    Make (pool p) (maxSize p) (Set_delete context (inUse p)) (created p)
         (closed p ++ [context]) (creating p) (releasing p) (cleaning p).

Fixpoint remove_one (c : context) (l : list context) : list context :=
  match l with
  | [] => []
  | c' :: l' => if decide (c' = c) then l' else c' :: remove_one c l'
  end.

(** The rest of the [try] block, after [context.pages()] and the clearing
    of the pages: the context is pushed when they went through
    ([sanitized]), whatever the length of the pool has become, and closed
    in the [catch] otherwise. *)
Definition pages_cleared (context : context) (sanitized : bool) (p : t) : t :=
  if decide (context ∈ releasing p) then
    if sanitized then
      Make (pool p ++ [context]) (maxSize p) (inUse p) (created p) (closed p)
           (creating p) (remove_one context (releasing p)) (cleaning p)
    else
      Make (pool p) (maxSize p) (inUse p) (created p) (closed p ++ [context])
           (creating p) (remove_one context (releasing p)) (cleaning p)
  else p.

(** [cleanup()] up to its [await]: [close()] is called on the free
    contexts and on those in use. *)
Definition cleanup (p : t) : t :=
  Make (pool p) (maxSize p) (inUse p) (created p)
       (closed p ++ pool p ++ inUse p) (creating p) (releasing p)
       (S (cleaning p)).

(** The rest of [cleanup()]: [this.pool = []; this.inUse.clear()]. *)
Definition cleanup_end (p : t) : t :=
  match cleaning p with
  | 0 => p
  | S waiting =>
      Make [] (maxSize p) [] (created p) (closed p) (creating p) (releasing p)
           waiting
  end.

(** The stretches of code that run on the pool, in the order in which the
    event loop runs them. *)
Inductive event :=
| Get                                        (* a call of getContext *)
| Created (ok : bool)                        (* a suspended getContext goes on *)
| Release (c : context)                      (* a call of releaseContext *)
| Cleared (c : context) (sanitized : bool)   (* the suspended releaseContext of c goes on *)
| Cleanup                                    (* a call of cleanup *)
| Cleaned.                                   (* a suspended cleanup goes on *)

Definition step (p : t) (ev : event) : t :=
  match ev with
  | Get => snd (getContext p)
  | Created ok => snd (context_created ok p)
  | Release c => releaseContext c p
  | Cleared c sanitized => pages_cleared c sanitized p
  | Cleanup => cleanup p
  | Cleaned => cleanup_end p
  end.

Definition run (evs : list event) (p : t) : t := fold_left step evs p.

(** How the tasks use the pool: a task releases a context it holds
    ([processAccount] releases in its [finally] the context it got). *)
Fixpoint well_used (evs : list event) (p : t) : Prop :=
  match evs with
  | [] => True
  | ev :: evs =>
      match ev with
      | Release c => c ∈ inUse p
      | _ => True
      end /\ well_used evs (step p ev)
  end.

(** The scheduler's side of the capacity: a context is asked for only
    while fewer than [maxSize] tasks are between their call of
    [getContext] and the end of their [releaseContext] (a batch has at most
    [MAX_THREADS = 6] tasks, and it starts when the tasks of the batch
    before have ended). *)
Fixpoint bounded_use (evs : list event) (p : t) : Prop :=
  match evs with
  | [] => True
  | ev :: evs =>
      match ev with
      | Get => length (inUse p) + creating p + length (releasing p) < maxSize p
      | _ => True
      end /\ bounded_use evs (step p ev)
  end.

(** No [releaseContext] is called while another one is suspended. *)
Fixpoint serial (evs : list event) (p : t) : Prop :=
  match evs with
  | [] => True
  | ev :: evs =>
      match ev with
      | Release _ => releasing p = []
      | _ => True
      end /\ serial evs (step p ev)
  end.

(** *** Properties of the pool *)

Lemma pop_None {A} (l : list A) : pop l = None <-> l = [].
Proof.
  unfold pop. destruct (rev l) as [|x r] eqn:Hr.
  - split; [|done]. intros _. apply (f_equal (@rev A)) in Hr.
    by rewrite rev_involutive in Hr.
  - split; [done|]. intros ->. done.
Qed.

Lemma pop_Some {A} (l rest : list A) (x : A) :
  pop l = Some (x, rest) <-> l = rest ++ [x].
Proof.
  unfold pop. destruct (rev l) as [|y r] eqn:Hr.
  - split; [done|]. intros ->. rewrite rev_app_distr in Hr. done.
  - apply (f_equal (@rev A)) in Hr. rewrite rev_involutive in Hr. simpl in Hr.
    split.
    + intros [= -> <-]. done.
    + intros ->. apply app_inj_tail in Hr as [-> ->]. done.
Qed.

Lemma Set_add_new (c : context) (s : list context) :
  c ∉ s -> Set_add c s = s ++ [c].
Proof. intros Hc. unfold Set_add. by rewrite decide_False. Qed.

Lemma Set_delete_Permutation (c : context) (s : list context) :
  NoDup s -> c ∈ s -> s ≡ₚ c :: Set_delete c s.
Proof.
  unfold Set_delete. induction 1 as [|x s Hx Hnd IH]; intros Hc.
  - by apply elem_of_nil in Hc.
  - rewrite filter_cons. apply elem_of_cons in Hc as [<-|Hc].
    + rewrite decide_False by tauto.
      assert (filter (fun c' => c' <> c) s = s) as ->; [|done].
      clear IH Hnd. induction s as [|y s IH]; [done|].
      apply not_elem_of_cons in Hx as [Hy Hx]. rewrite filter_cons.
      rewrite decide_True by congruence. by rewrite IH.
    + rewrite decide_True by (intros ->; done).
      rewrite (IH Hc) at 1. apply Permutation_swap.
Qed.

Lemma remove_one_Permutation (c : context) (l : list context) :
  c ∈ l -> l ≡ₚ c :: remove_one c l.
Proof.
  induction l as [|x l IH]; intros Hc; [by apply elem_of_nil in Hc|]. simpl.
  case_decide as Hx; [by subst|].
  apply elem_of_cons in Hc as [->|Hc]; [done|].
  rewrite (IH Hc) at 1. apply Permutation_swap.
Qed.

(** Every context the pool knows: free, in use, or on its way back. *)
Definition known (p : t) : list context := pool p ++ inUse p ++ releasing p.

(** The invariant of the pool's own book-keeping. *)
Record sound (p : t) : Prop := {
  sound_nodup : NoDup (known p);
  sound_old : forall c, c ∈ known p -> c < created p
}.

Lemma sound_new (n : nat) : sound (new n).
Proof.
  split; unfold known; simpl; [constructor|].
  intros c Hc. by apply elem_of_nil in Hc.
Qed.

Lemma sound_Permutation (p p' : t) :
  known p' ≡ₚ known p -> created p' = created p -> sound p -> sound p'.
Proof.
  intros Hk Hc [Hnd Hold]. split.
  - by rewrite Hk.
  - intros c Hin. rewrite Hc. apply Hold. by rewrite <- Hk.
Qed.

Lemma sound_sublist (p p' : t) :
  known p' ⊆+ known p -> created p' = created p -> sound p -> sound p'.
Proof.
  intros Hk Hc [Hnd Hold]. split.
  - destruct (submseteq_Permutation _ _ Hk) as [k Hperm].
    rewrite Hperm in Hnd. by apply NoDup_app in Hnd as (? & _).
  - intros c Hin. rewrite Hc. apply Hold.
    by apply (elem_of_submseteq _ _ _ Hin Hk).
Qed.

Lemma insert_first (a b c : list context) (x : context) :
  (a ++ [x]) ++ b ++ c ≡ₚ x :: a ++ b ++ c.
Proof. rewrite <- app_assoc. simpl. by rewrite <- Permutation_middle. Qed.

Lemma insert_middle (a b c : list context) (x : context) :
  a ++ (b ++ [x]) ++ c ≡ₚ x :: a ++ b ++ c.
Proof.
  rewrite <- app_assoc. simpl. by rewrite <- !Permutation_middle.
Qed.

Lemma insert_last (a b c : list context) (x : context) :
  a ++ b ++ c ++ [x] ≡ₚ x :: a ++ b ++ c.
Proof.
  rewrite !app_assoc. rewrite <- Permutation_cons_append. done.
Qed.

Lemma known_in_use (p : t) (c : context) :
  sound p -> c ∈ inUse p ->
  inUse p ≡ₚ c :: Set_delete c (inUse p) /\
  known p ≡ₚ c :: pool p ++ Set_delete c (inUse p) ++ releasing p.
Proof.
  intros [Hnd _] Hc. unfold known in *.
  assert (inUse p ≡ₚ c :: Set_delete c (inUse p)) as Hperm.
  { apply Set_delete_Permutation; [|done].
    apply NoDup_app in Hnd as (_ & _ & Hnd).
    by apply NoDup_app in Hnd as (Hnd & _). }
  split; [done|]. rewrite Hperm at 1. simpl. by rewrite <- Permutation_middle.
Qed.

Lemma known_releasing (p : t) (c : context) :
  c ∈ releasing p ->
  known p ≡ₚ c :: pool p ++ inUse p ++ remove_one c (releasing p).
Proof.
  intros Hc. unfold known.
  rewrite (remove_one_Permutation c (releasing p) Hc) at 1.
  by rewrite <- !Permutation_middle.
Qed.

Lemma sound_step (p : t) (ev : event) :
  match ev with Release c => c ∈ inUse p | _ => True end ->
  sound p -> sound (step p ev).
Proof.
  intros Hev Hs. pose proof Hs as [Hnd Hold].
  destruct ev as [|ok|c|c sanitized| |]; simpl.
  - unfold getContext. destruct (pop (pool p)) as [[c rest]|] eqn:Hpop; simpl.
    + apply pop_Some in Hpop.
      assert (c ∉ inUse p) as Hc.
      { unfold known in Hnd. rewrite Hpop in Hnd. intros Hin.
        apply NoDup_app in Hnd as (_ & Hdis & _). apply (Hdis c).
        - apply elem_of_app. right. by left.
        - apply elem_of_app. by left. }
      apply (sound_Permutation p); [|done|done].
      unfold known. simpl. rewrite Set_add_new, Hpop by done.
      by rewrite insert_first, insert_middle.
    + by apply (sound_Permutation p).
  - unfold context_created. destruct (creating p) as [|waiting]; [done|].
    destruct ok; simpl; [|by apply (sound_Permutation p)].
    assert (created p ∉ known p) as Hnew by (intros Hin%Hold; lia).
    assert (created p ∉ inUse p) as Hu.
    { intros Hin. apply Hnew. unfold known. rewrite !elem_of_app. tauto. }
    split; unfold known; simpl; rewrite Set_add_new by done.
    + rewrite insert_middle. apply NoDup_cons. done.
    + intros c. rewrite insert_middle. intros [->|Hin]%elem_of_cons; [lia|].
      apply Hold in Hin. lia.
  - destruct (known_in_use p c Hs Hev) as [_ Hperm].
    unfold releaseContext. case_decide.
    + apply (sound_Permutation p); [|done|done]. unfold known at 1. simpl.
      by rewrite Hperm, insert_last.
    + apply (sound_sublist p); [|done|done]. unfold known at 1. simpl.
      rewrite Hperm. by apply submseteq_cons.
  - unfold pages_cleared. case_decide as Hc; [|done].
    pose proof (known_releasing p c Hc) as Hperm.
    destruct sanitized.
    + apply (sound_Permutation p); [|done|done]. unfold known at 1. simpl.
      by rewrite Hperm, insert_first.
    + apply (sound_sublist p); [|done|done]. unfold known at 1. simpl.
      rewrite Hperm. by apply submseteq_cons.
  - by apply (sound_Permutation p).
  - unfold cleanup_end. destruct (cleaning p); [done|].
    apply (sound_sublist p); [|done|done]. unfold known. simpl.
    apply submseteq_inserts_l, submseteq_inserts_l. done.
Qed.

Lemma sound_run (evs : list event) (p : t) :
  well_used evs p -> sound p -> sound (run evs p).
Proof.
  revert p. induction evs as [|ev evs IH]; intros p Hw Hs; simpl; [done|].
  destruct Hw as [Hev Hw]. apply IH; [done|]. by apply sound_step.
Qed.

Lemma maxSize_step (p : t) (ev : event) : maxSize (step p ev) = maxSize p.
Proof.
  destruct ev as [|ok|c|c sanitized| |]; simpl; [| | | |done|].
  - unfold getContext. by destruct (pop (pool p)) as [[c rest]|].
  - unfold context_created. destruct (creating p); [done|]. by destruct ok.
  - unfold releaseContext. by case_decide.
  - unfold pages_cleared. case_decide; [|done]. by destruct sanitized.
  - unfold cleanup_end. by destruct (cleaning p).
Qed.

Lemma maxSize_run (evs : list event) (p : t) : maxSize (run evs p) = maxSize p.
Proof.
  revert p. induction evs as [|ev evs IH]; intros p; simpl; [done|].
  by rewrite IH, maxSize_step.
Qed.

(** The contexts that exist for the pool, and the calls that will add
    one. *)
Definition load (p : t) : nat :=
  length (pool p) + length (inUse p) + creating p + length (releasing p).

Lemma load_step (p : t) (ev : event) :
  sound p ->
  match ev with
  | Get => length (inUse p) + creating p + length (releasing p) < maxSize p
  | Release c => c ∈ inUse p
  | _ => True
  end ->
  load p <= maxSize p -> load (step p ev) <= maxSize (step p ev).
Proof.
  intros Hs Hev Hb. pose proof Hs as [Hnd Hold]. rewrite maxSize_step.
  unfold load, known in *.
  destruct ev as [|ok|c|c sanitized| |]; simpl.
  - unfold getContext. destruct (pop (pool p)) as [[c rest]|] eqn:Hpop; simpl.
    + apply pop_Some in Hpop. rewrite Hpop in Hb, Hnd.
      rewrite length_app in Hb. simpl in Hb.
      rewrite Set_add_new, length_app; [simpl; lia|].
      intros Hin. apply NoDup_app in Hnd as (_ & Hdis & _). apply (Hdis c).
      * apply elem_of_app. right. by left.
      * apply elem_of_app. by left.
    + apply pop_None in Hpop. rewrite Hpop. simpl. lia.
  - unfold context_created.
    destruct (creating p) as [|waiting] eqn:Hwaiting; [simpl; lia|].
    destruct ok; simpl; [|lia].
    rewrite Set_add_new, length_app; [simpl; lia|].
    intros Hin. assert (created p < created p); [|lia].
    apply Hold. rewrite !elem_of_app. tauto.
  - assert (length (inUse p) = S (length (Set_delete c (inUse p)))) as Hlen.
    { destruct (known_in_use p c Hs Hev) as [Hperm _]. by rewrite Hperm at 1. }
    unfold releaseContext. case_decide; simpl; rewrite ?length_app; simpl; lia.
  - unfold pages_cleared. case_decide as Hc; [|lia].
    assert (length (releasing p) = S (length (remove_one c (releasing p))))
      as Hlen by (by rewrite (remove_one_Permutation c (releasing p) Hc) at 1).
    destruct sanitized; simpl; rewrite ?length_app; simpl; lia.
  - lia.
  - unfold cleanup_end. destruct (cleaning p); simpl; lia.
Qed.

Lemma load_run (evs : list event) (p : t) :
  well_used evs p -> bounded_use evs p -> sound p ->
  load p <= maxSize p -> load (run evs p) <= maxSize (run evs p).
Proof.
  revert p. induction evs as [|ev evs IH]; intros p Hw Hc Hs Hb; simpl; [done|].
  destruct Hw as [Hev Hw], Hc as [Hev' Hc]. apply IH; [done|done| |].
  - by apply sound_step.
  - apply load_step; [done| |done]. by destruct ev.
Qed.

Lemma serial_step (p : t) (ev : event) :
  match ev with Release _ => releasing p = [] | _ => True end ->
  length (pool p) + length (releasing p) <= maxSize p ->
  length (pool (step p ev)) + length (releasing (step p ev))
  <= maxSize (step p ev).
Proof.
  intros Hev Hb. rewrite maxSize_step.
  destruct ev as [|ok|c|c sanitized| |]; simpl.
  - unfold getContext. destruct (pop (pool p)) as [[c rest]|] eqn:Hpop; simpl;
      [|done].
    apply pop_Some in Hpop. rewrite Hpop, length_app in Hb. simpl in Hb. lia.
  - unfold context_created. destruct (creating p); [done|]. by destruct ok.
  - unfold releaseContext. rewrite Hev in *. case_decide; simpl in *; lia.
  - unfold pages_cleared. case_decide as Hc; [|done].
    assert (length (releasing p) = S (length (remove_one c (releasing p))))
      as Hlen by (by rewrite (remove_one_Permutation c (releasing p) Hc) at 1).
    destruct sanitized; simpl; rewrite ?length_app; simpl; lia.
  - done.
  - unfold cleanup_end. destruct (cleaning p); simpl; [done|].
    lia.
Qed.

Lemma serial_run (evs : list event) (p : t) :
  serial evs p ->
  length (pool p) + length (releasing p) <= maxSize p ->
  length (pool (run evs p)) + length (releasing (run evs p))
  <= maxSize (run evs p).
Proof.
  revert p. induction evs as [|ev evs IH]; intros p Hs Hb; simpl; [done|].
  destruct Hs as [Hev Hs]. apply IH; [done|]. by apply serial_step.
Qed.

(** Seven tasks ask for a context in a row; the browser creates the
    contexts 0 to 6. *)
Definition seven_tasks : list event :=
  replicate 7 Get ++ replicate 7 (Created true).

(** The seven tasks end together: every [releaseContext] finds the pool
    below [maxSize] before any of them has pushed its context. *)
Definition seven_releases : list event :=
  (Release <$> seq 0 7) ++ ((fun c => Cleared c true) <$> seq 0 7).

(** Six tasks hold a context each; the first one has called
    [releaseContext] and waits for its pages when a seventh task starts. *)
Definition overlap : list event :=
  replicate 6 Get ++ replicate 6 (Created true)
  ++ [Release 0; Get; Created true; Cleared 0 true].



(** Three tasks take a context each, two give theirs back, a fourth task
    starts: it gets the context released last. *)
Definition three_tasks : list event :=
  [Get; Get; Get; Created true; Created true; Created true;
   Release 0; Cleared 0 true; Release 2; Cleared 2 true; Get].


End Pool.

(** ** The e-mail prefetch queue *)

Module Prefetch.

(** The argument of [generateEmailInternal]: ['queue'] or a thread id; it
    only shows in the console. *)
Inductive label :=
| ForQueue
| ForThread (t : threadId).

(** One call of [generateEmailInternal], that is the promise it returns;
    [fetch_id] counts the calls made before it. *)
Record fetch := Fetch { fetch_id : nat; fetch_label : label }.

#[global] Instance label_eq_dec : EqDecision label.
Proof. solve_decision. Defined.
#[global] Instance fetch_eq_dec : EqDecision fetch.
Proof. solve_decision. Defined.

Record t := Make {
  emailQueue : list fetch;    (* const emailQueue = [] *)
  started : list fetch;       (* every call of generateEmailInternal, oldest first *)
  settled : gset nat          (* the calls whose promise is settled *)
}.

Definition EMAIL_QUEUE_SIZE : nat := 10.

Definition initial : t := Make [] [] ∅.

(** [generateEmailInternal(label)]: the request goes out, the promise is
    returned. *)
Definition generateEmailInternal (l : label) (s : t) : fetch * t :=
  let f := Fetch (length (started s)) l in
  (f, Make (emailQueue s) (started s ++ [f]) (settled s)).

(** The [while] loop of [maintainEmailQueue]; no iteration awaits, so the
    loop runs to its end within the call.  [fuel] bounds the iterations. *)
Fixpoint maintain_loop (fuel : nat) (s : t) : t :=
  if decide (length (emailQueue s) < EMAIL_QUEUE_SIZE) then
    match fuel with
    | 0 => s
    | S fuel =>
        let '(emailPromise, s1) := generateEmailInternal ForQueue s in
        maintain_loop fuel
          (Make (emailQueue s1 ++ [emailPromise]) (started s1) (settled s1))
    end
  else s.

(** [maintainEmailQueue()]; [EMAIL_QUEUE_SIZE] iterations are enough
    ([maintain_full]). *)
Definition maintainEmailQueue (s : t) : t := maintain_loop EMAIL_QUEUE_SIZE s.

(** [emailQueue.shift() || generateEmailInternal(threadId)] *)
Definition shift_or_fetch (threadId : threadId) (s : t) : fetch * t :=
  match emailQueue s with
  | emailPromise :: rest => (emailPromise, Make rest (started s) (settled s))
  | [] => generateEmailInternal (ForThread threadId) s
  end.

(** [getEmailFromQueue(threadId)] up to its [await]: the promise the
    caller then waits for. *)
Definition getEmailFromQueue (threadId : threadId) (s : t) : fetch * t :=
  shift_or_fetch threadId (maintainEmailQueue s).

(** What happens to the queue: the calls of the server, and the network
    settling a fetch. *)
Inductive op :=
| Maintain
| Take (t : threadId)
| Settle (id : nat).

Definition step (s : t) (o : op) : t :=
  match o with
  | Maintain => maintainEmailQueue s
  | Take t => snd (getEmailFromQueue t s)
  | Settle id => Make (emailQueue s) (started s) ({[id]} ∪ settled s)
  end.

Definition run (os : list op) (s : t) : t := fold_left step os s.

(** The fetches that are under way: started and not settled. *)
Definition in_flight (s : t) : list fetch :=
  filter (fun f => fetch_id f ∉ settled s) (started s).

(** *** Properties of the prefetch queue *)

Lemma maintain_loop_spec (fuel : nat) (s : t) :
  EMAIL_QUEUE_SIZE - length (emailQueue s) <= fuel ->
  exists new,
    length new = EMAIL_QUEUE_SIZE - length (emailQueue s) /\
    Forall (fun f => fetch_label f = ForQueue) new /\
    (forall f, head new = Some f -> fetch_id f = length (started s)) /\
    maintain_loop fuel s =
    Make (emailQueue s ++ new) (started s ++ new) (settled s).
Proof.
  revert s. induction fuel as [|fuel IH]; intros s Hfuel; simpl.
  - rewrite decide_False by lia. exists []. rewrite !app_nil_r.
    split; [simpl; lia|]. split; [constructor|]. split; [done|].
    by destruct s.
  - case_decide as Hlt.
    + edestruct (IH (Make (emailQueue s ++ [Fetch (length (started s)) ForQueue])
                          (started s ++ [Fetch (length (started s)) ForQueue])
                          (settled s))) as (new & Hlen & Hlab & _ & Heq).
      { simpl. rewrite length_app. simpl. lia. }
      simpl in *. rewrite length_app in Hlen. simpl in Hlen.
      exists (Fetch (length (started s)) ForQueue :: new).
      split; [simpl; lia|]. split; [by constructor|].
      split; [by intros f [= <-]|].
      rewrite Heq. by rewrite <- !app_assoc.
    + exists []. rewrite !app_nil_r.
      split; [simpl; lia|]. split; [constructor|]. split; [done|].
      by destruct s.
Qed.

Lemma maintain_spec (s : t) :
  exists new,
    length new = EMAIL_QUEUE_SIZE - length (emailQueue s) /\
    Forall (fun f => fetch_label f = ForQueue) new /\
    (forall f, head new = Some f -> fetch_id f = length (started s)) /\
    maintainEmailQueue s =
    Make (emailQueue s ++ new) (started s ++ new) (settled s).
Proof. apply maintain_loop_spec. lia. Qed.

(** The loop ends because its test fails, not for lack of fuel. *)
Lemma maintain_full (s : t) :
  ~ length (emailQueue (maintainEmailQueue s)) < EMAIL_QUEUE_SIZE.
Proof.
  destruct (maintain_spec s) as (new & Hlen & _ & _ & ->). simpl.
  rewrite length_app. lia.
Qed.

Lemma maintain_length (s : t) :
  length (emailQueue (maintainEmailQueue s)) =
  Nat.max (length (emailQueue s)) EMAIL_QUEUE_SIZE.
Proof.
  destruct (maintain_spec s) as (new & Hlen & _ & _ & ->). simpl.
  rewrite length_app. lia.
Qed.

Lemma take_length (t0 : threadId) (s : t) :
  length (emailQueue (snd (getEmailFromQueue t0 s))) =
  Nat.max (length (emailQueue s)) EMAIL_QUEUE_SIZE - 1.
Proof.
  unfold getEmailFromQueue, shift_or_fetch.
  pose proof (maintain_length s) as Hl.
  destruct (emailQueue (maintainEmailQueue s)) as [|p rest] eqn:Hq; simpl in *.
  - unfold EMAIL_QUEUE_SIZE in *. lia.
  - lia.
Qed.

Lemma depth_step (s : t) (o : op) :
  length (emailQueue s) <= EMAIL_QUEUE_SIZE ->
  length (emailQueue (step s o)) <= EMAIL_QUEUE_SIZE.
Proof.
  intros Hd. destruct o as [|t0|id]; simpl.
  - rewrite maintain_length. lia.
  - rewrite take_length. lia.
  - done.
Qed.

Lemma depth_run (os : list op) (s : t) :
  length (emailQueue s) <= EMAIL_QUEUE_SIZE ->
  length (emailQueue (run os s)) <= EMAIL_QUEUE_SIZE.
Proof.
  revert s. induction os as [|o os IH]; intros s Hd; simpl; [done|].
  apply IH. by apply depth_step.
Qed.

Lemma take_oldest (t0 : threadId) (s : t) (p : fetch) (rest : list fetch) :
  emailQueue s = p :: rest ->
  fst (getEmailFromQueue t0 s) = p /\
  exists new,
    length new = EMAIL_QUEUE_SIZE - length (emailQueue s) /\
    emailQueue (snd (getEmailFromQueue t0 s)) = rest ++ new /\
    started (snd (getEmailFromQueue t0 s)) = started s ++ new.
Proof.
  intros Hq. unfold getEmailFromQueue, shift_or_fetch.
  destruct (maintain_spec s) as (new & Hlen & _ & _ & ->). simpl.
  rewrite Hq in *. simpl. split; [done|]. exists new. by split.
Qed.

Lemma take_empty (t0 : threadId) (s : t) :
  emailQueue s = [] ->
  fst (getEmailFromQueue t0 s) = Fetch (length (started s)) ForQueue /\
  length (started (snd (getEmailFromQueue t0 s))) =
  length (started s) + EMAIL_QUEUE_SIZE /\
  Forall (fun f => fetch_label f <> ForThread t0)
         (drop (length (started s)) (started (snd (getEmailFromQueue t0 s)))).
Proof.
  intros Hq. unfold getEmailFromQueue, shift_or_fetch.
  destruct (maintain_spec s) as (new & Hlen & Hlab & Hhd & ->). simpl.
  rewrite Hq in *. simpl in *.
  destruct new as [|f new]; [unfold EMAIL_QUEUE_SIZE in Hlen; simpl in Hlen; lia|].
  simpl. specialize (Hhd f eq_refl).
  apply Forall_cons in Hlab as Hf. destruct Hf as [Hf _].
  split; [destruct f; simpl in *; congruence|].
  split; [rewrite length_app, Hlen; done|].
  rewrite drop_app_length.
  eapply Forall_impl; [exact Hlab|]. intros g Hg. rewrite Hg. done.
Qed.

Lemma maintain_started (s : t) :
  length (started (maintainEmailQueue s)) =
  length (started s) + (EMAIL_QUEUE_SIZE - length (emailQueue s)).
Proof.
  destruct (maintain_spec s) as (new & Hlen & _ & _ & ->). simpl.
  rewrite length_app. lia.
Qed.

(** The queue is filled at the start of a run and two tasks take an
    address each; no fetch has come back yet. *)
Definition two_takes : list op := [Maintain; Take 1; Take 2].

(** C8, as stated, fails.  The refill loop only looks at the length of the
    queue: after the fill and two takes eleven fetches are under way, nine
    in the queue and two in the hands of the tasks.  And a take on the
    empty queue fills it before it shifts, so the caller gets the first of
    ten fetches started for the queue, none being started for the caller. *)
Lemma prefetch_exceeds_target :
  length (in_flight (run two_takes initial)) = 11 /\
  length (emailQueue (run two_takes initial)) = 9 /\
  EMAIL_QUEUE_SIZE = 10 /\
  ~ (forall os, length (in_flight (run os initial)) <= EMAIL_QUEUE_SIZE) /\
  fst (getEmailFromQueue 1 initial) = Fetch 0 ForQueue /\
  started (snd (getEmailFromQueue 1 initial)) =
  map (fun i => Fetch i ForQueue) (seq 0 10).
Proof.
  assert (length (in_flight (run two_takes initial)) = 11) as H11
    by (vm_compute; reflexivity).
  split; [exact H11|]. split; [vm_compute; reflexivity|].
  split; [reflexivity|].
  split; [|vm_compute; split; reflexivity].
  intros Hall. specialize (Hall two_takes). rewrite H11 in Hall.
  unfold EMAIL_QUEUE_SIZE in Hall. lia.
Qed.

(** C8, amended.  After any sequence of refills, takes and fetches coming
    back: the queue never holds more than [EMAIL_QUEUE_SIZE = 10] fetches,
    and a refill starts exactly as many fetches as are missing; a take on
    a queue that is not empty returns its oldest fetch and leaves the rest
    followed by the refill; a take on the empty queue returns a fetch that
    is started within the call, the first of the refill.  (Fetches already
    taken may still be under way: the bound is on the queue alone.) *)
Theorem prefetch_queue_bounded (os : list op) :
  let s := run os initial in
  length (emailQueue s) <= EMAIL_QUEUE_SIZE /\
  (length (emailQueue (maintainEmailQueue s)) = EMAIL_QUEUE_SIZE /\
   length (started (maintainEmailQueue s)) =
   length (started s) + (EMAIL_QUEUE_SIZE - length (emailQueue s))) /\
  (forall t0 p rest,
      emailQueue s = p :: rest ->
      fst (getEmailFromQueue t0 s) = p /\
      exists new,
        length new = EMAIL_QUEUE_SIZE - length (emailQueue s) /\
        emailQueue (snd (getEmailFromQueue t0 s)) = rest ++ new /\
        started (snd (getEmailFromQueue t0 s)) = started s ++ new) /\
  (forall t0,
      emailQueue s = [] ->
      fst (getEmailFromQueue t0 s) = Fetch (length (started s)) ForQueue /\
      length (started (snd (getEmailFromQueue t0 s))) =
      length (started s) + EMAIL_QUEUE_SIZE /\
      length (emailQueue (snd (getEmailFromQueue t0 s))) = EMAIL_QUEUE_SIZE - 1).
Proof.
  intros s.
  assert (length (emailQueue s) <= EMAIL_QUEUE_SIZE) as Hd.
  { apply depth_run. simpl. lia. }
  split; [done|]. split.
  { split; [rewrite maintain_length; lia | apply maintain_started]. }
  split.
  - intros t0 p rest Hq. by apply take_oldest.
  - intros t0 Hq. destruct (take_empty t0 s Hq) as (Hf & Hl & _).
    split; [done|]. split; [done|]. rewrite take_length, Hq. done.
Qed.

End Prefetch.

(** ** The registry of pending captcha answers *)

Module Registry.

(** *** A JavaScript [Map] with numbers as keys, in insertion order *)

Fixpoint Map_get {V} (k : nat) (m : list (nat * V)) : option V :=
  match m with
  | [] => None
  | (k', v) :: m => if decide (k' = k) then Some v else Map_get k m
  end.

(** [Map.prototype.set]: a key that is present keeps its place. *)
Fixpoint Map_set {V} (k : nat) (v : V) (m : list (nat * V)) : list (nat * V) :=
  match m with
  | [] => [(k, v)]
  | (k', v') :: m => if decide (k' = k) then (k, v) :: m
                     else (k', v') :: Map_set k v m
  end.

Definition Map_delete {V} (k : nat) (m : list (nat * V)) : list (nat * V) :=
  filter (fun e => fst e <> k) m.

(** [m.keys().next().value] *)
Definition Map_first_key {V} (m : list (nat * V)) : option nat :=
  fst <$> head m.

(** *** Messages of the clients *)

(** The parsed JSON of a message: [data.type], [data.threadId] ([None]
    when the field is absent) and, for a click, the object itself. *)
Inductive message :=
| skip_captcha (threadId : option threadId)
| captcha_click (threadId : option threadId) (data : solution)
| other_message.

(** [!threadId] is true for an absent id and for the number 0. *)
Definition falsy (threadId : option threadId) : bool :=
  match threadId with
  | None | Some 0 => true
  | Some (S _) => false
  end.

(** The [resolve] closure stored in [captchaResolvers] for promise [p]:
    [clearTimeout(timeout); resolve(data)]. *)
Definition resolver_resolve (p : promise) (data : solution) (s : server) : server :=
  set_resolved (resolved s ++ [(p, Some data)])
               (set_timers (delete p (timers s)) s).

(** [ws.on('message', ...)].  A skip without a thread id sets the flag
    under the key [undefined], which no task reads: the flags of the
    threads are unchanged. *)
Definition on_message (m : message) (s : server) : server :=
  match m with
  | skip_captcha threadId =>
      match threadId with
      | Some t =>
          let s1 := set_flags (<[t := true]> (skipCaptchaFlags s)) s in
          match Map_get t (captchaResolvers s1) with
          | Some resolver =>
              set_resolvers (Map_delete t (captchaResolvers s1))
                            (resolver_resolve resolver skipped_solution s1)
          | None => s1
          end
      | None => s
      end
  | captcha_click threadId data =>
      let threadId :=
        if falsy threadId && bool_decide (0 < length (captchaResolvers s))
        then Map_first_key (captchaResolvers s)
        else threadId in
      match threadId with
      | Some t =>
          if negb (falsy (Some t)) then
            match Map_get t (captchaResolvers s) with
            | Some resolver =>
                set_resolvers (Map_delete t (captchaResolvers s))
                              (resolver_resolve resolver data s)
            | None => s
            end
          else s
      | None => s
      end
  | other_message => s
  end.

(** [waitForCaptchaSolution(threadId, timeoutMs)], the promise executor:
    the timer is set and the resolver is stored.  The result names the
    promise the caller waits for. *)
Definition waitForCaptchaSolution (t : threadId) (s : server) : promise * server :=
  let p := promises s in
  (p, set_resolvers (Map_set t p (captchaResolvers s))
        (set_timers (<[p := t]> (timers s)) (set_promises (S p) s))).

(** The callback of [setTimeout] for promise [p]; a timer that was cleared
    or has fired does not run. *)
Definition on_timeout (p : promise) (s : server) : server :=
  match timers s !! p with
  | Some t =>
      set_resolved (resolved s ++ [(p, None)])
        (set_resolvers (Map_delete t (captchaResolvers s))
           (set_timers (delete p (timers s)) s))
  | None => s
  end.

(** What happens to the registry. *)
Inductive event :=
| Wait (t : threadId)
| Message (m : message)
| Timeout (p : promise).

Definition step (s : server) (e : event) : server :=
  match e with
  | Wait t => snd (waitForCaptchaSolution t s)
  | Message m => on_message m s
  | Timeout p => on_timeout p s
  end.

Definition run (es : list event) (s : server) : server := fold_left step es s.

(** The values promise [p] was resolved with. *)
Definition resolutions (p : promise) (s : server) : list (option solution) :=
  snd <$> filter (fun r => fst r = p) (resolved s).

(** *** Properties of the map *)

Lemma Map_get_Some {V} (k : nat) (v : V) (m : list (nat * V)) :
  Map_get k m = Some v -> (k, v) ∈ m.
Proof.
  induction m as [|[k' v'] m IH]; simpl; [done|].
  case_decide as Hk.
  - intros [= ->]. subst. left.
  - intros Hg. right. auto.
Qed.

Lemma elem_of_Map_delete {V} (k : nat) (e : nat * V) (m : list (nat * V)) :
  e ∈ Map_delete k m <-> e ∈ m /\ fst e <> k.
Proof. unfold Map_delete. rewrite list_elem_of_filter. tauto. Qed.

Lemma Map_get_delete {V} (k : nat) (m : list (nat * V)) :
  Map_get k (Map_delete k m) = None.
Proof.
  induction m as [|[k' v'] m IH]; [done|].
  unfold Map_delete in *. rewrite filter_cons. simpl.
  case_decide as Hk; [|done]. simpl. by rewrite decide_False.
Qed.

Lemma Map_get_delete_ne {V} (k k' : nat) (m : list (nat * V)) :
  k' <> k -> Map_get k' (Map_delete k m) = Map_get k' m.
Proof.
  intros Hne. induction m as [|[k0 v0] m IH]; [done|].
  unfold Map_delete in *. rewrite filter_cons. simpl.
  case_decide as Hk; simpl.
  - by rewrite IH.
  - rewrite decide_False by congruence. done.
Qed.

Lemma Map_delete_keys {V} (k : nat) (m : list (nat * V)) :
  NoDup (fst <$> m) -> NoDup (fst <$> Map_delete k m).
Proof.
  unfold Map_delete. induction m as [|e m IH]; [done|].
  rewrite fmap_cons, NoDup_cons. intros [Hnot Hnd]. rewrite filter_cons.
  case_decide; [|auto]. rewrite fmap_cons. apply NoDup_cons. split; [|auto].
  intros (e' & He & Hin)%list_elem_of_fmap. apply Hnot.
  apply list_elem_of_fmap. exists e'. split; [done|].
  apply list_elem_of_filter in Hin. tauto.
Qed.

Lemma elem_of_Map_set {V} (k : nat) (v : V) (e : nat * V) (m : list (nat * V)) :
  NoDup (fst <$> m) ->
  e ∈ Map_set k v m -> e = (k, v) \/ (e ∈ m /\ fst e <> k).
Proof.
  induction m as [|[k' v'] m IH]; simpl.
  - intros _ ->%list_elem_of_singleton. by left.
  - rewrite NoDup_cons. intros [Hnot Hnd]. case_decide as Hk.
    + intros [->|Hin]%elem_of_cons; [by left|].
      right. split; [by right|]. intros He. apply Hnot. subst k'.
      apply list_elem_of_fmap. by exists e.
    + intros [->|Hin]%elem_of_cons.
      * right. split; [left|done].
      * destruct (IH Hnd Hin) as [->|[Hm He]]; [by left|].
        right. split; [by right|done].
Qed.

Lemma Map_set_keys {V} (k : nat) (v : V) (m : list (nat * V)) :
  NoDup (fst <$> m) -> NoDup (fst <$> Map_set k v m).
Proof.
  induction m as [|[k' v'] m IH]; simpl.
  - intros _. apply NoDup_singleton.
  - rewrite NoDup_cons. intros [Hnot Hnd]. case_decide as Hk.
    + subst k'. rewrite fmap_cons. simpl. by apply NoDup_cons.
    + rewrite fmap_cons. simpl. apply NoDup_cons. split; [|auto].
      intros (e & He & Hin)%list_elem_of_fmap.
      destruct (elem_of_Map_set k v e m Hnd Hin) as [->|[Hm _]]; [done|].
      apply Hnot. apply list_elem_of_fmap. by exists e.
Qed.

Lemma Map_get_set {V} (k : nat) (v : V) (m : list (nat * V)) :
  Map_get k (Map_set k v m) = Some v.
Proof.
  induction m as [|[k' v'] m IH]; simpl; [by rewrite decide_True|].
  case_decide as Hk; simpl; [by rewrite decide_True|].
  by rewrite decide_False.
Qed.

(** *** The invariant of the registry *)

(** The keys of the registry are distinct; a stored resolver belongs to a
    promise whose timer is pending under the same thread; a promise whose
    timer is pending has not been resolved; no promise was resolved twice. *)
Record coherent (s : server) : Prop := {
  coh_keys : NoDup (fst <$> captchaResolvers s);
  coh_armed : forall t p, (t, p) ∈ captchaResolvers s -> timers s !! p = Some t;
  coh_pending : forall p t, timers s !! p = Some t -> p ∉ (fst <$> resolved s);
  coh_old : forall p, p ∈ (fst <$> resolved s) \/ is_Some (timers s !! p) ->
                      p < promises s;
  coh_once : NoDup (fst <$> resolved s)
}.

(** The three ways a promise is resolved have the same shape: the timer of
    [p] goes, the resolver of the thread of [p] goes, [p] gets a value. *)
Definition settle (p : promise) (t : threadId) (v : option solution)
    (s : server) : server :=
  set_resolved (resolved s ++ [(p, v)])
    (set_resolvers (Map_delete t (captchaResolvers s))
       (set_timers (delete p (timers s)) s)).

Lemma coherent_settle (p : promise) (t : threadId) (v : option solution)
    (s : server) :
  timers s !! p = Some t -> coherent s -> coherent (settle p t v s).
Proof.
  intros Hp [Hk Ha Hpe Ho Hn]. split; simpl.
  - by apply Map_delete_keys.
  - intros t' p' [Hin Hne]%elem_of_Map_delete. simpl in Hne.
    specialize (Ha t' p' Hin).
    rewrite lookup_delete_ne; [done|]. intros <-. congruence.
  - intros q t' Hq. apply lookup_delete_Some in Hq as [Hne Hq].
    rewrite fmap_app. simpl. intros [Hin|Hin%list_elem_of_singleton]%elem_of_app.
    + by apply (Hpe q t').
    + done.
  - intros q [Hin|Hq]; apply Ho.
    + rewrite fmap_app in Hin. simpl in Hin.
      apply elem_of_app in Hin as [Hin|Hin%list_elem_of_singleton]; [by left|].
      subst q. right. by rewrite Hp.
    + right. destruct Hq as [t' Hq]. apply lookup_delete_Some in Hq as [_ Hq].
      by rewrite Hq.
  - rewrite fmap_app. simpl. apply NoDup_app. split; [done|].
    split; [|apply NoDup_singleton].
    intros q Hq ->%list_elem_of_singleton. by apply (Hpe p t).
Qed.

Lemma coherent_flags (f : gmap threadId bool) (s : server) :
  coherent s -> coherent (set_flags f s).
Proof. intros [Hk Ha Hpe Ho Hn]. by split. Qed.

Lemma coherent_wait (t : threadId) (s : server) :
  coherent s -> coherent (snd (waitForCaptchaSolution t s)).
Proof.
  intros [Hk Ha Hpe Ho Hn]. split; simpl.
  - by apply Map_set_keys.
  - intros t' p' Hin.
    destruct (elem_of_Map_set _ _ _ _ Hk Hin) as [[= -> ->]|[Hm Hne]].
    + by rewrite lookup_insert_eq.
    + specialize (Ha t' p' Hm). rewrite lookup_insert_ne; [done|].
      intros <-. assert (promises s < promises s); [|lia].
      apply Ho. right. by rewrite Ha.
  - intros q t' Hq. apply lookup_insert_Some in Hq as [[<- <-]|[Hne Hq]].
    + intros Hin. assert (promises s < promises s); [|lia]. apply Ho. by left.
    + by apply (Hpe q t').
  - intros q [Hin|Hq].
    + specialize (Ho q (or_introl Hin)). lia.
    + destruct Hq as [t' Hq].
      apply lookup_insert_Some in Hq as [[<- <-]|[Hne Hq]]; [lia|].
      assert (q < promises s); [|lia]. apply Ho. right. by rewrite Hq.
  - done.
Qed.

Lemma on_message_settle (m : message) (s : server) :
  on_message m s = s \/
  (exists t, m = skip_captcha (Some t) /\
             Map_get t (captchaResolvers s) = None /\
             on_message m s = set_flags (<[t := true]> (skipCaptchaFlags s)) s) \/
  (exists t p, m = skip_captcha (Some t) /\
               Map_get t (captchaResolvers s) = Some p /\
               on_message m s =
               settle p t (Some skipped_solution)
                      (set_flags (<[t := true]> (skipCaptchaFlags s)) s)) \/
  (exists t p i d, m = captcha_click i d /\ 0 < t /\
                   Map_get t (captchaResolvers s) = Some p /\
                   on_message m s = settle p t (Some d) s).
Proof.
  destruct m as [[t|]|i d|]; simpl; [|by left| |by left].
  - destruct (Map_get t (captchaResolvers s)) as [p|] eqn:Hg.
    + right. right. left. by exists t, p.
    + right. left. by exists t.
  - destruct (if falsy i && bool_decide (0 < length (captchaResolvers s))
              then Map_first_key (captchaResolvers s) else i) as [t|];
      [|by left].
    destruct t as [|t]; [by left|]. simpl.
    destruct (Map_get (S t) (captchaResolvers s)) as [p|] eqn:Hg; [|by left].
    right. right. right. exists (S t), p, i, d. repeat split; [lia|done].
Qed.

Lemma coherent_message (m : message) (s : server) :
  coherent s -> coherent (on_message m s).
Proof.
  intros Hc.
  destruct (on_message_settle m s)
    as [->|[(t & _ & _ & ->)|[(t & p & _ & Hg & ->)|(t & p & i & d & _ & _ & Hg & ->)]]].
  - done.
  - by apply coherent_flags.
  - apply coherent_settle; [|by apply coherent_flags]. simpl.
    apply Hc. by apply Map_get_Some.
  - apply coherent_settle; [|done]. apply Hc. by apply Map_get_Some.
Qed.

Lemma coherent_timeout (p : promise) (s : server) :
  coherent s -> coherent (on_timeout p s).
Proof.
  intros Hc. unfold on_timeout. destruct (timers s !! p) as [t|] eqn:Ht; [|done].
  by apply (coherent_settle p t None s).
Qed.

Lemma coherent_initial : coherent initial_server.
Proof.
  split; simpl.
  - constructor.
  - intros t p Hin. by apply elem_of_nil in Hin.
  - intros p t Ht. by rewrite lookup_empty in Ht.
  - intros p [Hin|[t Ht]]; [by apply elem_of_nil in Hin|].
    by rewrite lookup_empty in Ht.
  - constructor.
Qed.

Lemma coherent_run (es : list event) (s : server) :
  coherent s -> coherent (run es s).
Proof.
  revert s. induction es as [|e es IH]; intros s Hc; simpl; [done|].
  apply IH. destruct e as [t|m|p]; simpl.
  - by apply coherent_wait.
  - by apply coherent_message.
  - by apply coherent_timeout.
Qed.

Lemma resolutions_none (p : promise) (s : server) :
  p ∉ (fst <$> resolved s) -> resolutions p s = [].
Proof.
  unfold resolutions. induction (resolved s) as [|[q v] l IH]; [done|].
  rewrite fmap_cons, not_elem_of_cons. intros [Hne Hnot].
  rewrite filter_cons. simpl in *. rewrite decide_False by done. auto.
Qed.

Lemma resolutions_once (p : promise) (s : server) :
  NoDup (fst <$> resolved s) -> length (resolutions p s) <= 1.
Proof.
  unfold resolutions. rewrite length_fmap.
  induction (resolved s) as [|[q v] l IH]; simpl; [lia|].
  rewrite NoDup_cons. intros [Hnot Hnd]. rewrite filter_cons. simpl.
  case_decide as Hq; [|auto]. subst q. simpl.
  pose proof (resolutions_none p (set_resolved l initial_server) Hnot) as Hn.
  unfold resolutions in Hn. simpl in Hn. apply fmap_nil_inv in Hn.
  rewrite Hn. simpl. lia.
Qed.

Lemma click_registered (t : threadId) (p : promise) (d : solution) (s : server) :
  0 < t -> Map_get t (captchaResolvers s) = Some p ->
  on_message (captcha_click (Some t) d) s = settle p t (Some d) s.
Proof.
  intros Ht Hg. destruct t as [|t]; [lia|]. simpl. by rewrite Hg.
Qed.

Lemma click_absent (t : threadId) (d : solution) (s : server) :
  0 < t -> Map_get t (captchaResolvers s) = None ->
  on_message (captcha_click (Some t) d) s = s.
Proof.
  intros Ht Hg. destruct t as [|t]; [lia|]. simpl. by rewrite Hg.
Qed.


(** Thread 1 waits twice in a row, so that its first promise loses its
    resolver; an answer for thread 1 then reaches the second promise, a
    late answer and a late skip find no resolver, and the first promise is
    resolved by its timeout: each promise once. *)
Example registry_example :
  let s := run [Wait 1; Wait 1;
                Message (captcha_click (Some 1) (Solution (Some 60%Z) (Some 190%Z) (Some 1%Z) false));
                Message (captcha_click (Some 1) (Solution (Some 60%Z) (Some 190%Z) (Some 1%Z) false));
                Message (skip_captcha (Some 1));
                Timeout 0; Timeout 1] initial_server in
  resolved s =
  [(1, Some (Solution (Some 60%Z) (Some 190%Z) (Some 1%Z) false)); (0, None)] /\
  captchaResolvers s = [].
Proof. vm_compute. split; reflexivity. Qed.


End Registry.

(** ** The captcha queue of the front end *)

Module Frontend.

(** [captchaItem] of [ws.onmessage] *)
Record captchaItem := Item {
  image : string;
  threadId : nat;
  timestamp : nat
}.

(** The [captcha] message of the server; [msg_timestamp] is [None] when
    the field is absent. *)
Record captcha_message := Captcha_message {
  msg_image : string;
  msg_threadId : nat;
  msg_timestamp : option nat
}.

(** The state of [AccountGeneratorApp] that the captcha queue uses. *)
Record state := State {
  captchaQueue : list captchaItem;         (* useState([]) *)
  currentCaptcha : option captchaItem;     (* useState(null) *)
  currentCaptchaRef : option captchaItem   (* useRef(null) *)
}.

Definition initial : state := State [] None None.

(** [data.timestamp || Date.now()] *)
Definition timestamp_or_now (t : option nat) (now : nat) : nat :=
  match t with
  | Some (S n) => S n
  | Some 0 | None => now
  end.

(** The [captcha] branch of [ws.onmessage]. *)
Definition onmessage_captcha (data : captcha_message) (now : nat) (s : state) : state :=
  let captchaItem :=
    Item (msg_image data) (msg_threadId data)
         (timestamp_or_now (msg_timestamp data) now) in
  match currentCaptchaRef s with
  | Some activeCaptcha =>
      if decide (threadId activeCaptcha = msg_threadId data) then
        State (captchaQueue s) (Some captchaItem) (currentCaptchaRef s)
      else
        State (filter (fun c => threadId c <> msg_threadId data) (captchaQueue s)
                 ++ [captchaItem])
              (currentCaptcha s) (currentCaptchaRef s)
  | None =>
      State (filter (fun c => threadId c <> msg_threadId data) (captchaQueue s)
               ++ [captchaItem])
            (currentCaptcha s) (currentCaptchaRef s)
  end.

(** The effect [currentCaptchaRef.current = currentCaptcha]. *)
Definition sync_ref (s : state) : state :=
  State (captchaQueue s) (currentCaptcha s) (currentCaptcha s).

(** The effect "Process captcha queue". *)
Definition process_queue (s : state) : state :=
  match currentCaptcha s, captchaQueue s with
  | None, next :: rest => State rest (Some next) (currentCaptchaRef s)
  | _, _ => s
  end.

(** [handleCaptchaSelect] and [handleSkipCaptcha] have the same effect on
    the state; [open] tells whether the socket is open. *)
Definition handleCaptchaSelect (open : bool) (s : state) : state :=
  match currentCaptcha s with
  | None => s
  | Some _ =>
      if open then State (captchaQueue s) None (currentCaptchaRef s) else s
  end.

Definition handleSkipCaptcha (open : bool) (s : state) : state :=
  match currentCaptcha s with
  | None => s
  | Some _ =>
      if open then State (captchaQueue s) None (currentCaptchaRef s) else s
  end.

Inductive event :=
| Arrives (data : captcha_message) (now : nat)
| SyncRef
| ProcessQueue
| Select (open : bool)
| Skip (open : bool).

Definition step (s : state) (e : event) : state :=
  match e with
  | Arrives data now => onmessage_captcha data now s
  | SyncRef => sync_ref s
  | ProcessQueue => process_queue s
  | Select open => handleCaptchaSelect open s
  | Skip open => handleSkipCaptcha open s
  end.

Definition run (es : list event) (s : state) : state := fold_left step es s.

(** The queued challenges of thread [t]. *)
Definition queued (t : nat) (s : state) : list captchaItem :=
  filter (fun c => threadId c = t) (captchaQueue s).

(** *** Properties *)

Lemma filter_other_keys (t : nat) (q : list captchaItem) :
  NoDup (threadId <$> q) ->
  NoDup (threadId <$> filter (fun c => threadId c <> t) q) /\
  t ∉ (threadId <$> filter (fun c => threadId c <> t) q).
Proof.
  intros Hnd. split.
  - induction q as [|c q IH]; [done|].
    rewrite fmap_cons, NoDup_cons in Hnd. destruct Hnd as [Hnot Hnd].
    rewrite filter_cons. case_decide; [|auto].
    rewrite fmap_cons, NoDup_cons. split; [|auto].
    intros (c' & Hc' & Hin)%list_elem_of_fmap. apply Hnot.
    apply list_elem_of_fmap. exists c'. split; [done|].
    apply list_elem_of_filter in Hin. tauto.
  - intros (c' & Hc' & Hin)%list_elem_of_fmap.
    apply list_elem_of_filter in Hin. destruct Hin as [Hne _]. by apply Hne.
Qed.

Lemma arrival_keys (data : captcha_message) (now : nat) (s : state) :
  NoDup (threadId <$> captchaQueue s) ->
  NoDup (threadId <$> captchaQueue (onmessage_captcha data now s)).
Proof.
  intros Hnd.
  assert (NoDup (threadId <$>
            filter (fun c => threadId c <> msg_threadId data) (captchaQueue s)
            ++ [Item (msg_image data) (msg_threadId data)
                     (timestamp_or_now (msg_timestamp data) now)])) as Happ.
  { destruct (filter_other_keys (msg_threadId data) _ Hnd) as [Hf Hnot].
    rewrite fmap_app. apply NoDup_app. split; [done|].
    split; [|apply NoDup_singleton].
    intros t Ht Hin%list_elem_of_singleton. simpl in Hin. by subst t. }
  unfold onmessage_captcha. destruct (currentCaptchaRef s) as [a|]; [|done].
  by case_decide.
Qed.

Lemma step_keys (e : event) (s : state) :
  NoDup (threadId <$> captchaQueue s) ->
  NoDup (threadId <$> captchaQueue (step s e)).
Proof.
  intros Hnd. destruct e as [data now| | |open|open]; simpl.
  - by apply arrival_keys.
  - done.
  - unfold process_queue. destruct (currentCaptcha s); [done|].
    destruct (captchaQueue s) as [|next rest] eqn:Hq; [by rewrite Hq|]. simpl.
    rewrite fmap_cons, NoDup_cons in Hnd. tauto.
  - unfold handleCaptchaSelect. destruct (currentCaptcha s); [|done].
    by destruct open.
  - unfold handleSkipCaptcha. destruct (currentCaptcha s); [|done].
    by destruct open.
Qed.

Lemma run_keys (es : list event) (s : state) :
  NoDup (threadId <$> captchaQueue s) ->
  NoDup (threadId <$> captchaQueue (run es s)).
Proof.
  revert s. induction es as [|e es IH]; intros s Hnd; simpl; [done|].
  by apply IH, step_keys.
Qed.

Lemma queued_once (t : nat) (s : state) :
  NoDup (threadId <$> captchaQueue s) -> length (queued t s) <= 1.
Proof.
  unfold queued. induction (captchaQueue s) as [|c q IH]; simpl; [lia|].
  rewrite NoDup_cons. intros [Hnot Hnd]. rewrite filter_cons.
  case_decide as Hc; [|auto]. simpl.
  assert (filter (fun c0 => threadId c0 = t) q = []) as ->; [|simpl; lia].
  clear IH Hnd. induction q as [|c' q IH]; [done|].
  rewrite fmap_cons, not_elem_of_cons in Hnot. destruct Hnot as [Hne Hnot].
  rewrite filter_cons. rewrite decide_False by congruence. auto.
Qed.

(** The challenge of thread 1 has arrived and was put on display by the
    effect "Process captcha queue"; the effect that copies
    [currentCaptcha] into [currentCaptchaRef] has not run yet. *)
Definition on_display_unsynced : list event :=
  [Arrives (Captcha_message "data:image/png;base64,AAAA" 1 None) 5;
   ProcessQueue].

(** The user has answered the challenge of thread 1: nothing is on
    display, and the ref still points to the challenge answered. *)
Definition answered_unsynced : list event :=
  [Arrives (Captcha_message "data:image/png;base64,AAAA" 1 None) 5;
   ProcessQueue; SyncRef; Select true].



(** The challenge of thread 1 is on display when a new one arrives for
    thread 1, then one for thread 2. *)
Definition first_challenge : list event :=
  [Arrives (Captcha_message "data:image/png;base64,AAAA" 1 None) 5;
   ProcessQueue; SyncRef].


End Frontend.

(** ** Adaptive batch sizing *)

Module Sizing.

(** JavaScript numbers are binary64 floating-point numbers: the success
    rate is a [float]; thread counts are integers of small size and are
    kept in [Z].  The literal [0.35] denotes the nearest binary64 number,
    written here in hexadecimal; [0.75] is exact. *)
Definition high_rate : float := 0.75%float.
Definition low_rate : float := 0x1.6666666666666p-2%float.

(** [calculateOptimalBatchSize(successRate, currentThreads, maxThreads)] *)
Definition calculateOptimalBatchSize (successRate : float)
    (currentThreads maxThreads : Z) : Z :=
  if (high_rate <? successRate)%float then
    Z.min (currentThreads + 1) maxThreads
  else if (successRate <? low_rate)%float then
    Z.max (currentThreads - 1) 2
  else currentThreads.

(** The rates of the examples: [0.8], [0.2] and [0.5] as JavaScript reads
    them. *)
Definition rate_0_8 : float := 0x1.999999999999ap-1%float.
Definition rate_0_2 : float := 0x1.999999999999ap-3%float.
Definition rate_0_5 : float := 0.5%float.

(** [a / b] on two integers that binary64 represents exactly. *)
Definition ratio (a b : Z) : float :=
  (PrimFloat.of_uint63 (Uint63.of_Z a) / PrimFloat.of_uint63 (Uint63.of_Z b))%float.

(** *** Properties *)

Lemma low_rate_spec :
  Prim2SF low_rate = S754_finite false 6305039478318694 (-54).
Proof. vm_compute. reflexivity. Qed.

Lemma high_rate_spec :
  Prim2SF high_rate = S754_finite false 6755399441055744 (-53).
Proof. vm_compute. reflexivity. Qed.

(** A rate below [0.35] is not above [0.75]. *)
Lemma below_not_above (x : float) :
  (x <? low_rate)%float = true -> (high_rate <? x)%float = false.
Proof.
  rewrite !ltb_spec, low_rate_spec, high_rate_spec.
  destruct (Prim2SF x) as [s|s| |s m e]; unfold SFltb, SFcompare.
  - destruct s; intros; reflexivity.
  - destruct s; intros H; [reflexivity|discriminate H].
  - intros H; discriminate H.
  - destruct s; [reflexivity|].
    destruct (e ?= -54)%Z eqn:He; destruct (-53 ?= e)%Z eqn:He'; intros H;
      try reflexivity; try discriminate H.
    + apply Z.compare_eq in He. subst. discriminate He'.
    + apply Z.compare_eq in He. subst. discriminate He'.
    + apply Z.compare_eq in He'. subst. discriminate He.
    + rewrite Z.compare_lt_iff in He, He'. lia.
Qed.

(** C4.  [calculateOptimalBatchSize] returns [min(previous + 1, max)] for a
    success rate above 0.75, [max(previous - 1, 2)] for a rate below 0.35,
    and the previous value otherwise; for previous = 3 and max = 6 it
    returns 4 at rate 0.8, 2 at rate 0.2 and 3 at rate 0.5. *)
Theorem batch_size_update (successRate : float) (currentThreads maxThreads : Z) :
  ((high_rate <? successRate)%float = true ->
   calculateOptimalBatchSize successRate currentThreads maxThreads
   = Z.min (currentThreads + 1) maxThreads) /\
  ((successRate <? low_rate)%float = true ->
   calculateOptimalBatchSize successRate currentThreads maxThreads
   = Z.max (currentThreads - 1) 2) /\
  ((high_rate <? successRate)%float = false ->
   (successRate <? low_rate)%float = false ->
   calculateOptimalBatchSize successRate currentThreads maxThreads
   = currentThreads) /\
  calculateOptimalBatchSize rate_0_8 3 6 = 4%Z /\
  calculateOptimalBatchSize rate_0_2 3 6 = 2%Z /\
  calculateOptimalBatchSize rate_0_5 3 6 = 3%Z.
Proof.
  unfold calculateOptimalBatchSize. split; [|split; [|split]].
  - intros ->. reflexivity.
  - intros Hlow. rewrite (below_not_above _ Hlow), Hlow. reflexivity.
  - intros -> ->. reflexivity.
  - repeat split; vm_compute; reflexivity.
Qed.

End Sizing.

(** ** One task: the captcha stage and the final acknowledgment *)

Module Task.

(** *** The page as the checks of [solveCaptchaManually] see it *)

(** [#tcaptcha_iframe_dy]: its computed style and its box. *)
Record iframe := Iframe {
  display_none : bool;        (* style.display === 'none' *)
  visibility_hidden : bool;   (* style.visibility === 'hidden' *)
  offsetParent_null : bool;   (* iframe.offsetParent === null *)
  rect_empty : bool           (* rect.width === 0 || rect.height === 0 *)
}.

Record document := Document {
  tcaptcha_iframe : option iframe;   (* querySelector('#tcaptcha_iframe_dy') *)
  bodyText : string;                 (* document.body.innerText || '' *)
  span_texts : list string;          (* innerText.trim() of 'button span, span' *)
  code_input_shown : bool            (* the verification code input has an offsetParent *)
}.

(** [hay.includes(needle)] *)
Definition includes (hay needle : string) : bool :=
  match String.index 0 needle hay with
  | Some _ => true
  | None => false
  end.

Definition is_digit (c : ascii) : bool :=
  (48 <=? nat_of_ascii c) && (nat_of_ascii c <=? 57).

(** [/^\d+s$/.test(text)]: [digits] tells that a digit was read. *)
Fixpoint countdown_text (digits : bool) (text : string) : bool :=
  match text with
  | EmptyString => false
  | String c rest =>
      if is_digit c then countdown_text true rest
      else digits && Ascii.eqb c "s" && String.eqb rest EmptyString
  end.

(** The loop over the spans that looks for a countdown such as [58s]. *)
Definition countdown (d : document) : bool :=
  existsb (countdown_text false) (span_texts d).

(** The text that the page shows once the code was sent, as the source
    file spells it. *)
Definition code_sent_zh : string := "È™åËØÅÁ†ÅÂ∑≤ÂèëÈÄÅ".

(** [earlySuccess], at the start of a round after the first *)
Definition earlySuccess (d : document) : bool :=
  if includes (bodyText d) "Verification code obtained"
     || includes (bodyText d) code_sent_zh
     || includes (bodyText d) "Code sent"
     || includes (bodyText d) "successfully"
  then true
  else countdown d.

(** [isVisible], and [captchaStillPresent], which is the same test *)
Definition isVisible (d : document) : bool :=
  match tcaptcha_iframe d with
  | None => false
  | Some f =>
      negb (display_none f) && negb (visibility_hidden f)
      && negb (offsetParent_null f)
  end.

Definition captchaStillPresent : document -> bool := isVisible.

(** [quickSuccessCheck] *)
Definition quickSuccessCheck (d : document) : bool :=
  if countdown d then true
  else match tcaptcha_iframe d with
       | None => true
       | Some f => display_none f || visibility_hidden f
       end.

Inductive method :=
| iframe_removed | iframe_hidden | success_message | countdown_detected
| zero_dimensions.

(** [captchaStatus]: [Some m] is [{solved: true, method: m}], [None] is
    [{solved: false, newCaptcha: true}]. *)
Definition captchaStatus (d : document) : option method :=
  match tcaptcha_iframe d with
  | None => Some iframe_removed
  | Some f =>
      if display_none f || visibility_hidden f || offsetParent_null f
      then Some iframe_hidden
      else if includes (bodyText d) "Verification code obtained successfully"
              || includes (bodyText d) code_sent_zh
              || includes (bodyText d) "Code sent"
              || includes (bodyText d) "successfully"
      then Some success_message
      else if countdown d then Some countdown_detected
      else if rect_empty f then Some zero_dimensions
      else None
  end.

(** [successCheck], between two rounds *)
Definition successCheck (d : document) : bool :=
  includes (bodyText d) "Verification code"
  || includes (bodyText d) "Code sent"
  || includes (bodyText d) "successfully".

(** [finalCheck], after the last round when it was not solved *)
Definition finalCheck (d : document) : bool :=
  match tcaptcha_iframe d with
  | None => true
  | Some f =>
      if display_none f || visibility_hidden f then true
      else if successCheck d then true
      else countdown d
  end.

(** [completionCheck], after a solved round: its [done] field *)
Definition completionCheck (d : document) : bool :=
  if successCheck d then true
  else if countdown d then true
  else match tcaptcha_iframe d with
       | None => true
       | Some f =>
           display_none f || visibility_hidden f || offsetParent_null f
       end.

(** [finalSuccess], after all rounds *)
Definition finalSuccess (d : document) : bool :=
  if countdown d then true
  else match tcaptcha_iframe d with
       | None => true
       | Some f =>
           if display_none f || visibility_hidden f then true
           else code_input_shown d
       end.

(** [const gridCoordinates] *)
Definition gridCoordinates (position : Z) : option (Z * Z) :=
  match position with
  | 1 => Some (60, 190) | 2 => Some (180, 190) | 3 => Some (300, 190)
  | 4 => Some (60, 290) | 5 => Some (180, 290) | 6 => Some (300, 290)
  | _ => None
  end%Z.

(** *** The world of one task *)

(** What the task meets while it runs.  Each [await] of the task on the
    browser, on the solver or on a timer is one tick of [clock]; the
    environment tells, for each tick, what the call made at that tick
    finds and which client messages the server handles while the task is
    suspended there. *)
Record env := Env {
  useAiSolver : bool;                        (* let useAiSolver *)
  dom : nat -> document;                     (* the page at that tick *)
  rejects : nat -> bool;                     (* the browser call throws *)
  contentFrame : nat -> bool;                (* contentFrame() is not null *)
  screenshot : nat -> option string;         (* element.screenshot(), or a failure *)
  gemini : nat -> option Z;                  (* parseInt of the model's reply *)
  get_code_clicked : nat -> bool;            (* waitForAndClickGetCodeButton *)
  verification_code : nat -> option string;  (* await inboxPromise *)
  dialogs : nat -> list string;              (* messages of the alerts shown *)
  incoming : nat -> list Registry.message    (* client messages handled then *)
}.

Record world := World {
  srv : server;
  clock : nat;
  clicks : list (option Z * option Z);       (* clicks made in the captcha frame *)
  shown : list (threadId * string)           (* sendCaptchaToClients calls *)
}.

(** The result of a stretch of code: a value, or an exception. *)
Inductive outcome (A : Type) :=
| Value (a : A)
| Thrown (message : string).
Arguments Value {A} a.
Arguments Thrown {A} message.

Definition M (A : Type) : Type := env -> world -> outcome A * world.

Definition ret {A} (a : A) : M A := fun _ w => (Value a, w).

Definition throw {A} (message : string) : M A := fun _ w => (Thrown message, w).

Definition bind {A B} (m : M A) (k : A -> M B) : M B :=
  fun e w =>
    match m e w with
    | (Value a, w1) => k a e w1
    | (Thrown message, w1) => (Thrown message, w1)
    end.

(** [try { m } catch (e) { handler }] *)
Definition try_catch {A} (m : M A) (handler : string -> M A) : M A :=
  fun e w =>
    match m e w with
    | (Value a, w1) => (Value a, w1)
    | (Thrown message, w1) => handler message e w1
    end.

(** [try { m } finally { cleanup }], for a [cleanup] that does not throw *)
Definition try_finally {A} (m : M A) (cleanup : server -> server) : M A :=
  fun e w =>
    let '(r, w1) := m e w in
    (r, World (cleanup (srv w1)) (clock w1) (clicks w1) (shown w1)).

Declare Scope task_scope.
Delimit Scope task_scope with task.
Bind Scope task_scope with M.
Notation "x <- m ;; k" := (bind m (fun x => k))
  (at level 100, m at next level, right associativity) : task_scope.
Notation "m ;; k" := (bind m (fun _ => k))
  (at level 100, right associativity) : task_scope.
Local Open Scope task_scope.

(** The task is suspended: the server handles the client messages of this
    tick, then the task goes on. *)
Definition advance (e : env) (w : world) : world :=
  World (fold_left (fun s m => Registry.on_message m s) (incoming e (clock w))
                   (srv w))
        (S (clock w)) (clicks w) (shown w).

(** A call on the browser that returns what [answer] finds at this tick,
    or throws. *)
Definition browser {A} (answer : env -> nat -> A) : M A :=
  fun e w =>
    if rejects e (clock w) then (Thrown "browser", advance e w)
    else (Value (answer e (clock w)), advance e w).

(** [page.evaluate(check)] *)
Definition evaluate {A} (check : document -> A) : M A :=
  browser (fun e t => check (dom e t)).

(** [page.$('#tcaptcha_iframe_dy')]: whether a handle is returned *)
Definition query_iframe : M bool :=
  evaluate (fun d => bool_decide (is_Some (tcaptcha_iframe d))).

(** [wait(ms)] *)
Definition wait (ms : nat) : M unit := fun e w => (Value tt, advance e w).

(** [takeCaptchaScreenshot(frame, threadId, attemptNum, sendToClients)]:
    its own [catch] turns every failure into [null]. *)
Definition takeCaptchaScreenshot (t : threadId) (sendToClients : bool)
  : M (option string) :=
  fun e w =>
    let w1 := advance e w in
    match screenshot e (clock w) with
    | Some image =>
        (Value (Some image),
         if sendToClients
         then World (srv w1) (clock w1) (clicks w1) (shown w1 ++ [(t, image)])
         else w1)
    | None => (Value None, w1)
    end.

(** [solveWithGemini(base64Image, threadId)]: a position from 1 to 6, or
    [null]. *)
Definition solveWithGemini : M (option Z) :=
  fun e w =>
    if negb (useAiSolver e) then (Value None, w)
    else
      (Value match gemini e (clock w) with
             | Some position =>
                 if (1 <=? position)%Z && (position <=? 6)%Z
                 then Some position else None
             | None => None
             end,
       advance e w).

(** [waitForCaptchaSolution(threadId, 120000)] and the [await] on it: the
    resolver is stored, the messages of this tick are handled, and the
    task wakes up with the value its promise was resolved with, which is
    [null] when the timer fires first. *)
Definition await_solution (t : threadId) : M (option solution) :=
  fun e w =>
    let '(p, s1) := Registry.waitForCaptchaSolution t (srv w) in
    let w1 := advance e (World s1 (clock w) (clicks w) (shown w)) in
    match Registry.resolutions p (srv w1) with
    | v :: _ => (Value v, w1)
    | [] => (Value None,
             World (Registry.on_timeout p (srv w1)) (clock w1) (clicks w1)
                   (shown w1))
    end.

(** Reads and writes of the global variables. *)
Definition get_skip_flag (t : threadId) : M bool :=
  fun _ w => (Value (default false (skipCaptchaFlags (srv w) !! t)), w).

Definition delete_skip_flag (t : threadId) : M unit :=
  fun _ w =>
    (Value tt,
     World (set_flags (delete t (skipCaptchaFlags (srv w))) (srv w))
           (clock w) (clicks w) (shown w)).

Definition ai_mode : M bool := fun e w => (Value (useAiSolver e), w).

(** [frame.evaluate] with the click at [(x, y)] *)
Definition click_at (x y : option Z) : M unit :=
  fun e w =>
    browser (fun _ _ => tt) e
            (World (srv w) (clock w) (clicks w ++ [(x, y)]) (shown w)).

(** *** [solveCaptchaManually] *)

(** A screenshot as a condition ([if (screenshot)]): [null] and the empty
    string are falsy. *)
Definition truthy (screenshot : option string) : bool :=
  match screenshot with
  | Some (String _ _) => true
  | Some EmptyString | None => false
  end.

(** What [solveCaptchaManually] returns: [true], [false] or ['skipped']. *)
Inductive captcha_result := Solved | Unsolved | SkippedByUser.

(** How the [try] block of one click ends: with a [return], with
    [roundSolved = true; break], or at its last line, with the screenshot
    for the next attempt. *)
Inductive try_exit :=
| TryReturns (r : captcha_result)
| TryBreaks
| TryFalls (screenshot : option string).

(** How the [while] loop of one round ends: with a [return], or with the
    value of [roundSolved]. *)
Inductive loop_exit :=
| Returns (r : captcha_result)
| Ends (roundSolved : bool).

Inductive round_exit :=
| RoundReturns (r : captcha_result)
| NextRound.

Definition maxCaptchaRounds : nat := 2.

(** The [try] block after [clickAttempts++]: the click, the OK button and
    the checks.  [manual] is [source === 'manual']. *)
Definition click_and_check (t : threadId) (manual : bool)
    (clickAttempts maxClickAttempts : nat) (screenshot : option string)
    (x y : option Z) : M try_exit :=
  click_at x y ;;
  wait 500 ;;
  browser (fun _ _ => tt) ;;
  wait 1500 ;;
  quick <- evaluate quickSuccessCheck ;;
  if quick then ret (TryReturns Solved) else
  status <- evaluate captchaStatus ;;
  match status with
  | Some success_message | Some countdown_detected => ret (TryReturns Solved)
  | Some _ => ret TryBreaks
  | None =>
      if clickAttempts <? maxClickAttempts then
        wait 800 ;;
        present <- evaluate captchaStillPresent ;;
        if negb present then ret (TryReturns Solved) else
        currentIframe <- query_iframe ;;
        if negb currentIframe then ret (TryReturns Solved) else
        currentFrame <- browser contentFrame ;;
        if currentFrame then
          ai <- ai_mode ;;
          newScreenshot <- takeCaptchaScreenshot t (negb ai || manual) ;;
          if truthy newScreenshot then ret (TryFalls newScreenshot)
          else ret (TryReturns Solved)
        else ret (TryFalls screenshot)
      else ret (TryFalls screenshot)
  end.

(** The branch of a failed automated answer: [clickAttempts] is already
    incremented; a new screenshot is taken when attempts remain. *)
Definition retake (t : threadId) (clickAttempts maxClickAttempts : nat)
    (screenshot : option string) : M (option string) :=
  if clickAttempts <? maxClickAttempts then
    wait 800 ;;
    currentIframe <- query_iframe ;;
    if currentIframe then
      currentFrame <- browser contentFrame ;;
      if currentFrame then
        newScreenshot <- takeCaptchaScreenshot t false ;;
        if truthy newScreenshot then ret newScreenshot else ret screenshot
      else ret screenshot
    else ret screenshot
  else ret screenshot.

(** The [while (!roundSolved && clickAttempts < maxClickAttempts)] loop.
    [roundSolved] is only set right before a [break] or a [return], so the
    loop goes on exactly while attempts remain: [remaining] is
    [maxClickAttempts - clickAttempts]. *)
Fixpoint click_loop (t : threadId) (maxClickAttempts remaining : nat)
    (screenshot : option string) : M loop_exit :=
  match remaining with
  | 0 => ret (Ends false)
  | S remaining' =>
      let clickAttempts := maxClickAttempts - remaining in
      flag <- get_skip_flag t ;;
      if flag then delete_skip_flag t ;; ret (Returns SkippedByUser) else
      ai <- ai_mode ;;
      if ai && truthy screenshot then
        aiPosition <- solveWithGemini ;;
        match aiPosition ≫= gridCoordinates with
        | Some (x, y) =>
            exit <- try_catch
                      (click_and_check t false (S clickAttempts)
                         maxClickAttempts screenshot (Some x) (Some y))
                      (fun _ => ret (TryFalls screenshot)) ;;
            match exit with
            | TryReturns r => ret (Returns r)
            | TryBreaks => ret (Ends true)
            | TryFalls screenshot' =>
                click_loop t maxClickAttempts remaining' screenshot'
            end
        | None =>
            screenshot' <- retake t (S clickAttempts) maxClickAttempts
                                  screenshot ;;
            click_loop t maxClickAttempts remaining' screenshot'
        end
      else if negb ai then
        manualSolution <- await_solution t ;;
        match manualSolution with
        | None => ret (Ends false)
        | Some clickData =>
            if sol_skipped clickData then ret (Returns SkippedByUser) else
            exit <- try_catch
                      (click_and_check t true (S clickAttempts)
                         maxClickAttempts screenshot (sol_x clickData)
                         (sol_y clickData))
                      (fun _ => ret (TryFalls screenshot)) ;;
            match exit with
            | TryReturns r => ret (Returns r)
            | TryBreaks => ret (Ends true)
            | TryFalls screenshot' =>
                click_loop t maxClickAttempts remaining' screenshot'
            end
        end
      else ret (Ends false)
  end.

(** The body of [for (let round = 1; round <= maxCaptchaRounds; round++)] *)
Definition captcha_round (t : threadId) (round : nat) : M round_exit :=
  early <- (if 1 <? round then evaluate earlySuccess else ret false) ;;
  if early then ret (RoundReturns Solved) else
  iframeHandle <- query_iframe ;;
  if negb iframeHandle then ret (RoundReturns Solved) else
  visible <- evaluate isVisible ;;
  if negb visible then ret (RoundReturns Solved) else
  browser (fun _ _ => tt) ;;
  wait 400 ;;
  frame <- browser contentFrame ;;
  if negb frame then ret (RoundReturns Solved) else
  ai <- ai_mode ;;
  screenshot <- takeCaptchaScreenshot t (negb ai) ;;
  let maxClickAttempts := if ai then 3 else 2 in
  exit <- click_loop t maxClickAttempts maxClickAttempts screenshot ;;
  match exit with
  | Returns r => ret (RoundReturns r)
  | Ends roundSolved =>
      if negb roundSolved && (round <? maxCaptchaRounds) then
        wait 800 ;;
        found <- evaluate successCheck ;;
        if found then ret (RoundReturns Solved) else ret NextRound
      else if negb roundSolved then
        wait 1000 ;;
        found <- evaluate finalCheck ;;
        ret (RoundReturns (if found then Solved else Unsolved))
      else
        wait 1200 ;;
        finished <- evaluate completionCheck ;;
        if finished then ret (RoundReturns Solved) else ret NextRound
  end.

(** The [for] loop over the rounds and the "comprehensive final check"
    after it. *)
Fixpoint captcha_rounds (t : threadId) (rounds : list nat) : M captcha_result :=
  match rounds with
  | [] =>
      wait 800 ;;
      found <- evaluate finalSuccess ;;
      ret (if found then Solved else Unsolved)
  | round :: rounds =>
      exit <- captcha_round t round ;;
      match exit with
      | RoundReturns r => ret r
      | NextRound => captcha_rounds t rounds
      end
  end.

(** [solveCaptchaManually(page, threadId)] *)
Definition solveCaptchaManually (t : threadId) : M captcha_result :=
  try_catch
    (browser (fun _ _ => tt) ;;
     browser (fun _ _ => tt) ;;
     wait 800 ;;
     captcha_rounds t (seq 1 maxCaptchaRounds))
    (fun _ => ret Unsolved).

(** *** [processAccount], from the grant of the captcha turn *)

(** The object [processAccount] resolves with: [{success, skipped, error,
    email, threadId}], absent booleans being [false]. *)
Record result := Result {
  success : bool;
  skipped : bool;
  error : option string;
  email : option string;
  res_threadId : threadId
}.

(** How the [try] block around the captcha ends: with a [return] of
    [processAccount], or at its end with [captchaSuccessfullyTriggered]. *)
Inductive stage_exit :=
| StageReturns (r : result)
| StageEnds (captchaSuccessfullyTriggered : bool).

(** The one iteration of the trigger loop ([maxTriggerAttempts = 1]): the
    body of its [try]. *)
Definition trigger_attempt (t : threadId) : M stage_exit :=
  clicked <- browser get_code_clicked ;;
  if negb clicked then throw "Failed to click Get Code button" else
  wait 500 ;;
  solved <- solveCaptchaManually t ;;
  match solved with
  | SkippedByUser => ret (StageReturns (Result false true None None t))
  | Solved => ret (StageEnds true)
  | Unsolved => wait 300 ;; ret (StageEnds false)
  end.

(** From "Captcha turn acquired" to the end of the [finally] that releases
    the turn. *)
Definition captcha_stage (t : threadId) : M stage_exit :=
  try_finally
    (browser (fun _ _ => tt) ;;
     wait 500 ;;
     try_catch (trigger_attempt t) (fun _ => ret (StageEnds false)))
    (Arbiter.releaseCaptchaLock t).

(** [invitationStatus]: ['already_invited'], ['success'] or ['unknown'] *)
Inductive invitation := already_invited | invited | unknown.

(** The variables the dialog handler of the last stage writes. *)
Record alerts := Alerts {
  flameAlertSeen : bool;
  invitationAlertSeen : bool;
  invitationStatus : option invitation
}.

Definition no_alert : alerts := Alerts false false None.

(** [toLowerCase] on the letters A to Z. *)
Definition lower_ascii (c : ascii) : ascii :=
  let n := nat_of_ascii c in
  if (65 <=? n) && (n <=? 90) then ascii_of_nat (n + 32) else c.

Fixpoint toLowerCase (s : string) : string :=
  match s with
  | EmptyString => EmptyString
  | String c s => String (lower_ascii c) (toLowerCase s)
  end.

Definition flame_sign : string := "üî•".

(** [targetPage.on('dialog', ...)]: one alert. *)
Definition on_dialog (a : alerts) (message : string) : alerts :=
  let flame :=
    if includes (toLowerCase message) "flame"
       || includes message flame_sign
       || includes (toLowerCase message) "fire"
    then true else flameAlertSeen a in
  if includes message "Sorry, you've already been invited"
     || includes message "already been invited"
  then Alerts flame true (Some already_invited)
  else if includes message "Invitation accepted"
          || includes message "successfully invited"
  then Alerts flame true (Some invited)
  else Alerts flame (invitationAlertSeen a) (invitationStatus a).

(** The status read off the page when no alert told it. *)
Definition page_status (d : document) : invitation :=
  if includes (bodyText d) "Sorry, you've already been invited"
     || includes (bodyText d) "already been invited"
  then already_invited
  else if includes (bodyText d) "Invitation is successful"
          || includes (bodyText d) "successfully invited"
  then invited
  else unknown.

(** The alerts shown during the two bounded waits (3.5 s each). *)
Definition await_alerts : M alerts :=
  fun e w => (Value (fold_left on_dialog (dialogs e (clock w)) no_alert),
              advance e w).

(** The end of [processAccount]: the status and the three [return]s. *)
Definition acknowledge (t : threadId) (address : string) (a : alerts) : M result :=
  status <- (if negb (invitationAlertSeen a)
                || negb (bool_decide (is_Some (invitationStatus a)))
             then evaluate page_status
             else ret (default unknown (invitationStatus a))) ;;
  match status with
  | already_invited => ret (Result true false None (Some address) t)
  | invited => ret (Result true false None (Some address) t)
  | unknown => ret (Result true false None (Some address) t)
  end.

(** [await inboxPromise] *)
Definition await_code : M (option string) :=
  fun e w => (Value (verification_code e (clock w)), advance e w).

(** The steps between the code and the alerts: the code is typed, the
    form is completed and submitted, the skip button is clicked. *)
Definition complete_form : M unit :=
  browser (fun _ _ => tt) ;;
  browser (fun _ _ => tt) ;;
  wait 250 ;;
  browser (fun _ _ => tt) ;;
  try_catch (browser (fun _ _ => tt) ;; wait 150 ;; browser (fun _ _ => tt))
            (fun _ => ret tt) ;;
  wait 500 ;;
  browser (fun _ _ => tt) ;;
  wait 600 ;;
  browser (fun _ _ => tt).

(** [processAccount] from the grant of the turn to its result ([address]
    is the e-mail address of the task); the [catch] turns every exception
    into a failure. *)
Definition processAccount (t : threadId) (address : string) : M result :=
  try_catch
    (exit <- captcha_stage t ;;
     match exit with
     | StageReturns r => ret r
     | StageEnds false => throw "Failed to trigger/solve captcha"
     | StageEnds true =>
         verificationCode <- await_code ;;
         match verificationCode with
         | None => throw "Failed to receive verification code"
         | Some _ =>
             complete_form ;;
             a <- await_alerts ;;
             acknowledge t address a
         end
     end)
    (fun message => ret (Result false false (Some message) None t)).

(** The outcome of a task, as the summary of a run counts it. *)
Inductive task_outcome := Succeeded | Skipped | Failed.

Definition outcome_of (r : result) : task_outcome :=
  if success r then Succeeded else if skipped r then Skipped else Failed.

(** *** Every exit of the captcha stage releases the turn *)

Arguments includes : simpl never.
Arguments countdown : simpl never.
Arguments advance : simpl never.

(** The part of the server that the turn queue owns. *)
Definition turn (s : server) : option threadId * list threadId * list console :=
  (activeCaptchaThreadId s, captchaQueue s, output s).

Lemma on_message_turn (m : Registry.message) (s : server) :
  turn (Registry.on_message m s) = turn s.
Proof.
  destruct (Registry.on_message_settle m s)
    as [->|[(t & _ & _ & ->)|[(t & p & _ & _ & ->)|(t & p & i & d & _ & _ & _ & ->)]]];
    reflexivity.
Qed.

Lemma messages_turn (ms : list Registry.message) (s : server) :
  turn (fold_left (fun s m => Registry.on_message m s) ms s) = turn s.
Proof.
  revert s. induction ms as [|m ms IH]; intros s; simpl; [done|].
  by rewrite IH, on_message_turn.
Qed.

Lemma advance_turn (e : env) (w : world) : turn (srv (advance e w)) = turn (srv w).
Proof. unfold advance. simpl. apply messages_turn. Qed.

(** A stretch of code that leaves the turn queue alone, whatever the
    environment does. *)
Definition keeps_turn {A} (m : M A) : Prop :=
  forall e w, turn (srv (snd (m e w))) = turn (srv w).

Lemma keeps_ret {A} (a : A) : keeps_turn (ret a).
Proof. by intros e w. Qed.

Lemma keeps_throw {A} (message : string) : keeps_turn (@throw A message).
Proof. by intros e w. Qed.

Lemma keeps_bind {A B} (m : M A) (k : A -> M B) :
  keeps_turn m -> (forall a, keeps_turn (k a)) -> keeps_turn (bind m k).
Proof.
  intros Hm Hk e w. unfold bind. specialize (Hm e w).
  destruct (m e w) as [[a|message] w1]; simpl in *; [|done].
  by rewrite Hk.
Qed.

Lemma keeps_try_catch {A} (m : M A) (h : string -> M A) :
  keeps_turn m -> (forall message, keeps_turn (h message)) ->
  keeps_turn (try_catch m h).
Proof.
  intros Hm Hh e w. unfold try_catch. specialize (Hm e w).
  destruct (m e w) as [[a|message] w1]; simpl in *; [done|].
  by rewrite Hh.
Qed.

Lemma keeps_browser {A} (answer : env -> nat -> A) : keeps_turn (browser answer).
Proof.
  intros e w. unfold browser. destruct (rejects e (clock w)); simpl;
    apply advance_turn.
Qed.

Lemma keeps_evaluate {A} (check : document -> A) : keeps_turn (evaluate check).
Proof. apply keeps_browser. Qed.

Lemma keeps_query_iframe : keeps_turn query_iframe.
Proof. apply keeps_browser. Qed.

Lemma keeps_wait (ms : nat) : keeps_turn (wait ms).
Proof. intros e w. apply advance_turn. Qed.

Lemma keeps_screenshot (t : threadId) (b : bool) :
  keeps_turn (takeCaptchaScreenshot t b).
Proof.
  intros e w. unfold takeCaptchaScreenshot.
  destruct (screenshot e (clock w)); [destruct b|]; simpl; apply advance_turn.
Qed.

Lemma keeps_gemini : keeps_turn solveWithGemini.
Proof.
  intros e w. unfold solveWithGemini. destruct (useAiSolver e); simpl; [|done].
  apply advance_turn.
Qed.

Lemma keeps_await_solution (t : threadId) : keeps_turn (await_solution t).
Proof.
  intros e w. unfold await_solution, Registry.waitForCaptchaSolution.
  match goal with |- context [advance e ?w0] => set (w1 := advance e w0) end.
  assert (turn (srv w1) = turn (srv w)) as Hw
    by (subst w1; rewrite advance_turn; reflexivity).
  destruct (Registry.resolutions (promises (srv w)) (srv w1)); [|exact Hw].
  rewrite <- Hw. unfold snd, srv at 1, Registry.on_timeout.
  by destruct (timers (srv w1) !! promises (srv w)).
Qed.

Lemma keeps_get_skip_flag (t : threadId) : keeps_turn (get_skip_flag t).
Proof. by intros e w. Qed.

Lemma keeps_delete_skip_flag (t : threadId) : keeps_turn (delete_skip_flag t).
Proof. by intros e w. Qed.

Lemma keeps_ai_mode : keeps_turn ai_mode.
Proof. by intros e w. Qed.

Lemma keeps_click_at (x y : option Z) : keeps_turn (click_at x y).
Proof.
  intros e w. unfold click_at.
  rewrite (keeps_browser (fun _ _ => tt) e). reflexivity.
Qed.

Lemma keeps_await_code : keeps_turn await_code.
Proof. intros e w. apply advance_turn. Qed.

Lemma keeps_await_alerts : keeps_turn await_alerts.
Proof. intros e w. apply advance_turn. Qed.

Create HintDb keeps.
#[local] Hint Resolve keeps_ret keeps_throw keeps_browser keeps_evaluate
  keeps_query_iframe keeps_wait keeps_screenshot keeps_gemini
  keeps_await_solution keeps_get_skip_flag keeps_delete_skip_flag
  keeps_ai_mode keeps_click_at keeps_await_code keeps_await_alerts : keeps.

(** Goes through a stretch of code, one statement at a time. *)
Ltac keeps_tac :=
  repeat first
    [ progress intros
    | solve [auto with keeps]
    | apply keeps_bind
    | apply keeps_try_catch
    | match goal with
      | |- keeps_turn (if ?b then _ else _) => destruct b
      | |- keeps_turn (match ?x with _ => _ end) => destruct x
      | |- keeps_turn (let '(_, _) := ?x in _) => destruct x
      end ].

Lemma keeps_click_and_check (t : threadId) (manual : bool) (c m : nat)
    (shot : option string) (x y : option Z) :
  keeps_turn (click_and_check t manual c m shot x y).
Proof. unfold click_and_check. keeps_tac. Qed.
#[local] Hint Resolve keeps_click_and_check : keeps.

Lemma keeps_retake (t : threadId) (c m : nat) (shot : option string) :
  keeps_turn (retake t c m shot).
Proof. unfold retake. keeps_tac. Qed.
#[local] Hint Resolve keeps_retake : keeps.

Lemma keeps_click_loop (t : threadId) (m remaining : nat) (shot : option string) :
  keeps_turn (click_loop t m remaining shot).
Proof.
  revert shot. induction remaining as [|remaining IH]; intros shot; simpl.
  - apply keeps_ret.
  - keeps_tac.
Qed.
#[local] Hint Resolve keeps_click_loop : keeps.

Lemma keeps_captcha_round (t : threadId) (round : nat) :
  keeps_turn (captcha_round t round).
Proof.
  unfold captcha_round. keeps_tac.
Qed.
#[local] Hint Resolve keeps_captcha_round : keeps.

Lemma keeps_captcha_rounds (t : threadId) (rounds : list nat) :
  keeps_turn (captcha_rounds t rounds).
Proof.
  induction rounds as [|round rounds IH]; simpl.
  - keeps_tac.
  - keeps_tac.
Qed.
#[local] Hint Resolve keeps_captcha_rounds : keeps.

Lemma keeps_solveCaptchaManually (t : threadId) :
  keeps_turn (solveCaptchaManually t).
Proof.
  unfold solveCaptchaManually. keeps_tac.
Qed.
#[local] Hint Resolve keeps_solveCaptchaManually : keeps.

Lemma keeps_trigger_attempt (t : threadId) : keeps_turn (trigger_attempt t).
Proof.
  unfold trigger_attempt. keeps_tac.
Qed.

(** The [ReleasedLock t] lines of the console. *)
Definition released (t : threadId) (out : list console) : nat :=
  length (filter (fun c => c = ReleasedLock t) out).

Lemma released_snoc (t : threadId) (out : list console) (c : console) :
  released t (out ++ [c]) =
  released t out + (if decide (c = ReleasedLock t) then 1 else 0).
Proof.
  unfold released. rewrite filter_app, length_app, filter_cons, filter_nil.
  by case_decide.
Qed.

(** Whatever happens in the stage, it ends with the one effective release
    of the [finally]: the console gets one [ReleasedLock] line for the
    thread, and the turn passes to the oldest waiter. *)
Lemma stage_releases_once (t : threadId) (e : env) (w : world) :
  activeCaptchaThreadId (srv w) = Some t ->
  released t (output (srv (snd (captcha_stage t e w)))) =
  S (released t (output (srv w))) /\
  activeCaptchaThreadId (srv (snd (captcha_stage t e w))) =
  head (captchaQueue (srv w)) /\
  captchaQueue (srv (snd (captcha_stage t e w))) = tail (captchaQueue (srv w)).
Proof.
  intros Hactive. unfold captcha_stage, try_finally.
  match goal with |- context [(?m e w)] =>
    match m with bind _ _ => set (body := m) end end.
  assert (keeps_turn body) as Hbody.
  { subst body. pose proof keeps_trigger_attempt. keeps_tac. }
  specialize (Hbody e w). destruct (body e w) as [r w1]. simpl in *.
  unfold turn in Hbody. injection Hbody as Ha Hq Ho.
  rewrite Arbiter.release_holder by congruence. rewrite Hq.
  destruct (captchaQueue (srv w)) as [|next rest]; simpl.
  - rewrite released_snoc, Ho, decide_True by done. split; [lia|done].
  - rewrite !released_snoc, Ho, decide_True, decide_False by done.
    split; [lia|done].
Qed.

(** *** A run in which no sign of success ever shows *)

(** The page keeps showing the captcha and nothing else: the frame is
    there and visible, with a box; no text of success, no countdown. *)
Definition no_heuristic (d : document) : bool :=
  match tcaptcha_iframe d with
  | Some f =>
      negb (display_none f) && negb (visibility_hidden f)
      && negb (offsetParent_null f) && negb (rect_empty f)
  | None => false
  end
  && negb (countdown d)
  && negb (includes (bodyText d) "Verification code")
  && negb (includes (bodyText d) "Verification code obtained")
  && negb (includes (bodyText d) "Verification code obtained successfully")
  && negb (includes (bodyText d) code_sent_zh)
  && negb (includes (bodyText d) "Code sent")
  && negb (includes (bodyText d) "successfully").

Lemma no_heuristic_checks (d : document) :
  no_heuristic d = true ->
  earlySuccess d = false /\ isVisible d = true /\
  quickSuccessCheck d = false /\ captchaStatus d = None /\
  captchaStillPresent d = true /\ successCheck d = false /\
  finalCheck d = false /\ is_Some (tcaptcha_iframe d).
Proof.
  unfold no_heuristic, earlySuccess, isVisible, quickSuccessCheck,
    captchaStatus, captchaStillPresent, isVisible, successCheck, finalCheck,
    successCheck.
  destruct (tcaptcha_iframe d) as [[dn vh op re]|]; simpl; [|done].
  rewrite !andb_true_iff, !negb_true_iff.
  intros [[[[[[[[[[-> ->] ->] ->] ->] ->] ->] ->] ->] ->] ->]. simpl.
  repeat split; eauto.
Qed.

Section Nominal.

Variable e : env.
Variable t : threadId.

(** No skip for the thread is recorded. *)
Definition calm (w : world) : Prop :=
  default false (skipCaptchaFlags (srv w) !! t) = false.

Hypothesis no_skip : forall k, Registry.skip_captcha (Some t) ∉ incoming e k.

Lemma on_message_flag (m : Registry.message) (s : server) :
  m <> Registry.skip_captcha (Some t) ->
  skipCaptchaFlags (Registry.on_message m s) !! t = skipCaptchaFlags s !! t.
Proof.
  intros Hm.
  destruct (Registry.on_message_settle m s)
    as [->|[(t' & -> & _ & ->)|[(t' & p & -> & _ & ->)|(t' & p & i & d & _ & _ & _ & ->)]]];
    simpl; try done.
  - rewrite lookup_insert_ne; [done|]. congruence.
  - rewrite lookup_insert_ne; [done|]. congruence.
Qed.

Lemma calm_advance (w : world) : calm w -> calm (advance e w).
Proof.
  unfold calm, advance. simpl. pose proof (no_skip (clock w)) as Hno.
  generalize (srv w). induction (incoming e (clock w)) as [|m ms IH];
    intros s Hs; simpl; [done|].
  apply not_elem_of_cons in Hno as [Hm Hno]. apply IH; [done|].
  rewrite on_message_flag; [done|]. congruence.
Qed.

(** From a calm world, [m] returns a value that satisfies [P], after [n]
    clicks in the captcha frame, in a calm world, and it has shown nothing
    to the clients. *)
Definition runs {A} (m : M A) (P : A -> Prop) (n : nat) : Prop :=
  forall w, calm w ->
    exists a w', m e w = (Value a, w') /\ P a /\ calm w' /\
                 length (clicks w') = length (clicks w) + n /\
                 shown w' = shown w.

Lemma runs_ret {A} (a : A) (P : A -> Prop) : P a -> runs (ret a) P 0.
Proof. intros Ha w Hw. exists a, w. repeat split; [done|done|lia]. Qed.

Lemma runs_bind {A B} (m : M A) (k : A -> M B) (P : A -> Prop)
    (Q : B -> Prop) (n1 n2 n : nat) :
  runs m P n1 -> (forall a, P a -> runs (k a) Q n2) -> n = n1 + n2 ->
  runs (bind m k) Q n.
Proof.
  intros Hm Hk -> w Hw. destruct (Hm w Hw) as (a & w1 & Hrun & Ha & Hw1 & Hc & Hs).
  destruct (Hk a Ha w1 Hw1) as (b & w2 & Hrun2 & Hb & Hw2 & Hc2 & Hs2).
  exists b, w2. unfold bind. rewrite Hrun, Hrun2.
  repeat split; [done|done|lia|congruence].
Qed.

Lemma runs_try_catch {A} (m : M A) (h : string -> M A) (P : A -> Prop) (n : nat) :
  runs m P n -> runs (try_catch m h) P n.
Proof.
  intros Hm w Hw. destruct (Hm w Hw) as (a & w1 & Hrun & H).
  exists a, w1. unfold try_catch. by rewrite Hrun.
Qed.

Lemma runs_wait (ms : nat) : runs (wait ms) (fun _ => True) 0.
Proof.
  intros w Hw. exists tt, (advance e w).
  repeat split; [by apply calm_advance|simpl; lia].
Qed.

Lemma runs_get_skip_flag : runs (get_skip_flag t) (fun b => b = false) 0.
Proof. intros w Hw. exists false, w. unfold get_skip_flag. rewrite Hw.
  repeat split; [done|lia]. Qed.

(** The browser and the solver do their part. *)
Hypothesis ai : useAiSolver e = true.
Hypothesis quiet : forall k, no_heuristic (dom e k) = true.
Hypothesis healthy : forall k, rejects e k = false.
Hypothesis framed : forall k, contentFrame e k = true.
Hypothesis captured : forall k, truthy (screenshot e k) = true.
Hypothesis answered : forall k, exists p, gemini e k = Some p /\ (1 <= p <= 6)%Z.

Lemma runs_ai_mode : runs ai_mode (fun b => b = true) 0.
Proof. intros w Hw. exists true, w. unfold ai_mode. rewrite ai.
  repeat split; [done|lia]. Qed.

Lemma runs_browser {A} (answer : env -> nat -> A) (P : A -> Prop) :
  (forall k, P (answer e k)) -> runs (browser answer) P 0.
Proof.
  intros HP w Hw. exists (answer e (clock w)), (advance e w).
  unfold browser. rewrite healthy.
  repeat split; [done|by apply calm_advance|simpl; lia].
Qed.

Lemma runs_evaluate {A} (check : document -> A) (v : A) :
  (forall d, no_heuristic d = true -> check d = v) ->
  runs (evaluate check) (fun a => a = v) 0.
Proof. intros Hv. apply runs_browser. intros k. apply Hv, quiet. Qed.

Lemma runs_query_iframe : runs query_iframe (fun a => a = true) 0.
Proof.
  apply runs_evaluate. intros d Hd.
  apply no_heuristic_checks in Hd. by apply bool_decide_eq_true, Hd.
Qed.

Lemma runs_contentFrame : runs (browser contentFrame) (fun a => a = true) 0.
Proof. apply runs_browser. apply framed. Qed.

Lemma runs_screenshot :
  runs (takeCaptchaScreenshot t false) (fun shot => truthy shot = true) 0.
Proof.
  intros w Hw. unfold takeCaptchaScreenshot.
  pose proof (captured (clock w)) as Hshot.
  destruct (screenshot e (clock w)) as [image|]; [|done].
  exists (Some image), (advance e w).
  repeat split; [done|by apply calm_advance|simpl; lia].
Qed.

Lemma runs_gemini :
  runs solveWithGemini
       (fun a => exists x y, a ≫= gridCoordinates = Some (x, y)) 0.
Proof.
  intros w Hw. unfold solveWithGemini. rewrite ai. simpl.
  destruct (answered (clock w)) as (p & -> & Hp). eexists _, (advance e w).
  split; [reflexivity|]. split.
  - assert (p = 1 \/ p = 2 \/ p = 3 \/ p = 4 \/ p = 5 \/ p = 6)%Z
      as [->|[->|[->|[->|[->| ->]]]]] by lia; simpl; eauto.
  - repeat split; [by apply calm_advance|simpl; lia].
Qed.

Lemma runs_click_at (x y : option Z) : runs (click_at x y) (fun _ => True) 1.
Proof.
  intros w Hw. unfold click_at, browser. simpl. rewrite healthy.
  eexists tt, _. split; [reflexivity|].
  repeat split; [by apply calm_advance|simpl; rewrite length_app; simpl; lia].
Qed.

(** One statement of a sequence: [lemma] runs the statement, the rest of
    the sequence stays as the goal. *)
Ltac then_ lemma :=
  eapply runs_bind; [lemma | | reflexivity]; cbv beta;
  let H := fresh in intros ? H;
  try (rewrite H; clear H); cbv beta iota.

Ltac checked :=
  apply runs_evaluate;
  let H := fresh in
  intros ? H; apply no_heuristic_checks in H;
  destruct H as (? & ? & ? & ? & ? & ? & ? & ?); eassumption.

Lemma runs_click_and_check (c m : nat) (shot : option string) (x y : option Z) :
  truthy shot = true ->
  runs (click_and_check t false c m shot x y)
       (fun r => exists shot', r = TryFalls shot' /\ truthy shot' = true) 1.
Proof.
  intros Hshot. unfold click_and_check.
  then_ ltac:(apply runs_click_at).
  then_ ltac:(apply runs_wait).
  then_ ltac:(apply (runs_browser _ (fun _ => True)); done).
  then_ ltac:(apply runs_wait).
  then_ ltac:(checked).
  then_ ltac:(checked).
  destruct (c <? m); [|apply runs_ret; by exists shot].
  then_ ltac:(apply runs_wait).
  then_ ltac:(checked).
  then_ ltac:(apply runs_query_iframe).
  then_ ltac:(apply runs_contentFrame).
  then_ ltac:(apply runs_ai_mode).
  eapply runs_bind; [apply runs_screenshot| |reflexivity].
  intros shot' Hshot'. cbv beta in Hshot'. rewrite Hshot'.
  apply runs_ret. by exists shot'.
Qed.

Lemma click_loop_S (m remaining : nat) (shot : option string) :
  click_loop t m (S remaining) shot =
  (flag <- get_skip_flag t ;;
   if flag then delete_skip_flag t ;; ret (Returns SkippedByUser) else
   ai <- ai_mode ;;
   if ai && truthy shot then
     aiPosition <- solveWithGemini ;;
     match aiPosition ≫= gridCoordinates with
     | Some (x, y) =>
         exit <- try_catch
                   (click_and_check t false (S (m - S remaining)) m shot
                      (Some x) (Some y))
                   (fun _ => ret (TryFalls shot)) ;;
         match exit with
         | TryReturns r => ret (Returns r)
         | TryBreaks => ret (Ends true)
         | TryFalls shot' => click_loop t m remaining shot'
         end
     | None =>
         shot' <- retake t (S (m - S remaining)) m shot ;;
         click_loop t m remaining shot'
     end
   else if negb ai then
     manualSolution <- await_solution t ;;
     match manualSolution with
     | None => ret (Ends false)
     | Some clickData =>
         if sol_skipped clickData then ret (Returns SkippedByUser) else
         exit <- try_catch
                   (click_and_check t true (S (m - S remaining)) m shot
                      (sol_x clickData) (sol_y clickData))
                   (fun _ => ret (TryFalls shot)) ;;
         match exit with
         | TryReturns r => ret (Returns r)
         | TryBreaks => ret (Ends true)
         | TryFalls shot' => click_loop t m remaining shot'
         end
     end
   else ret (Ends false))%task.
Proof. reflexivity. Qed.

(** With the solver answering, every attempt is a click, and the loop ends
    unsolved after as many clicks as attempts remained. *)
Lemma runs_click_loop (m remaining : nat) (shot : option string) :
  truthy shot = true ->
  runs (click_loop t m remaining shot) (fun exit => exit = Ends false) remaining.
Proof.
  revert shot. induction remaining as [|remaining IH]; intros shot Hshot.
  - by apply runs_ret.
  - rewrite click_loop_S.
    then_ ltac:(apply runs_get_skip_flag).
    then_ ltac:(apply runs_ai_mode).
    rewrite Hshot. cbv beta iota delta [andb].
    eapply runs_bind; [apply runs_gemini| |reflexivity].
    intros ? (x & y & ->).
    eapply runs_bind;
      [apply runs_try_catch, runs_click_and_check; exact Hshot| |reflexivity].
    intros ? (shot' & -> & Hshot'). cbv beta iota. by apply IH.
Qed.

Lemma runs_first_round :
  runs (captcha_round t 1) (fun exit => exit = NextRound) 3.
Proof.
  unfold captcha_round. change (1 <? 1) with false. cbv beta iota.
  then_ ltac:(apply (runs_ret false (fun a => a = false)); reflexivity).
  then_ ltac:(apply runs_query_iframe).
  then_ ltac:(checked).
  then_ ltac:(apply (runs_browser _ (fun _ => True)); done).
  then_ ltac:(apply runs_wait).
  then_ ltac:(apply runs_contentFrame).
  then_ ltac:(apply runs_ai_mode).
  eapply runs_bind; [apply runs_screenshot| |reflexivity].
  intros shot Hshot. cbv beta iota.
  then_ ltac:(by apply runs_click_loop).
  change (1 <? maxCaptchaRounds) with true. cbv beta iota delta [negb andb].
  then_ ltac:(apply runs_wait).
  then_ ltac:(checked).
  by apply runs_ret.
Qed.

Lemma runs_last_round :
  runs (captcha_round t 2) (fun exit => exit = RoundReturns Unsolved) 3.
Proof.
  unfold captcha_round. change (1 <? 2) with true. cbv beta iota.
  then_ ltac:(checked).
  then_ ltac:(apply runs_query_iframe).
  then_ ltac:(checked).
  then_ ltac:(apply (runs_browser _ (fun _ => True)); done).
  then_ ltac:(apply runs_wait).
  then_ ltac:(apply runs_contentFrame).
  then_ ltac:(apply runs_ai_mode).
  eapply runs_bind; [apply runs_screenshot| |reflexivity].
  intros shot Hshot. cbv beta iota.
  then_ ltac:(by apply runs_click_loop).
  change (2 <? maxCaptchaRounds) with false. cbv beta iota delta [negb andb].
  then_ ltac:(apply runs_wait).
  then_ ltac:(checked).
  by apply runs_ret.
Qed.

Lemma runs_solveCaptchaManually :
  runs (solveCaptchaManually t) (fun r => r = Unsolved) 6.
Proof.
  unfold solveCaptchaManually. apply runs_try_catch.
  then_ ltac:(apply (runs_browser _ (fun _ => True)); done).
  then_ ltac:(apply (runs_browser _ (fun _ => True)); done).
  then_ ltac:(apply runs_wait).
  change (seq 1 maxCaptchaRounds) with [1; 2]. cbn [captcha_rounds].
  then_ ltac:(apply runs_first_round).
  then_ ltac:(apply runs_last_round).
  by apply runs_ret.
Qed.

Hypothesis clicked : forall k, get_code_clicked e k = true.

Lemma runs_trigger_attempt :
  runs (trigger_attempt t) (fun exit => exit = StageEnds false) 6.
Proof.
  unfold trigger_attempt.
  then_ ltac:(apply (runs_browser get_code_clicked (fun a => a = true) clicked)).
  then_ ltac:(apply runs_wait).
  then_ ltac:(apply runs_solveCaptchaManually).
  then_ ltac:(apply runs_wait).
  by apply runs_ret.
Qed.

(** The task of the claim: it fails after six clicks. *)
Lemma unsolved_task_fails (address : string) (w : world) :
  calm w ->
  exists w',
    processAccount t address e w =
    (Value (Result false false (Some "Failed to trigger/solve captcha"%string)
                   None t), w') /\
    length (clicks w') = length (clicks w) + 6 /\
    shown w' = shown w /\
    srv w' = srv (snd (captcha_stage t e w)).
Proof.
  intros Hw.
  assert (runs (browser (fun _ _ => tt) ;; wait 500 ;;
                try_catch (trigger_attempt t)
                          (fun _ => ret (StageEnds false)))
               (fun exit => exit = StageEnds false) 6) as Hbody.
  { then_ ltac:(apply (runs_browser _ (fun _ => True)); done).
    then_ ltac:(apply runs_wait).
    apply runs_try_catch, runs_trigger_attempt. }
  destruct (Hbody w Hw) as (exit & w1 & Hrun & -> & _ & Hclicks & Hshown).
  unfold processAccount, try_catch, bind, captcha_stage, try_finally.
  rewrite Hrun. simpl. eexists. split; [reflexivity|]. simpl. done.
Qed.

End Nominal.

(** *** The whole task releases the turn once *)

Lemma keeps_complete_form : keeps_turn complete_form.
Proof. unfold complete_form. keeps_tac. Qed.

Lemma keeps_acknowledge (t : threadId) (address : string) (a : alerts) :
  keeps_turn (acknowledge t address a).
Proof. unfold acknowledge. keeps_tac. Qed.

Lemma processAccount_value (t : threadId) (address : string) (e : env) (w : world) :
  exists r, fst (processAccount t address e w) = Value r.
Proof.
  unfold processAccount, try_catch.
  match goal with |- context [match ?x with _ => _ end] => destruct x as [[r|message] w1] end;
    simpl; eauto.
Qed.

Lemma turn_after_bind {A B} (m : M A) (k : A -> M B) (e : env) (w : world) :
  (forall a, keeps_turn (k a)) ->
  turn (srv (snd (bind m k e w))) = turn (srv (snd (m e w))).
Proof.
  intros Hk. unfold bind. destruct (m e w) as [[a|message] w1]; [|done].
  apply Hk.
Qed.

Lemma turn_after_try_catch {A} (m : M A) (h : string -> M A) (e : env) (w : world) :
  (forall message, keeps_turn (h message)) ->
  turn (srv (snd (try_catch m h e w))) = turn (srv (snd (m e w))).
Proof.
  intros Hh. unfold try_catch. destruct (m e w) as [[a|message] w1]; [done|].
  apply Hh.
Qed.

Lemma processAccount_releases_once (t : threadId) (address : string)
    (e : env) (w : world) :
  activeCaptchaThreadId (srv w) = Some t ->
  released t (output (srv (snd (processAccount t address e w)))) =
  S (released t (output (srv w))) /\
  activeCaptchaThreadId (srv (snd (processAccount t address e w))) =
  head (captchaQueue (srv w)).
Proof.
  intros Hactive.
  destruct (stage_releases_once t e w Hactive) as (Hrel & Hact & _).
  assert (turn (srv (snd (processAccount t address e w))) =
          turn (srv (snd (captcha_stage t e w)))) as Hturn.
  { unfold processAccount.
    rewrite turn_after_try_catch by (intros; apply keeps_ret).
    apply turn_after_bind. intros exit.
    pose proof keeps_complete_form. pose proof keeps_acknowledge.
    keeps_tac. }
  unfold turn in Hturn. injection Hturn as Ha Hq Ho.
  rewrite Ho, Ha. done.
Qed.

(** *** The claim on the challenge loop *)

(** A page that shows the captcha and no sign of success. *)
Definition captcha_page : document :=
  Document (Some (Iframe false false false false))
           "Select the image that matches" ["Get code"%string] false.

(** An environment in which the solver always answers "3" and the captcha
    stays: the scenario of the claim. *)
Definition stubborn_captcha : env :=
  Env true (fun _ => captcha_page) (fun _ => false) (fun _ => true)
      (fun _ => Some "iVBORw0KGgo="%string) (fun _ => Some 3%Z)
      (fun _ => true) (fun _ => None) (fun _ => []) (fun _ => []).

(** The server when thread [t] has just been granted the turn. *)
Definition turn_granted (t : threadId) : world :=
  World (Arbiter.waitForCaptchaTurn t initial_server) 0 [] [].

(** The same page and the same browser, with a solver that gives no
    answer. *)
Definition mute_solver : env :=
  Env true (fun _ => captcha_page) (fun _ => false) (fun _ => true)
      (fun _ => Some "iVBORw0KGgo="%string) (fun _ => None)
      (fun _ => true) (fun _ => None) (fun _ => []) (fun _ => []).

(** The same page again, with a captcha frame whose content cannot be
    reached ([contentFrame()] gives [null]), and an inbox in which the
    code arrives. *)
Definition closed_frame : env :=
  Env true (fun _ => captcha_page) (fun _ => false) (fun _ => false)
      (fun _ => Some "iVBORw0KGgo="%string) (fun _ => Some 3%Z)
      (fun _ => true) (fun _ => Some "482913"%string) (fun _ => [])
      (fun _ => []).




(** The same run, computed: six clicks at position 3, nothing shown to
    the clients, the turn free again. *)
Example stubborn_captcha_run :
  let '(r, w') := processAccount 1 "user@example.com" stubborn_captcha
                                 (turn_granted 1) in
  r = Value (Result false false
               (Some "Failed to trigger/solve captcha"%string) None 1) /\
  clicks w' = replicate 6 (Some 300%Z, Some 190%Z) /\
  shown w' = [] /\
  output (srv w') = [AcquiredLock 1 0; ReleasedLock 1] /\
  activeCaptchaThreadId (srv w') = None.
Proof. vm_compute. repeat split; reflexivity. Qed.

(** *** Skips *)

(** A skip flag that is set when an attempt starts ends the loop. *)
Lemma flag_skips (t : threadId) (m remaining : nat) (shot : option string)
    (e : env) (w : world) :
  default false (skipCaptchaFlags (srv w) !! t) = true ->
  click_loop t m (S remaining) shot e w =
  (Value (Returns SkippedByUser),
   World (set_flags (delete t (skipCaptchaFlags (srv w))) (srv w))
         (clock w) (clicks w) (shown w)).
Proof.
  intros Hflag. rewrite click_loop_S. unfold bind, get_skip_flag.
  rewrite Hflag. reflexivity.
Qed.

Lemma messages_resolved (ms : list Registry.message) (s : server) :
  exists l,
    resolved (fold_left (fun s m => Registry.on_message m s) ms s)
    = resolved s ++ l.
Proof.
  revert s. induction ms as [|m ms IH]; intros s; simpl.
  - exists []. by rewrite app_nil_r.
  - destruct (IH (Registry.on_message m s)) as [l ->].
    destruct (Registry.on_message_settle m s)
      as [->|[(t' & _ & _ & ->)|[(t' & p & _ & _ & ->)|(t' & p & i & d & _ & _ & _ & ->)]]];
      simpl; eauto.
    + eexists. by rewrite <- app_assoc.
    + eexists. by rewrite <- app_assoc.
Qed.

(** A skip that is the first message handled while the task waits for an
    answer resolves the wait. *)
Lemma await_skip (t : threadId) (e : env) (w : world)
    (post : list Registry.message) :
  Registry.coherent (srv w) ->
  incoming e (clock w) = Registry.skip_captcha (Some t) :: post ->
  exists w',
    await_solution t e w = (Value (Some skipped_solution), w') /\
    clicks w' = clicks w /\ shown w' = shown w.
Proof.
  intros Hcoh Hin. unfold await_solution, Registry.waitForCaptchaSolution.
  unfold advance. cbn [srv clock clicks shown]. rewrite Hin.
  cbn [fold_left]. unfold Registry.on_message at 2.
  cbn [captchaResolvers set_flags set_resolvers].
  rewrite Registry.Map_get_set.
  match goal with |- context [fold_left ?f post ?s1] =>
    destruct (messages_resolved post s1) as [l Hl];
    set (s2 := fold_left f post s1) in * end.
  simpl in Hl.
  assert (Registry.resolutions (promises (srv w)) s2
          = Some skipped_solution
            :: (snd <$> filter (fun r => fst r = promises (srv w)) l)) as ->.
  { unfold Registry.resolutions. rewrite Hl, !filter_app, filter_cons.
    rewrite decide_True by done. rewrite filter_nil.
    pose proof (Registry.resolutions_none (promises (srv w)) (srv w)) as Hnone.
    unfold Registry.resolutions in Hnone. apply fmap_nil_inv in Hnone.
    - rewrite Hnone. reflexivity.
    - intros Hp. assert (promises (srv w) < promises (srv w)); [|lia].
      apply (Registry.coh_old _ Hcoh). by left. }
  eexists. split; [reflexivity|]. done.
Qed.

(** In manual mode, a wait that is resolved with [{skipped: true}] ends
    the loop. *)
Lemma resolved_skip (t : threadId) (m remaining : nat) (shot : option string)
    (e : env) (w w' : world) (answer : solution) :
  useAiSolver e = false ->
  default false (skipCaptchaFlags (srv w) !! t) = false ->
  await_solution t e w = (Value (Some answer), w') ->
  sol_skipped answer = true ->
  click_loop t m (S remaining) shot e w = (Value (Returns SkippedByUser), w').
Proof.
  intros Hai Hflag Hawait Hskipped. rewrite click_loop_S.
  unfold bind at 1, get_skip_flag. rewrite Hflag.
  unfold bind at 1, ai_mode. rewrite Hai. cbn [andb negb].
  unfold bind. rewrite Hawait, Hskipped. reflexivity.
Qed.

Lemma wait_skips (t : threadId) (m remaining : nat) (shot : option string)
    (e : env) (w : world) (post : list Registry.message) :
  useAiSolver e = false ->
  default false (skipCaptchaFlags (srv w) !! t) = false ->
  Registry.coherent (srv w) ->
  incoming e (clock w) = Registry.skip_captcha (Some t) :: post ->
  exists w',
    click_loop t m (S remaining) shot e w = (Value (Returns SkippedByUser), w') /\
    clicks w' = clicks w /\ shown w' = shown w.
Proof.
  intros Hai Hflag Hcoh Hin. rewrite click_loop_S.
  destruct (await_skip t e w post Hcoh Hin) as (w' & Hawait & Hc & Hs).
  exists w'. unfold bind at 1, get_skip_flag. rewrite Hflag.
  unfold bind at 1, ai_mode. rewrite Hai. cbn [andb negb].
  unfold bind. rewrite Hawait. done.
Qed.

Lemma browser_ok {A} (answer : env -> nat -> A) (e : env) (w : world) :
  rejects e (clock w) = false ->
  browser answer e w = (Value (answer e (clock w)), advance e w).
Proof. intros Hok. unfold browser. by rewrite Hok. Qed.

(** The world in which the captcha stage calls [solveCaptchaManually]:
    four ticks after its start (the scroll, a wait, the click on "Get
    code", a wait). *)
Definition at_solving (e : env) (w : world) : world :=
  advance e (advance e (advance e (advance e w))).

(** When [solveCaptchaManually] returns ['skipped'], so does the task: it
    returns [{success: false, skipped: true}] right after the release of
    the turn. *)
Lemma skipped_task (t : threadId) (address : string) (e : env) (w w2 : world) :
  rejects e (clock w) = false ->
  rejects e (S (S (clock w))) = false ->
  get_code_clicked e (S (S (clock w))) = true ->
  solveCaptchaManually t e (at_solving e w) = (Value SkippedByUser, w2) ->
  processAccount t address e w =
  (Value (Result false true None None t),
   World (Arbiter.releaseCaptchaLock t (srv w2)) (clock w2) (clicks w2)
         (shown w2)).
Proof.
  intros Hok0 Hok2 Hclicked Hsolve.
  unfold processAccount, try_catch, bind at 1, captcha_stage, try_finally.
  unfold bind at 1. rewrite browser_ok by done.
  unfold bind at 1, wait at 1. unfold try_catch, trigger_attempt.
  unfold bind at 1. rewrite browser_ok by done.
  change (clock (advance e (advance e w))) with (S (S (clock w))).
  rewrite Hclicked. cbn [negb]. unfold bind at 1, wait at 1. unfold bind at 1.
  unfold at_solving in Hsolve. rewrite Hsolve. reflexivity.
Qed.

(** *** The final acknowledgment *)



End Task.

(** ** The adaptive batch scheduler *)

Module Scheduler.

Definition MAX_THREADS : Z := 6.

(** The variables of the [while] loop of [/api/generate]. *)
Record state := State {
  currentThreads : Z;
  successfulCount : nat;
  totalAttempts : nat;
  results : list Task.result
}.

(** [res.json(...).summary] *)
Record summary := Summary {
  targetSuccessful : Z;
  actualSuccessful : nat;
  summary_totalAttempts : nat;
  summary_skipped : nat;
  summary_failed : nat
}.

Section Run.

(** What [processAccount] resolves with for each thread id. *)
Variable task : threadId -> Task.result.

(** [req.body.accountCount] and [Math.min(maxThreads, MAX_THREADS)] *)
Variables accountCount maxAllowedThreads : Z.

Definition maxTotalAttempts : Z := accountCount * 8.

(** The test of the [while] loop. *)
Definition goes_on (s : state) : bool :=
  (Z.of_nat (successfulCount s) <? accountCount)%Z
  && (Z.of_nat (totalAttempts s) <? maxTotalAttempts)%Z.

Definition batchSize (s : state) : Z :=
  let remainingSuccessNeeded := (accountCount - Z.of_nat (successfulCount s))%Z in
  Z.min (currentThreads s) remainingSuccessNeeded.

Definition successes (rs : list Task.result) : nat :=
  length (filter (fun r => Task.success r = true) rs).

(** One turn of the loop: the batch is started, [Promise.all] waits for
    all its tasks, the thread count is adapted. *)
Definition batch (s : state) : state :=
  let threadIds := seq (S (totalAttempts s)) (Z.to_nat (batchSize s)) in
  let batchResults := task <$> threadIds in
  let batchSuccessRate :=
    Sizing.ratio (Z.of_nat (successes batchResults))
                 (Z.of_nat (length batchResults)) in
  let newThreadCount :=
    Sizing.calculateOptimalBatchSize batchSuccessRate (currentThreads s)
                                     maxAllowedThreads in
  State newThreadCount
        (successfulCount s + successes batchResults)
        (totalAttempts s + Z.to_nat (batchSize s))
        (results s ++ batchResults).

(** The [while] loop; [None] when [fuel] turns do not reach its end. *)
Fixpoint loop (fuel : nat) (s : state) : option state :=
  if goes_on s then
    match fuel with
    | 0 => None
    | S fuel => loop fuel (batch s)
    end
  else Some s.

Definition initial : state := State (Z.min 3 maxAllowedThreads) 0 0 [].

Definition summarize (s : state) : summary :=
  Summary accountCount (successfulCount s) (totalAttempts s)
          (length (filter (fun r => Task.skipped r = true) (results s)))
          (length (filter (fun r => Task.success r = false /\
                                    Task.skipped r = false) (results s))).

End Run.

(** [app.post('/api/generate')]: the summary it answers with, when the
    loop ends within [fuel] batches. *)
Definition generate (task : threadId -> Task.result) (accountCount maxThreads : Z)
    (fuel : nat) : option summary :=
  let maxAllowedThreads := Z.min maxThreads MAX_THREADS in
  summarize accountCount
    <$> loop task accountCount maxAllowedThreads fuel (initial maxAllowedThreads).

(** *** Properties of the scheduler *)

Lemma successes_le (rs : list Task.result) : successes rs <= length rs.
Proof. apply length_filter. Qed.

Lemma size_bounds (rate : float) (cur A : Z) :
  (1 <= A <= 6)%Z -> (1 <= cur <= 6)%Z ->
  (1 <= Sizing.calculateOptimalBatchSize rate cur A <= 6)%Z.
Proof.
  intros HA Hc. unfold Sizing.calculateOptimalBatchSize.
  destruct (Sizing.high_rate <? rate)%float; [lia|].
  destruct (rate <? Sizing.low_rate)%float; lia.
Qed.

Section Facts.

Variable task : threadId -> Task.result.
Variables N A : Z.
Hypothesis target : (1 <= N)%Z.
Hypothesis threads : (1 <= A <= 6)%Z.

Abbreviation M := (maxTotalAttempts N).

(** What every turn of the loop keeps: between 1 and 6 threads, no more
    successes than asked for, the attempts within one batch of the
    ceiling, and the counters in step with the results. *)
Record steady (s : state) : Prop := {
  steady_threads : (1 <= currentThreads s <= 6)%Z;
  steady_successes : (Z.of_nat (successfulCount s) <= N)%Z;
  steady_attempts : (Z.of_nat (totalAttempts s) < M + Z.min 6 N)%Z;
  steady_count : successfulCount s = successes (results s);
  steady_length : totalAttempts s = length (results s)
}.

Lemma steady_initial : steady (initial A).
Proof.
  split; simpl; unfold maxTotalAttempts; try done; lia.
Qed.

Lemma goes_on_spec (s : state) :
  goes_on N s = true <->
  (Z.of_nat (successfulCount s) < N)%Z /\ (Z.of_nat (totalAttempts s) < M)%Z.
Proof.
  unfold goes_on. rewrite andb_true_iff, !Z.ltb_lt. done.
Qed.

Lemma batch_steady (s : state) :
  steady s -> goes_on N s = true ->
  steady (batch task N A s) /\
  totalAttempts s < totalAttempts (batch task N A s).
Proof.
  intros [Ht Hs Ha Hc Hl] [Hsucc Htot]%goes_on_spec.
  assert (1 <= batchSize N s <= Z.min 6 N)%Z as Hb by (unfold batchSize; lia).
  assert (batchSize N s <= N - Z.of_nat (successfulCount s))%Z as Hb'
    by (unfold batchSize; lia).
  pose proof (successes_le (task <$> seq (S (totalAttempts s))
                                         (Z.to_nat (batchSize N s)))) as Hle.
  rewrite length_fmap, length_seq in Hle.
  split; [split|]; simpl.
  - apply size_bounds; [done|done].
  - lia.
  - lia.
  - unfold successes in *. rewrite filter_app, length_app. lia.
  - rewrite length_app, length_fmap, length_seq. lia.
  - lia.
Qed.

Lemma loop_ends (fuel : nat) (s : state) :
  steady s -> (M <= Z.of_nat (totalAttempts s) + Z.of_nat fuel)%Z ->
  exists s', loop task N A fuel s = Some s' /\ steady s' /\ goes_on N s' = false.
Proof.
  revert s. induction fuel as [|fuel IH]; intros s Hs Hfuel; simpl.
  - destruct (goes_on N s) eqn:Hg; [|by exists s].
    apply goes_on_spec in Hg. lia.
  - destruct (goes_on N s) eqn:Hg; [|by exists s].
    destruct (batch_steady s Hs Hg) as [Hs' Hlt]. apply IH; [done|lia].
Qed.

End Facts.

Lemma run_ends (task : threadId -> Task.result) (N maxThreads : Z) :
  (1 <= N)%Z -> (1 <= maxThreads)%Z ->
  exists s,
    loop task N (Z.min maxThreads MAX_THREADS) (Z.to_nat (maxTotalAttempts N))
         (initial (Z.min maxThreads MAX_THREADS)) = Some s /\
    steady N s /\ goes_on N s = false.
Proof.
  intros HN HT. unfold MAX_THREADS.
  apply loop_ends; [lia|apply steady_initial; lia|].
  simpl. unfold maxTotalAttempts. lia.
Qed.

(** The results are those of the thread ids 1, 2, ... in this order. *)
Lemma loop_results (task : threadId -> Task.result) (N A : Z) (fuel : nat)
    (s s' : state) :
  results s = task <$> seq 1 (totalAttempts s) ->
  loop task N A fuel s = Some s' ->
  results s' = task <$> seq 1 (totalAttempts s').
Proof.
  revert s. induction fuel as [|fuel IH]; intros s Hs; simpl;
    destruct (goes_on N s); try congruence.
  apply IH. simpl. rewrite Hs at 1. by rewrite seq_app, fmap_app.
Qed.

(** The successes among the first [m] attempts are among those of the
    first [n >= m]. *)
Lemma successes_prefix (task : threadId -> Task.result) (m n : nat) :
  m <= n -> successes (task <$> seq 1 m) <= successes (task <$> seq 1 n).
Proof.
  intros Hle. replace n with (m + (n - m)) by lia.
  rewrite seq_app, fmap_app. unfold successes.
  rewrite filter_app, length_app. lia.
Qed.

(** Without a thread to start, the loop starts empty batches for ever:
    [0 / 0] is not a number and leaves the thread count as it is. *)
Lemma stalls_without_threads (task : threadId -> Task.result) (N A : Z) (fuel : nat) :
  (1 <= N)%Z -> (A <= 0)%Z -> loop task N A fuel (initial A) = None.
Proof.
  intros HN HA.
  assert (batch task N A (initial A) = initial A) as Hfix.
  { unfold batch, batchSize, initial. simpl.
    replace (Z.to_nat (Z.min (Z.min 3 A) (N - Z.of_nat 0))) with 0 by lia.
    simpl. unfold Sizing.calculateOptimalBatchSize.
    change (Sizing.ratio (Z.of_nat (successes [])) (Z.of_nat 0))
      with (Sizing.ratio 0 0).
    replace (Sizing.high_rate <? Sizing.ratio 0 0)%float with false
      by (vm_compute; reflexivity).
    replace (Sizing.ratio 0 0 <? Sizing.low_rate)%float with false
      by (vm_compute; reflexivity).
    reflexivity. }
  assert (goes_on N (initial A) = true) as Hg.
  { apply goes_on_spec. simpl. unfold maxTotalAttempts. lia. }
  induction fuel as [|fuel IH]; simpl; rewrite Hg; [done|]. by rewrite Hfix.
Qed.

(** Every task fails, as when the target site is down. *)
Definition always_fails (t : threadId) : Task.result :=
  Task.Result false false (Some "Failed to trigger/solve captcha"%string) None t.

(** C5, as stated, fails: the ceiling is only tested between two batches.
    For a target of 3 accounts (ceiling 24) and tasks that all fail, the
    batches have 3, then 2, 2, ... tasks: 23 attempts are below the
    ceiling and the twelfth batch brings them to 25. *)
Lemma ceiling_overshoot :
  generate always_fails 3 6 24 = Some (Summary 3 0 25 0 25) /\
  maxTotalAttempts 3 = 24%Z /\
  ~ (forall task N maxThreads fuel sm,
        generate task N maxThreads fuel = Some sm ->
        (Z.of_nat (summary_totalAttempts sm) <= maxTotalAttempts N)%Z).
Proof.
  assert (generate always_fails 3 6 24 = Some (Summary 3 0 25 0 25)) as Hrun
    by (vm_compute; reflexivity).
  split; [exact Hrun|]. split; [reflexivity|].
  intros Hall. specialize (Hall _ _ _ _ _ Hrun). simpl in Hall.
  unfold maxTotalAttempts in Hall. lia.
Qed.

(** C5, amended.  For a target of [N >= 1] accounts and at least one
    thread allowed, the run ends within [M = 8 N] batches.  At its end
    the successes do not exceed [N], the attempts are below [M] plus the
    size of one batch (at most [min(6, N)]), and the loop has stopped
    because the successes reached [N] or the attempts reached [M]: the
    successes equal [N] unless the attempts reached [M].  Every batch
    starts [min(currentThreads, N - successes so far)] tasks.  And the
    successes equal [N] whenever at least [N] attempts succeed within the
    ceiling, that is, among the attempts 1 to [M]. *)
Theorem scheduler_run_ends (task : threadId -> Task.result) (N maxThreads : Z) :
  (1 <= N)%Z -> (1 <= maxThreads)%Z ->
  exists s,
    loop task N (Z.min maxThreads MAX_THREADS) (Z.to_nat (maxTotalAttempts N))
         (initial (Z.min maxThreads MAX_THREADS)) = Some s /\
    generate task N maxThreads (Z.to_nat (maxTotalAttempts N))
    = Some (summarize N s) /\
    (Z.of_nat (actualSuccessful (summarize N s)) <= N)%Z /\
    (Z.of_nat (summary_totalAttempts (summarize N s))
     < maxTotalAttempts N + Z.min 6 N)%Z /\
    (N <= Z.of_nat (successfulCount s) \/
     maxTotalAttempts N <= Z.of_nat (totalAttempts s))%Z /\
    (Z.of_nat (successfulCount s) = N \/
     maxTotalAttempts N <= Z.of_nat (totalAttempts s))%Z /\
    successfulCount s = successes (results s) /\
    totalAttempts s = length (results s) /\
    (forall s0 : state,
        totalAttempts (batch task N (Z.min maxThreads MAX_THREADS) s0) =
        totalAttempts s0 +
        Z.to_nat (Z.min (currentThreads s0)
                        (N - Z.of_nat (successfulCount s0)))) /\
    results s = task <$> seq 1 (totalAttempts s) /\
    ((N <= Z.of_nat (successes
                       (task <$> seq 1 (Z.to_nat (maxTotalAttempts N)))))%Z ->
     Z.of_nat (actualSuccessful (summarize N s)) = N).
Proof.
  intros HN HT.
  destruct (run_ends task N maxThreads HN HT) as (s & Hloop & Hs & Hg).
  exists s. split; [exact Hloop|].
  split; [unfold generate; rewrite Hloop; reflexivity|].
  destruct Hs as [Ht Hsucc Ha Hc Hl].
  assert (N <= Z.of_nat (successfulCount s) \/
          maxTotalAttempts N <= Z.of_nat (totalAttempts s))%Z as Hend.
  { unfold goes_on in Hg. apply andb_false_iff in Hg.
    rewrite !Z.ltb_ge in Hg. exact Hg. }
  assert (results s = task <$> seq 1 (totalAttempts s)) as Hresults
    by (by apply (loop_results task N _ _ _ s) in Hloop).
  simpl. repeat split; try done; try lia.
  intros Hmany. destruct Hend as [Hend|Hend]; [lia|].
  pose proof (successes_prefix task (Z.to_nat (maxTotalAttempts N))
                               (totalAttempts s)) as Hprefix.
  rewrite <- Hresults, <- Hc in Hprefix. lia.
Qed.

Lemma scheduler_run_ends_witness :
  exists s,
    loop always_fails 3 (Z.min 6 MAX_THREADS) (Z.to_nat (maxTotalAttempts 3))
         (initial (Z.min 6 MAX_THREADS)) = Some s /\
    (Z.of_nat (summary_totalAttempts (summarize 3 s))
     < maxTotalAttempts 3 + Z.min 6 3)%Z.
Proof.
  destruct (scheduler_run_ends always_fails 3 6 ltac:(lia) ltac:(lia))
    as (s & Hloop & _ & _ & Hlt & _).
  exists s. split; [exact Hloop | exact Hlt].
Defined.

(** Ten tasks that succeed and fail in turn, for a target of 2: the run
    ends with 2 successes after 3 attempts. *)
Example alternating_run :
  generate (fun t => Task.Result (Nat.odd t) false None None t) 2 6 16
  = Some (Summary 2 2 3 0 1).
Proof. vm_compute. reflexivity. Qed.

End Scheduler.

(** ** Skips, from the signal to the summary *)

Module Skip.

Import Task.

(** What [processAccount] returns for a skipped task. *)
Definition skip_result (t : threadId) : result := Result false true None None t.

(** Manual mode, a user who does not answer, and one skip for thread 1
    that comes in at tick [at]. *)
Definition idle_user (at_tick : nat) : env :=
  Env false (fun _ => captcha_page) (fun _ => false) (fun _ => true)
      (fun _ => Some "iVBORw0KGgo="%string) (fun _ => None)
      (fun _ => true) (fun _ => None) (fun _ => [])
      (fun k => if k =? at_tick then [Registry.skip_captcha (Some 1)] else []).


(** The same user, the skip coming in while the task waits for the
    answer of its first attempt (tick 13): the task is skipped, without a
    click, and the turn is released. *)
Example skip_while_waiting :
  let '(r, w') := processAccount 1 "user@example.com" (idle_user 13)
                                 (turn_granted 1) in
  r = Value (skip_result 1) /\ clicks w' = [] /\
  output (srv w') = [AcquiredLock 1 0; ReleasedLock 1] /\
  shown w' = [(1, "iVBORw0KGgo="%string)].
Proof. vm_compute. repeat split; reflexivity. Qed.

(** A skip that comes in before the first attempt (tick 7) is found in
    [skipCaptchaFlags] when the attempt starts. *)
Example skip_before_attempt :
  fst (processAccount 1 "user@example.com" (idle_user 7) (turn_granted 1))
  = Value (skip_result 1).
Proof. vm_compute. reflexivity. Qed.

Lemma skipped_counts (rs : list result) (t : threadId) :
  length (filter (fun r => skipped r = true) (rs ++ [skip_result t])) =
  S (length (filter (fun r => skipped r = true) rs)) /\
  length (filter (fun r => success r = false /\ skipped r = false)
                 (rs ++ [skip_result t])) =
  length (filter (fun r => success r = false /\ skipped r = false) rs) /\
  Scheduler.successes (rs ++ [skip_result t]) = Scheduler.successes rs.
Proof.
  unfold Scheduler.successes. rewrite !filter_app, !length_app.
  rewrite !filter_cons, !filter_nil. simpl. lia.
Qed.

(** Manual mode and a user who sends nothing while the task runs. *)
Definition silent_user : env :=
  Env false (fun _ => captcha_page) (fun _ => false) (fun _ => true)
      (fun _ => Some "iVBORw0KGgo="%string) (fun _ => None)
      (fun _ => true) (fun _ => None) (fun _ => []) (fun _ => []).

(** The server after a skip for thread 1 that found no resolver, for
    instance the skip of a captcha that is still on the screen after its
    task has timed out. *)
Definition after_stray_skip : server :=
  Registry.on_message (Registry.skip_captcha (Some 1)) initial_server.


Local Open Scope task_scope.

(** *** When a task notices a skip *)

(** The attempt that starts in the world [w] notices a skip, and the loop
    returns ['skipped'] in [w']: the flag of the thread is set when the
    attempt starts, and is deleted; or, with a user who answers, the wait
    for the answer of the attempt is resolved with [{skipped: true}]. *)
Definition notices (t : threadId) (e : env) (w w' : world) : Prop :=
  (default false (skipCaptchaFlags (srv w) !! t) = true /\
   w' = World (set_flags (delete t (skipCaptchaFlags (srv w))) (srv w))
              (clock w) (clicks w) (shown w)) \/
  (default false (skipCaptchaFlags (srv w) !! t) = false /\
   useAiSolver e = false /\
   exists answer,
     await_solution t e w = (Value (Some answer), w') /\
     sol_skipped answer = true).

(** One turn of the [while] loop of [click_loop] after the test of the skip
    flag, cut out of it (see [click_loop_attempt]): [inl] when the turn
    leaves the loop, [inr] with the screenshot for the next turn. *)
Definition attempt (t : threadId) (maxClickAttempts clickAttempts : nat)
    (screenshot : option string) : M (loop_exit + option string) :=
  ai <- ai_mode ;;
  if ai && truthy screenshot then
    aiPosition <- solveWithGemini ;;
    match aiPosition ≫= gridCoordinates with
    | Some (x, y) =>
        exit <- try_catch
                  (click_and_check t false (S clickAttempts)
                     maxClickAttempts screenshot (Some x) (Some y))
                  (fun _ => ret (TryFalls screenshot)) ;;
        match exit with
        | TryReturns r => ret (inl (Returns r))
        | TryBreaks => ret (inl (Ends true))
        | TryFalls screenshot' => ret (inr screenshot')
        end
    | None =>
        screenshot' <- retake t (S clickAttempts) maxClickAttempts
                              screenshot ;;
        ret (inr screenshot')
    end
  else if negb ai then
    manualSolution <- await_solution t ;;
    match manualSolution with
    | None => ret (inl (Ends false))
    | Some clickData =>
        if sol_skipped clickData then ret (inl (Returns SkippedByUser)) else
        exit <- try_catch
                  (click_and_check t true (S clickAttempts)
                     maxClickAttempts screenshot (sol_x clickData)
                     (sol_y clickData))
                  (fun _ => ret (TryFalls screenshot)) ;;
        match exit with
        | TryReturns r => ret (inl (Returns r))
        | TryBreaks => ret (inl (Ends true))
        | TryFalls screenshot' => ret (inr screenshot')
        end
    end
  else ret (inl (Ends false)).

Ltac cases :=
  repeat first
    [ reflexivity
    | match goal with
      | |- context [match ?x with _ => _ end] => destruct x
      | |- context [if ?b then _ else _] => destruct b
      end ].

Lemma click_loop_attempt (t : threadId) (m remaining : nat)
    (shot : option string) (e : env) (w : world) :
  click_loop t m (S remaining) shot e w =
  if default false (skipCaptchaFlags (srv w) !! t) then
    (Value (Returns SkippedByUser),
     World (set_flags (delete t (skipCaptchaFlags (srv w))) (srv w))
           (clock w) (clicks w) (shown w))
  else
    match attempt t m (m - S remaining) shot e w with
    | (Value (inl exit), w1) => (Value exit, w1)
    | (Value (inr shot'), w1) => click_loop t m remaining shot' e w1
    | (Thrown message, w1) => (Thrown message, w1)
    end.
Proof.
  rewrite click_loop_S. unfold bind at 1, get_skip_flag.
  destruct (default false (skipCaptchaFlags (srv w) !! t)); [reflexivity|].
  unfold attempt, bind, ai_mode, ret. cases.
Qed.


(** [m] only returns values that satisfy [P]. *)
Definition yields {A} (m : M A) (P : A -> Prop) : Prop :=
  forall e w a w', m e w = (Value a, w') -> P a.

Lemma yields_ret {A} (a : A) (P : A -> Prop) : P a -> yields (ret a) P.
Proof. intros Ha e w a' w' [= <- _]. exact Ha. Qed.

Lemma yields_throw {A} (message : string) (P : A -> Prop) :
  yields (throw message) P.
Proof. intros e w a w' [=]. Qed.

Lemma yields_bind {A B} (m : M A) (k : A -> M B) (P : B -> Prop) :
  (forall a, yields (k a) P) -> yields (bind m k) P.
Proof.
  intros Hk e w b w'. unfold bind.
  destruct (m e w) as [[a|message] w1]; [apply Hk|intros [=]].
Qed.

Lemma yields_try_catch {A} (m : M A) (h : string -> M A) (P : A -> Prop) :
  yields m P -> (forall message, yields (h message) P) ->
  yields (try_catch m h) P.
Proof.
  intros Hm Hh e w a w'. unfold try_catch.
  destruct (m e w) as [[a'|message] w1] eqn:Hrun.
  - intros [= <- <-]. by apply (Hm e w a' w1).
  - apply Hh.
Qed.

Ltac yields_tac :=
  repeat first
    [ match goal with |- forall _, _ => intro end
    | solve [apply yields_ret; cbv beta; intros; first [reflexivity|congruence]]
    | apply yields_throw
    | apply yields_bind
    | apply yields_try_catch
    | match goal with
      | |- yields (if ?b then _ else _) _ => destruct b
      | |- yields (match ?x with _ => _ end) _ => destruct x
      end ].

(** The [try] block of a click never returns ['skipped']. *)
Lemma click_and_check_solved (t : threadId) (manual : bool) (c m : nat)
    (shot : option string) (x y : option Z) :
  yields (click_and_check t manual c m shot x y)
         (fun exit => forall r, exit = TryReturns r -> r = Solved).
Proof. unfold click_and_check. yields_tac. Qed.

(** An attempt leaves the loop with ['skipped'] exactly when, with a user
    who answers, its wait is resolved with [{skipped: true}]. *)
Lemma attempt_skipped (t : threadId) (m c : nat) (shot : option string)
    (e : env) (w w' : world) :
  attempt t m c shot e w = (Value (inl (Returns SkippedByUser)), w') <->
  useAiSolver e = false /\
  exists answer,
    await_solution t e w = (Value (Some answer), w') /\
    sol_skipped answer = true.
Proof.
  assert (forall manual x y,
             yields (exit <- try_catch
                               (click_and_check t manual (S c) m shot x y)
                               (fun _ => ret (TryFalls shot)) ;;
                     match exit with
                     | TryReturns r => ret (inl (Returns r))
                     | TryBreaks => ret (inl (Ends true))
                     | TryFalls shot' => ret (inr shot')
                     end)
                    (fun a : loop_exit + option string =>
                       a <> inl (Returns SkippedByUser))) as Hclick.
  { intros manual x y e0 w0 a w0'. unfold bind.
    destruct (try_catch _ _ e0 w0) as [[exit|message] w1] eqn:Htry;
      [|intros [=]].
    assert (forall r, exit = TryReturns r -> r = Solved) as Hexit.
    { refine (yields_try_catch _ _ (fun exit => forall r, exit = TryReturns r
                                                         -> r = Solved)
                               _ _ e0 w0 exit w1 Htry);
        [apply click_and_check_solved|yields_tac]. }
    destruct exit as [r| |shot']; intros [= <- _]; try done.
    rewrite (Hexit r eq_refl). done. }
  unfold attempt. unfold bind at 1, ai_mode.
  destruct (useAiSolver e); cbn [andb negb].
  - split; [|intros [[=] _]]. intros Hrun. exfalso.
    destruct (truthy shot); [|discriminate Hrun].
    revert Hrun. unfold bind at 1.
    destruct (solveWithGemini e w) as [[aiPosition|message] w1]; [|intros [=]].
    destruct (aiPosition ≫= gridCoordinates) as [[x y]|].
    + intros Hrun. by apply Hclick in Hrun.
    + unfold bind. destruct (retake _ _ _ _ e w1) as [[shot'|message] w2];
        intros [=].
  - unfold bind at 1.
    destruct (await_solution t e w) as [[[clickData|]|message] w1] eqn:Hawait.
    + destruct (sol_skipped clickData) eqn:Hskipped.
      * split.
        -- intros [= <-]. split; [done|]. by exists clickData.
        -- intros (_ & answer & [= <- <-] & _). reflexivity.
      * split.
        -- intros Hrun. by apply Hclick in Hrun.
        -- intros (_ & answer & [= <- <-] & Hanswer). congruence.
    + split; [intros [=]|]. by intros (_ & answer & [=] & _).
    + split; [intros [=]|]. by intros (_ & answer & [=] & _).
Qed.

(** The loop notices a skip at one of its attempts: at the one it starts
    with, or at a later one, which it gets to when the attempts before it
    go on to the next turn of the loop. *)
Inductive loop_notices (t : threadId) (e : env) (m : nat) :
    nat -> option string -> world -> world -> Prop :=
| notices_now (remaining : nat) (shot : option string) (w w' : world) :
    notices t e w w' ->
    loop_notices t e m (S remaining) shot w w'
| notices_later (remaining : nat) (shot shot' : option string)
    (w w1 w' : world) :
    default false (skipCaptchaFlags (srv w) !! t) = false ->
    attempt t m (m - S remaining) shot e w = (Value (inr shot'), w1) ->
    loop_notices t e m remaining shot' w1 w' ->
    loop_notices t e m (S remaining) shot w w'.

(** The loop returns ['skipped'] exactly when it notices a skip. *)
Lemma click_loop_skipped (t : threadId) (e : env) (m remaining : nat)
    (shot : option string) (w w' : world) :
  click_loop t m remaining shot e w = (Value (Returns SkippedByUser), w') <->
  loop_notices t e m remaining shot w w'.
Proof.
  split.
  - revert shot w. induction remaining as [|remaining IH]; intros shot w.
    + intros [=].
    + rewrite click_loop_attempt.
      destruct (default false (skipCaptchaFlags (srv w) !! t)) eqn:Hflag.
      * intros [= <-]. apply notices_now. left. done.
      * destruct (attempt t m (m - S remaining) shot e w)
          as [[[exit|shot']|message] w1] eqn:Hattempt.
        -- intros [= -> ->]. apply notices_now. right.
           apply attempt_skipped in Hattempt. tauto.
        -- intros Hloop. eapply notices_later; eauto.
        -- intros [=].
  - induction 1 as [remaining shot w w' Hnow
                   |remaining shot shot' w w1 w' Hflag Hattempt _ IH];
      rewrite click_loop_attempt.
    + destruct Hnow as [[-> ->]|(-> & Hmanual & Hanswer)]; [reflexivity|].
      assert (attempt t m (m - S remaining) shot e w
              = (Value (inl (Returns SkippedByUser)), w')) as ->
        by (by apply attempt_skipped).
      reflexivity.
    + by rewrite Hflag, Hattempt.
Qed.


(** [maxClickAttempts] *)
Definition attempts (e : env) : nat := if useAiSolver e then 3 else 2.

(** The statements of a round before its loop, cut out of [captcha_round]
    (see [captcha_round_skipped]): [inl] when the round returns there,
    [inr] with the screenshot the loop starts with. *)
Definition round_entry (t : threadId) (round : nat)
  : M (round_exit + option string) :=
  early <- (if 1 <? round then evaluate earlySuccess else ret false) ;;
  if early then ret (inl (RoundReturns Solved)) else
  iframeHandle <- query_iframe ;;
  if negb iframeHandle then ret (inl (RoundReturns Solved)) else
  visible <- evaluate isVisible ;;
  if negb visible then ret (inl (RoundReturns Solved)) else
  browser (fun _ _ => tt) ;;
  wait 400 ;;
  frame <- browser contentFrame ;;
  if negb frame then ret (inl (RoundReturns Solved)) else
  ai <- ai_mode ;;
  screenshot <- takeCaptchaScreenshot t (negb ai) ;;
  ret (inr screenshot).

(** The two sides of [captcha_round_skipped] go through the same
    statements. *)
Ltac entry_returns := split; [intros [=]|intros (? & ? & [=] & _)].

Ltac entry_step e :=
  match goal with
  | |- context [match ?m e ?w0 with _ => _ end] =>
      is_var w0; destruct (m e w0) as [[?|?] ?]
  end; [|entry_returns].

Ltac entry_test :=
  match goal with |- context [if ?b then _ else _] => destruct b end;
  [entry_returns|].

(** A round returns ['skipped'] exactly when it gets to its loop and the
    loop returns ['skipped']. *)
Lemma captcha_round_skipped (t : threadId) (round : nat) (e : env)
    (w w' : world) :
  captcha_round t round e w = (Value (RoundReturns SkippedByUser), w') <->
  exists shot w1,
    round_entry t round e w = (Value (inr shot), w1) /\
    click_loop t (attempts e) (attempts e) shot e w1
    = (Value (Returns SkippedByUser), w').
Proof.
  unfold captcha_round, round_entry, attempts.
  unfold bind, ai_mode. cbv beta iota.
  entry_step e. entry_test. entry_step e. entry_test. entry_step e.
  entry_test. entry_step e. entry_step e. entry_step e. entry_test.
  destruct (takeCaptchaScreenshot t (negb (useAiSolver e)) e _)
    as [[shot|?] wl]; [|entry_returns].
  destruct (click_loop t _ _ shot e wl) as [[[r|roundSolved]|?] wx] eqn:Hloop.
  - split.
    + intros [= -> ->]. by exists shot, wl.
    + intros (? & ? & [= <- <-] & Hskipped). rewrite Hloop in Hskipped.
      by injection Hskipped as -> ->.
  - split.
    + intros Hrun. exfalso.
      assert (yields
                (if negb roundSolved && (round <? maxCaptchaRounds) then
                   wait 800 ;;
                   found <- evaluate successCheck ;;
                   if found then ret (RoundReturns Solved) else ret NextRound
                 else if negb roundSolved then
                   wait 1000 ;;
                   found <- evaluate finalCheck ;;
                   ret (RoundReturns (if found then Solved else Unsolved))
                 else
                   wait 1200 ;;
                   finished <- evaluate completionCheck ;;
                   if finished then ret (RoundReturns Solved) else ret NextRound)
                (fun exit => exit <> RoundReturns SkippedByUser)) as Hend.
      { yields_tac. apply yields_ret.
        match goal with |- context [if ?b then _ else _] => by destruct b end. }
      exact (Hend e wx _ w' Hrun eq_refl).
    + intros (? & ? & [= <- <-] & Hskipped). rewrite Hloop in Hskipped.
      discriminate Hskipped.
  - split; [intros [=]|].
    intros (? & ? & [= <- <-] & Hskipped). rewrite Hloop in Hskipped.
    discriminate Hskipped.
Qed.


(** The rounds notice a skip: one of them gets to its loop, which notices
    it, the rounds before it having gone on to the next round. *)
Inductive rounds_notice (t : threadId) (e : env) :
    list nat -> world -> world -> Prop :=
| round_notices (round : nat) (rounds : list nat) (shot : option string)
    (w w1 w' : world) :
    round_entry t round e w = (Value (inr shot), w1) ->
    loop_notices t e (attempts e) (attempts e) shot w1 w' ->
    rounds_notice t e (round :: rounds) w w'
| round_passes (round : nat) (rounds : list nat) (w w1 w' : world) :
    captcha_round t round e w = (Value NextRound, w1) ->
    rounds_notice t e rounds w1 w' ->
    rounds_notice t e (round :: rounds) w w'.

Lemma captcha_rounds_skipped (t : threadId) (e : env) (rounds : list nat)
    (w w' : world) :
  captcha_rounds t rounds e w = (Value SkippedByUser, w') <->
  rounds_notice t e rounds w w'.
Proof.
  revert w. induction rounds as [|round rounds IH]; intros w.
  - split; [|inversion 1]. intros Hrun. exfalso. revert Hrun.
    assert (yields (captcha_rounds t []) (fun r => r <> SkippedByUser)) as Hend.
    { simpl. yields_tac. apply yields_ret.
      match goal with |- context [if ?b then _ else _] => by destruct b end. }
    intros Hrun. exact (Hend e w _ w' Hrun eq_refl).
  - cbn [captcha_rounds]. unfold bind.
    destruct (captcha_round t round e w) as [[[r|]|message] w1] eqn:Hround.
    + split.
      * intros [= -> ->]. apply captcha_round_skipped in Hround
          as (shot & wl & Hentry & Hloop).
        apply click_loop_skipped in Hloop. by eapply round_notices.
      * inversion 1 as [? ? shot ? wl ? Hentry Hloop|? ? ? wn ? Hnext _]; subst.
        -- apply click_loop_skipped in Hloop.
           assert (captcha_round t round e w
                   = (Value (RoundReturns SkippedByUser), w')) as Hskipped
             by (apply captcha_round_skipped; eauto).
           rewrite Hround in Hskipped. by injection Hskipped as -> ->.
        -- rewrite Hround in Hnext. discriminate Hnext.
    + rewrite IH. split.
      * intros Hrest. by eapply round_passes.
      * inversion 1 as [? ? shot ? wl ? Hentry Hloop|? ? ? wn ? Hnext Hrest];
          subst.
        -- apply click_loop_skipped in Hloop.
           assert (captcha_round t round e w
                   = (Value (RoundReturns SkippedByUser), w')) as Hskipped
             by (apply captcha_round_skipped; eauto).
           rewrite Hround in Hskipped. discriminate Hskipped.
        -- rewrite Hround in Hnext. by injection Hnext as ->.
    + split; [intros [=]|].
      inversion 1 as [? ? shot ? wl ? Hentry Hloop|? ? ? wn ? Hnext Hrest];
        subst.
      * apply click_loop_skipped in Hloop.
        assert (captcha_round t round e w
                = (Value (RoundReturns SkippedByUser), w')) as Hskipped
          by (apply captcha_round_skipped; eauto).
        rewrite Hround in Hskipped. discriminate Hskipped.
      * rewrite Hround in Hnext. discriminate Hnext.
Qed.

(** [solveCaptchaManually] returns ['skipped'] exactly when its scroll and
    its wait for the captcha frame go through and its rounds notice a
    skip. *)
Lemma solveCaptchaManually_skipped (t : threadId) (e : env) (w w' : world) :
  solveCaptchaManually t e w = (Value SkippedByUser, w') <->
  rejects e (clock w) = false /\ rejects e (S (clock w)) = false /\
  rounds_notice t e (seq 1 maxCaptchaRounds)
                (advance e (advance e (advance e w))) w'.
Proof.
  rewrite <- captcha_rounds_skipped.
  unfold solveCaptchaManually, try_catch. unfold bind at 1, browser at 1.
  destruct (rejects e (clock w)).
  { split; [intros [=]|]. by intros [[=] _]. }
  unfold bind at 1, browser at 1.
  change (clock (advance e w)) with (S (clock w)).
  destruct (rejects e (S (clock w))).
  { split; [intros [=]|]. by intros (_ & [=] & _). }
  unfold bind at 1, wait at 1.
  destruct (captcha_rounds t _ e _) as [[r|message] w1].
  - split; [intros [= -> ->]; done|]. by intros (_ & _ & [= -> ->]).
  - split; [intros [=]|]. by intros (_ & _ & [=]).
Qed.

(** The captcha stage that starts in [w] notices a skip: it gets to the
    rounds of [solveCaptchaManually] (its scroll at the first tick, its
    click on "Get code" at the third, then the scroll and the wait for the
    captcha frame of [solveCaptchaManually] go through), and the rounds
    notice a skip. *)
Definition stage_notices (t : threadId) (e : env) (w w' : world) : Prop :=
  rejects e (clock w) = false /\
  rejects e (2 + clock w) = false /\
  get_code_clicked e (2 + clock w) = true /\
  rejects e (4 + clock w) = false /\
  rejects e (5 + clock w) = false /\
  rounds_notice t e (seq 1 maxCaptchaRounds) (Nat.iter 7 (advance e) w) w'.

(** After the captcha stage the task returns no skip. *)
Lemma finalizing_not_skipped (t : threadId) (address : string) :
  yields (verificationCode <- await_code ;;
          match verificationCode with
          | None => throw "Failed to receive verification code"
          | Some _ =>
              complete_form ;;
              a <- await_alerts ;;
              acknowledge t address a
          end)
         (fun r => skipped r = false).
Proof.
  assert (forall a, yields (acknowledge t address a)
                           (fun r => skipped r = false)) as Hack.
  { intros a. unfold acknowledge. yields_tac. }
  yields_tac.
Qed.

(** The task returns [{success: false, skipped: true}] exactly when its
    captcha stage notices a skip. *)
Lemma processAccount_skipped (t : threadId) (address : string) (e : env)
    (w : world) (r : result) (w' : world) :
  processAccount t address e w = (Value r, w') /\ skipped r = true <->
  r = skip_result t /\
  exists w2,
    stage_notices t e w w2 /\
    w' = World (Arbiter.releaseCaptchaLock t (srv w2)) (clock w2) (clicks w2)
               (shown w2).
Proof.
  unfold stage_notices. split.
  - intros [Hrun Hskipped]. revert Hrun. unfold processAccount, try_catch.
    match goal with |- context [match ?x with (_, _) => _ end] =>
      destruct x as [[r'|message] w1] eqn:Hbody end.
    2: { intros [= <- _]. discriminate Hskipped. }
    intros [= -> ->]. revert Hbody. unfold bind at 1.
    destruct (captcha_stage t e w) as [[[r'|[]]|message] w2] eqn:Hstage;
      try (intros [=]; fail).
    2: { intros Hrun. apply finalizing_not_skipped in Hrun. congruence. }
    intros [= -> ->]. revert Hstage. unfold captcha_stage, try_finally.
    unfold bind at 1, browser at 1.
    destruct (rejects e (clock w)) eqn:Hok0; [intros [=]|].
    unfold bind at 1, wait at 1. unfold try_catch, trigger_attempt.
    unfold bind at 1, browser at 1.
    change (clock (advance e (advance e w))) with (2 + clock w).
    destruct (rejects e (2 + clock w)) eqn:Hok2; [intros [=]|].
    destruct (get_code_clicked e (2 + clock w)) eqn:Hclicked; [|intros [=]].
    cbn [negb]. unfold bind at 1, wait at 1. unfold bind at 1.
    destruct (solveCaptchaManually t e _) as [[[]|message] w3] eqn:Hsolve;
      try (intros [=]; fail).
    intros [= <- <-].
    apply solveCaptchaManually_skipped in Hsolve as (Hok4 & Hok5 & Hrounds).
    split; [reflexivity|]. exists w3. done.
  - intros (-> & w2 & (Hok0 & Hok2 & Hclicked & Hok4 & Hok5 & Hrounds) & ->).
    split; [|reflexivity].
    apply (skipped_task t address e w w2 Hok0 Hok2 Hclicked).
    apply solveCaptchaManually_skipped. done.
Qed.




End Skip.

(** ** What a task does in every environment *)

Module Conduct.

Import Task.
Local Open Scope task_scope.

(** The results [processAccount] has a [return] for. *)
Inductive shape (t : threadId) (address : string) : result -> Prop :=
| shape_success : shape t address (Result true false None (Some address) t)
| shape_skipped : shape t address (Result false true None None t)
| shape_failure (message : string) :
    shape t address (Result false false (Some message) None t).

(** [m] makes at most [n] clicks in the captcha frame. *)
Definition at_most {A} (e : env) (n : nat) (m : M A) : Prop :=
  forall w, length (clicks (snd (m e w))) <= length (clicks w) + n.

(** [m] sends no captcha to the clients and starts no wait for an answer
    of theirs ([promises] counts the calls of [waitForCaptchaSolution]). *)
Definition mute {A} (e : env) (m : M A) : Prop :=
  forall w, shown (snd (m e w)) = shown w /\
            promises (srv (snd (m e w))) = promises (srv w).

(** *** The shape of the result *)

Lemma stage_returns_skip (t : threadId) (e : env) (w w' : world) (r : result) :
  captcha_stage t e w = (Value (StageReturns r), w') ->
  r = Result false true None None t.
Proof.
  unfold captcha_stage, try_finally.
  match goal with |- context [(?m e w)] =>
    match m with bind _ _ => destruct (m e w) as [[exit|message] w1] eqn:Hbody end end;
    [|discriminate].
  intros [= -> _]. revert Hbody.
  unfold bind at 1. destruct (browser _ e w) as [[[]|?] w2]; [|intros [=]].
  unfold bind at 1, wait at 1. unfold try_catch.
  destruct (trigger_attempt t e (advance e w2)) as [[exit|message] w3] eqn:Htrigger;
    [|intros [=]].
  intros [= -> _]. revert Htrigger. unfold trigger_attempt.
  unfold bind at 1. destruct (browser get_code_clicked e _) as [[[]|?] w4];
    cbn [negb]; try (intros [=]; fail).
  unfold bind at 1, wait at 1. unfold bind at 1.
  destruct (solveCaptchaManually t e _) as [[[]|?] w5]; try (intros [=]; fail).
  unfold ret. congruence.
Qed.

Lemma acknowledge_shape (t : threadId) (address : string) (a : alerts)
    (e : env) (w w' : world) (r : result) :
  acknowledge t address a e w = (Value r, w') ->
  r = Result true false None (Some address) t.
Proof.
  unfold acknowledge, bind.
  match goal with |- context [if ?c then _ else _] => destruct c end.
  all: match goal with |- context [match ?x with (_, _) => _ end] =>
         destruct x as [[[]|?] w1] end; unfold ret; congruence.
Qed.

(** Clicks are only added, and only by [click_at]. *)
Lemma at_most_0 {A} (e : env) (n : nat) (m : M A) :
  at_most e 0 m -> at_most e n m.
Proof. intros Hm w. specialize (Hm w). lia. Qed.

Lemma at_most_weaken {A} (e : env) (n n' : nat) (m : M A) :
  at_most e n m -> n <= n' -> at_most e n' m.
Proof. intros Hm Hn w. specialize (Hm w). lia. Qed.

Lemma at_most_ret {A} (e : env) (a : A) : at_most e 0 (ret a).
Proof. intros w. simpl. lia. Qed.

Lemma at_most_throw {A} (e : env) (message : string) : at_most e 0 (@throw A message).
Proof. intros w. simpl. lia. Qed.

Lemma at_most_bind {A B} (e : env) (n1 n2 : nat) (m : M A) (k : A -> M B) :
  at_most e n1 m -> (forall a, at_most e n2 (k a)) -> at_most e (n1 + n2) (bind m k).
Proof.
  intros Hm Hk w. unfold bind. specialize (Hm w).
  destruct (m e w) as [[a|message] w1]; simpl in *; [|lia].
  specialize (Hk a w1). lia.
Qed.

Lemma at_most_first {A B} (e : env) (n : nat) (m : M A) (k : A -> M B) :
  at_most e n m -> (forall a, at_most e 0 (k a)) -> at_most e n (bind m k).
Proof.
  intros Hm Hk. apply at_most_weaken with (n + 0); [|lia]. by apply at_most_bind.
Qed.

Lemma at_most_try_catch {A} (e : env) (n1 n2 : nat) (m : M A) (h : string -> M A) :
  at_most e n1 m -> (forall message, at_most e n2 (h message)) ->
  at_most e (n1 + n2) (try_catch m h).
Proof.
  intros Hm Hh w. unfold try_catch. specialize (Hm w).
  destruct (m e w) as [[a|message] w1]; simpl in *; [lia|].
  specialize (Hh message w1). lia.
Qed.

Lemma at_most_try_finally {A} (e : env) (n : nat) (m : M A)
    (cleanup : server -> server) :
  at_most e n m -> at_most e n (try_finally m cleanup).
Proof.
  intros Hm w. unfold try_finally. specialize (Hm w).
  destruct (m e w) as [r w1]. exact Hm.
Qed.

(** The value of [useAiSolver] is the same all along the task. *)
Lemma at_most_ai_mode {B} (e : env) (n : nat) (k : bool -> M B) :
  at_most e n (k (useAiSolver e)) -> at_most e n (bind ai_mode k).
Proof. intros Hk w. exact (Hk w). Qed.

Lemma at_most_ai (e : env) : at_most e 0 ai_mode.
Proof. intros w. simpl. lia. Qed.

Lemma at_most_browser {A} (e : env) (answer : env -> nat -> A) :
  at_most e 0 (browser answer).
Proof.
  intros w. unfold browser. destruct (rejects e (clock w)); simpl; lia.
Qed.

Lemma at_most_evaluate {A} (e : env) (check : document -> A) :
  at_most e 0 (evaluate check).
Proof. apply at_most_browser. Qed.

Lemma at_most_query_iframe (e : env) : at_most e 0 query_iframe.
Proof. apply at_most_browser. Qed.

Lemma at_most_wait (e : env) (ms : nat) : at_most e 0 (wait ms).
Proof. intros w. simpl. lia. Qed.

Lemma at_most_screenshot (e : env) (t : threadId) (b : bool) :
  at_most e 0 (takeCaptchaScreenshot t b).
Proof.
  intros w. unfold takeCaptchaScreenshot.
  destruct (screenshot e (clock w)); [destruct b|]; simpl; lia.
Qed.

Lemma at_most_gemini (e : env) : at_most e 0 solveWithGemini.
Proof.
  intros w. unfold solveWithGemini. destruct (useAiSolver e); simpl; lia.
Qed.

Lemma at_most_await_solution (e : env) (t : threadId) :
  at_most e 0 (await_solution t).
Proof.
  intros w. unfold await_solution, Registry.waitForCaptchaSolution.
  match goal with |- context [advance e ?w0] => set (w1 := advance e w0) end.
  assert (clicks w1 = clicks w) as Hw by reflexivity. clearbody w1.
  destruct (Registry.resolutions (promises (srv w)) (srv w1)); simpl;
    rewrite Hw; lia.
Qed.

Lemma at_most_get_skip_flag (e : env) (t : threadId) : at_most e 0 (get_skip_flag t).
Proof. intros w. simpl. lia. Qed.

Lemma at_most_delete_skip_flag (e : env) (t : threadId) :
  at_most e 0 (delete_skip_flag t).
Proof. intros w. simpl. lia. Qed.

Lemma at_most_await_code (e : env) : at_most e 0 await_code.
Proof. intros w. simpl. lia. Qed.

Lemma at_most_await_alerts (e : env) : at_most e 0 await_alerts.
Proof. intros w. simpl. lia. Qed.

Lemma at_most_click_at (e : env) (x y : option Z) : at_most e 1 (click_at x y).
Proof.
  intros w. unfold click_at, browser. cbn [clock].
  destruct (rejects e (clock w)); simpl; rewrite length_app; simpl; lia.
Qed.

Create HintDb still.
#[local] Hint Resolve at_most_ret at_most_throw at_most_browser at_most_evaluate
  at_most_query_iframe at_most_wait at_most_screenshot at_most_gemini
  at_most_await_solution at_most_get_skip_flag at_most_delete_skip_flag
  at_most_await_code at_most_await_alerts at_most_ai : still.

(** Goes through a stretch of code that does not click. *)
Ltac still_tac :=
  repeat first
    [ match goal with |- forall _, _ => intro end
    | solve [auto with still]
    | apply at_most_ai_mode
    | apply (at_most_bind _ 0 0)
    | apply (at_most_try_catch _ 0 0)
    | match goal with
      | |- at_most _ _ (if ?b then _ else _) => destruct b
      | |- at_most _ _ (match ?x with _ => _ end) => destruct x
      end ].

(** Goes through the statements before the one that clicks. *)
Ltac upto_click :=
  repeat first
    [ match goal with |- forall _, _ => intro end
    | solve [apply at_most_0; auto with still]
    | apply at_most_ai_mode
    | match goal with
      | |- at_most _ ?n (bind _ _) =>
          apply (at_most_bind _ 0 n); [solve [still_tac]|]
      | |- at_most _ _ (if ?b then _ else _) => destruct b
      | |- at_most _ _ (match ?x with _ => _ end) => destruct x
      end ].

Lemma at_most_click_and_check (e : env) (t : threadId) (manual : bool)
    (c m : nat) (shot : option string) (x y : option Z) :
  at_most e 1 (click_and_check t manual c m shot x y).
Proof.
  unfold click_and_check. apply (at_most_bind _ 1 0); [apply at_most_click_at|].
  still_tac.
Qed.

Lemma at_most_retake (e : env) (t : threadId) (c m : nat) (shot : option string) :
  at_most e 0 (retake t c m shot).
Proof. unfold retake. still_tac. Qed.
#[local] Hint Resolve at_most_retake : still.

Lemma at_most_click_loop (e : env) (t : threadId) (m remaining : nat)
    (shot : option string) :
  at_most e remaining (click_loop t m remaining shot).
Proof.
  revert shot. induction remaining as [|remaining IH]; intros shot.
  - apply at_most_ret.
  - assert (forall (manual : bool) (x y : option Z),
              at_most e (S remaining)
                (exit <- try_catch
                           (click_and_check t manual (S (m - S remaining)) m
                                            shot x y)
                           (fun _ => ret (TryFalls shot)) ;;
                 match exit with
                 | TryReturns r => ret (Returns r)
                 | TryBreaks => ret (Ends true)
                 | TryFalls shot' => click_loop t m remaining shot'
                 end)) as Hclick.
    { intros manual x y. apply (at_most_bind _ 1 remaining).
      - apply (at_most_try_catch _ 1 0); [apply at_most_click_and_check|].
        intros _. apply at_most_ret.
      - intros [r| |shot']; [apply at_most_0, at_most_ret..|apply IH]. }
    rewrite click_loop_S. upto_click.
    + apply Hclick.
    + apply at_most_weaken with remaining; [apply IH|lia].
    + apply Hclick.
Qed.

Definition maxClickAttempts (e : env) : nat := if useAiSolver e then 3 else 2.

Lemma at_most_captcha_round (e : env) (t : threadId) (round : nat) :
  at_most e (maxClickAttempts e) (captcha_round t round).
Proof.
  unfold captcha_round. upto_click.
  apply at_most_first.
  - unfold maxClickAttempts. destruct (useAiSolver e); apply at_most_click_loop.
  - still_tac.
Qed.

Lemma at_most_captcha_rounds (e : env) (t : threadId) (rounds : list nat) :
  at_most e (length rounds * maxClickAttempts e) (captcha_rounds t rounds).
Proof.
  induction rounds as [|round rounds IH]; simpl.
  - still_tac.
  - apply at_most_bind; [apply at_most_captcha_round|].
    intros [r|]; [apply at_most_0, at_most_ret|apply IH].
Qed.

Lemma at_most_solveCaptchaManually (e : env) (t : threadId) :
  at_most e (maxCaptchaRounds * maxClickAttempts e) (solveCaptchaManually t).
Proof.
  unfold solveCaptchaManually.
  apply at_most_weaken with (maxCaptchaRounds * maxClickAttempts e + 0); [|lia].
  apply at_most_try_catch; [|intros ?; apply at_most_ret].
  upto_click. apply (at_most_captcha_rounds e t (seq 1 maxCaptchaRounds)).
Qed.

Lemma at_most_processAccount (e : env) (t : threadId) (address : string) :
  at_most e (maxCaptchaRounds * maxClickAttempts e) (processAccount t address).
Proof.
  unfold processAccount.
  apply at_most_weaken with (maxCaptchaRounds * maxClickAttempts e + 0); [|lia].
  apply at_most_try_catch; [|intros ?; apply at_most_ret].
  apply at_most_weaken with (maxCaptchaRounds * maxClickAttempts e + 0); [|lia].
  apply at_most_bind.
  - unfold captcha_stage. apply at_most_try_finally. upto_click.
    apply at_most_weaken with (maxCaptchaRounds * maxClickAttempts e + 0); [|lia].
    apply at_most_try_catch; [|intros ?; apply at_most_ret].
    unfold trigger_attempt. upto_click.
    apply at_most_first; [apply at_most_solveCaptchaManually|].
    still_tac.
  - unfold complete_form, acknowledge. still_tac.
Qed.

(** *** With the automated solver, nothing is sent to the clients *)

Lemma on_message_promises (m : Registry.message) (s : server) :
  promises (Registry.on_message m s) = promises s.
Proof.
  destruct (Registry.on_message_settle m s)
    as [->|[(t & _ & _ & ->)|[(t & p & _ & _ & ->)|(t & p & i & d & _ & _ & _ & ->)]]];
    reflexivity.
Qed.

Lemma advance_promises (e : env) (w : world) :
  promises (srv (advance e w)) = promises (srv w).
Proof.
  unfold advance. cbn [srv]. generalize (srv w).
  induction (incoming e (clock w)) as [|m ms IH]; intros s; simpl; [done|].
  by rewrite IH, on_message_promises.
Qed.

Lemma release_promises (t : threadId) (s : server) :
  promises (Arbiter.releaseCaptchaLock t s) = promises s.
Proof.
  unfold Arbiter.releaseCaptchaLock, Arbiter.processCaptchaQueue.
  case_decide; [|done]. simpl. by destruct (captchaQueue s).
Qed.

Lemma mute_ret {A} (e : env) (a : A) : mute e (ret a).
Proof. by intros w. Qed.

Lemma mute_throw {A} (e : env) (message : string) : mute e (@throw A message).
Proof. by intros w. Qed.

Lemma mute_bind {A B} (e : env) (m : M A) (k : A -> M B) :
  mute e m -> (forall a, mute e (k a)) -> mute e (bind m k).
Proof.
  intros Hm Hk w. unfold bind. specialize (Hm w).
  destruct (m e w) as [[a|message] w1]; simpl in *; [|done].
  destruct Hm as [<- <-]. apply Hk.
Qed.

Lemma mute_try_catch {A} (e : env) (m : M A) (h : string -> M A) :
  mute e m -> (forall message, mute e (h message)) -> mute e (try_catch m h).
Proof.
  intros Hm Hh w. unfold try_catch. specialize (Hm w).
  destruct (m e w) as [[a|message] w1]; simpl in *; [done|].
  destruct Hm as [<- <-]. apply Hh.
Qed.

Lemma mute_try_finally {A} (e : env) (m : M A) (cleanup : server -> server) :
  (forall s, promises (cleanup s) = promises s) ->
  mute e m -> mute e (try_finally m cleanup).
Proof.
  intros Hc Hm w. unfold try_finally. specialize (Hm w).
  destruct (m e w) as [r w1]. simpl in *. by rewrite Hc.
Qed.

Lemma mute_ai_mode {B} (e : env) (k : bool -> M B) :
  mute e (k (useAiSolver e)) -> mute e (bind ai_mode k).
Proof. intros Hk w. exact (Hk w). Qed.

Lemma mute_browser {A} (e : env) (answer : env -> nat -> A) : mute e (browser answer).
Proof.
  intros w. unfold browser.
  destruct (rejects e (clock w)); (split; [reflexivity|apply advance_promises]).
Qed.

Lemma mute_evaluate {A} (e : env) (check : document -> A) : mute e (evaluate check).
Proof. apply mute_browser. Qed.

Lemma mute_query_iframe (e : env) : mute e query_iframe.
Proof. apply mute_browser. Qed.

Lemma mute_wait (e : env) (ms : nat) : mute e (wait ms).
Proof. intros w. split; [reflexivity|apply advance_promises]. Qed.

(** [takeCaptchaScreenshot] with [sendToClients = false] *)
Lemma mute_screenshot (e : env) (t : threadId) :
  mute e (takeCaptchaScreenshot t false).
Proof.
  intros w. unfold takeCaptchaScreenshot.
  destruct (screenshot e (clock w)); (split; [reflexivity|apply advance_promises]).
Qed.

Lemma mute_gemini (e : env) : mute e solveWithGemini.
Proof.
  intros w. unfold solveWithGemini.
  destruct (useAiSolver e); [|done]. split; [reflexivity|apply advance_promises].
Qed.

Lemma mute_get_skip_flag (e : env) (t : threadId) : mute e (get_skip_flag t).
Proof. by intros w. Qed.

Lemma mute_delete_skip_flag (e : env) (t : threadId) : mute e (delete_skip_flag t).
Proof. by intros w. Qed.

Lemma mute_await_code (e : env) : mute e await_code.
Proof. intros w. split; [reflexivity|apply advance_promises]. Qed.

Lemma mute_await_alerts (e : env) : mute e await_alerts.
Proof. intros w. split; [reflexivity|apply advance_promises]. Qed.

Lemma mute_click_at (e : env) (x y : option Z) : mute e (click_at x y).
Proof.
  intros w. unfold click_at, browser. cbn [clock].
  destruct (rejects e (clock w)); (split; [reflexivity|]);
    exact (advance_promises e (World (srv w) (clock w) (clicks w ++ [(x, y)])
                                     (shown w))).
Qed.

Create HintDb mute.
#[local] Hint Resolve mute_ret mute_throw mute_browser mute_evaluate
  mute_query_iframe mute_wait mute_screenshot mute_gemini mute_get_skip_flag
  mute_delete_skip_flag mute_await_code mute_await_alerts mute_click_at : mute.

(** Goes through a stretch of code, with [useAiSolver] known to be set. *)
Ltac mute_tac ai :=
  repeat first
    [ match goal with |- forall _, _ => intro end
    | solve [auto with mute]
    | apply mute_ai_mode; rewrite ai; cbn [negb orb andb]
    | apply mute_bind
    | apply mute_try_catch
    | match goal with
      | |- mute _ (if ?b then _ else _) => destruct b
      | |- mute _ (match ?x with _ => _ end) => destruct x
      end ].

Section Automated.

Variable e : env.
Hypothesis ai : useAiSolver e = true.

Lemma mute_click_and_check (t : threadId) (c m : nat) (shot : option string)
    (x y : option Z) :
  mute e (click_and_check t false c m shot x y).
Proof. unfold click_and_check. mute_tac ai. Qed.
#[local] Hint Resolve mute_click_and_check : mute.

Lemma mute_retake (t : threadId) (c m : nat) (shot : option string) :
  mute e (retake t c m shot).
Proof. unfold retake. mute_tac ai. Qed.
#[local] Hint Resolve mute_retake : mute.

Lemma mute_click_loop (t : threadId) (m remaining : nat) (shot : option string) :
  mute e (click_loop t m remaining shot).
Proof.
  revert shot. induction remaining as [|remaining IH]; intros shot.
  - apply mute_ret.
  - rewrite click_loop_S. mute_tac ai.
Qed.
#[local] Hint Resolve mute_click_loop : mute.

Lemma mute_captcha_round (t : threadId) (round : nat) :
  mute e (captcha_round t round).
Proof. unfold captcha_round. mute_tac ai. Qed.
#[local] Hint Resolve mute_captcha_round : mute.

Lemma mute_captcha_rounds (t : threadId) (rounds : list nat) :
  mute e (captcha_rounds t rounds).
Proof. induction rounds as [|round rounds IH]; simpl; mute_tac ai. Qed.
#[local] Hint Resolve mute_captcha_rounds : mute.

Lemma mute_processAccount (t : threadId) (address : string) :
  mute e (processAccount t address).
Proof.
  unfold processAccount, captcha_stage, trigger_attempt, solveCaptchaManually,
    complete_form, acknowledge.
  apply mute_try_catch; [|mute_tac ai]. apply mute_bind; [|mute_tac ai].
  apply mute_try_finally; [apply release_promises|]. mute_tac ai.
Qed.

End Automated.

(** *** The properties *)

(** X1.  Whatever the browser, the solver, the inbox and the clients do,
    [processAccount] (from the grant of the captcha turn) resolves, and it
    resolves with one of three objects: [{success: true, email, threadId}],
    [{success: false, skipped: true, threadId}] or [{success: false, error,
    threadId}].  It never rejects, the result carries the thread id of the
    task, and no result is both a success and a skip. *)
Theorem task_result_shapes (t : threadId) (address : string) (e : env) (w : world) :
  exists r w',
    processAccount t address e w = (Value r, w') /\
    shape t address r /\
    res_threadId r = t /\
    (success r = true -> skipped r = false) /\
    (error r = None <-> success r = true \/ skipped r = true).
Proof.
  assert (exists r w', processAccount t address e w = (Value r, w') /\
                       shape t address r) as (r & w' & Hrun & Hshape).
  { unfold processAccount, try_catch.
    match goal with |- context [match ?x with (_, _) => _ end] =>
      destruct x as [[r|message] w1] eqn:Hbody end.
    2: { eexists _, _. split; [reflexivity|]. constructor. }
    exists r, w1. split; [reflexivity|]. revert Hbody. unfold bind at 1.
    destruct (captcha_stage t e w) as [[[r'|[]]|?] w2] eqn:Hstage;
      try (intros [=]; fail).
    - intros [= -> _]. apply stage_returns_skip in Hstage as ->. constructor.
    - unfold bind at 1. destruct (await_code e w2) as [[[code|]|?] w3];
        try (intros [=]; fail).
      unfold bind at 1. destruct (complete_form e w3) as [[[]|?] w4];
        [|intros [=]].
      unfold bind at 1. destruct (await_alerts e w4) as [[a|?] w5];
        [|intros [=]].
      intros ->%acknowledge_shape. constructor. }
  exists r, w'. split; [exact Hrun|]. split; [exact Hshape|].
  destruct Hshape; simpl; repeat split; try done; try tauto.
  - intros [[=]|[=]].
Qed.

(** X2.  Whatever happens, one task clicks at most six times in the
    captcha frame with the automated solver (two rounds of three attempts)
    and at most four times with a user who answers (two rounds of two). *)
Theorem clicks_per_task (t : threadId) (address : string) (e : env) (w : world) :
  length (clicks (snd (processAccount t address e w)))
  <= length (clicks w) + (if useAiSolver e then 6 else 4).
Proof.
  pose proof (at_most_processAccount e t address w) as Hle.
  unfold maxClickAttempts, maxCaptchaRounds in Hle.
  destruct (useAiSolver e); simpl in Hle; exact Hle.
Qed.

(** X3.  With the automated solver on, a task never turns to the user:
    whatever happens, it sends no captcha to the clients and it never
    waits for an answer of theirs. *)
Theorem automated_task_is_silent (t : threadId) (address : string) (e : env)
    (w : world) :
  useAiSolver e = true ->
  shown (snd (processAccount t address e w)) = shown w /\
  promises (srv (snd (processAccount t address e w))) = promises (srv w).
Proof. intros ai. by apply mute_processAccount. Qed.

Lemma automated_task_is_silent_witness :
  shown (snd (processAccount 1 "user@example.com" stubborn_captcha (turn_granted 1)))
  = [] /\
  promises (srv (snd (processAccount 1 "user@example.com" stubborn_captcha
                                     (turn_granted 1)))) = 0.
Proof.
  apply (automated_task_is_silent 1 "user@example.com" stubborn_captcha
                                  (turn_granted 1)).
  reflexivity.
Defined.

(** X4.  The dialog handler of the last stage keeps its two variables in
    step: after any alerts, [invitationAlertSeen] is set exactly when
    [invitationStatus] is; neither [flameAlertSeen] nor
    [invitationAlertSeen] is ever reset; and an alert that says neither
    that the user was already invited nor that the invitation went through
    leaves the status as it is. *)
Theorem alerts_in_step (messages : list string) :
  let a := fold_left on_dialog messages no_alert in
  (invitationAlertSeen a = true <-> is_Some (invitationStatus a)) /\
  (forall message,
      (flameAlertSeen a = true -> flameAlertSeen (on_dialog a message) = true) /\
      (invitationAlertSeen a = true ->
       invitationAlertSeen (on_dialog a message) = true) /\
      (invitationStatus (on_dialog a message) <> invitationStatus a ->
       invitationAlertSeen (on_dialog a message) = true)).
Proof.
  assert (forall a message,
             (invitationAlertSeen a = true <-> is_Some (invitationStatus a)) ->
             (invitationAlertSeen (on_dialog a message) = true <->
              is_Some (invitationStatus (on_dialog a message)))) as Hstep.
  { intros a message Ha. unfold on_dialog.
    repeat match goal with |- context [if ?c then _ else _] => destruct c end;
      simpl; try exact Ha; split; eauto. }
  assert (forall ms a,
             (invitationAlertSeen a = true <-> is_Some (invitationStatus a)) ->
             let a' := fold_left on_dialog ms a in
             invitationAlertSeen a' = true <-> is_Some (invitationStatus a'))
    as Hall.
  { induction ms as [|m ms IH]; intros a Ha; simpl; [exact Ha|].
    apply IH, Hstep, Ha. }
  intros a. split.
  - apply Hall. simpl. split; [done|]. by intros [? [=]].
  - intros message. unfold on_dialog.
    repeat match goal with |- context [if ?c then _ else _] => destruct c end;
      simpl; repeat split; try done.
Qed.

End Conduct.

(** ** The books of a run *)

Module Ledger.

Import Scheduler.

Section Books.

Variable task : threadId -> Task.result.
Variables N A : Z.

(** What every turn of the loop keeps, whatever the target and the limit
    on the threads are. *)
Record in_step (s : state) : Prop := {
  step_results : results s = task <$> seq 1 (totalAttempts s);
  step_count : successfulCount s = successes (results s)
}.

Lemma in_step_initial : in_step (initial A).
Proof. by split. Qed.

Lemma in_step_batch (s : state) : in_step s -> in_step (batch task N A s).
Proof.
  intros [Hr Hc]. split; simpl.
  - rewrite Hr at 1. rewrite seq_app, fmap_app. reflexivity.
  - unfold successes in *. rewrite filter_app, length_app. lia.
Qed.

Lemma in_step_loop (fuel : nat) (s s' : state) :
  in_step s -> loop task N A fuel s = Some s' -> in_step s'.
Proof.
  revert s. induction fuel as [|fuel IH]; intros s Hs; simpl;
    destruct (goes_on N s); try congruence.
  apply IH, in_step_batch, Hs.
Qed.

(** The state before the [k]-th turn of the loop. *)
Definition turn_state (k : nat) : state := Nat.iter k (batch task N A) (initial A).

Lemma loop_turn_state (fuel : nat) (k : nat) (s' : state) :
  loop task N A fuel (turn_state k) = Some s' -> exists k', s' = turn_state k'.
Proof.
  revert k. induction fuel as [|fuel IH]; intros k; simpl;
    destruct (goes_on N (turn_state k)); try congruence.
  - intros [= <-]. by exists k.
  - intros H. apply (IH (S k)). exact H.
  - intros [= <-]. by exists k.
Qed.

End Books.

(** How the results split: a result counts as a success, as a skip or as
    a failure. *)
Lemma results_split (rs : list Task.result) :
  Forall (fun r => Task.success r = true -> Task.skipped r = false) rs ->
  successes rs
  + length (filter (fun r => Task.skipped r = true) rs)
  + length (filter (fun r => Task.success r = false /\ Task.skipped r = false) rs)
  = length rs.
Proof.
  unfold successes. induction 1 as [|r rs Hr _ IH]; [done|].
  rewrite !filter_cons. simpl.
  destruct (Task.success r), (Task.skipped r); simpl in *;
    repeat case_decide; simpl; try lia; try (exfalso; tauto).
Qed.

Lemma ratio_0_1_low : (Sizing.ratio 0 1 <? Sizing.low_rate)%float = true.
Proof. vm_compute. reflexivity. Qed.

(** X5.  In a run, the [k]-th attempt is the task with thread id [k]: the
    results are those of the thread ids 1, 2, ... up to the number of
    attempts, in this order, whatever the sizes of the batches were.  When
    each result carries the id of its task, as those of [processAccount]
    do, the ids of the results are pairwise distinct. *)
Theorem thread_ids_count_attempts (task : threadId -> Task.result) (N A : Z)
    (fuel : nat) (s : state) :
  loop task N A fuel (initial A) = Some s ->
  results s = task <$> seq 1 (totalAttempts s) /\
  length (results s) = totalAttempts s /\
  ((forall t, Task.res_threadId (task t) = t) ->
   Task.res_threadId <$> results s = seq 1 (totalAttempts s) /\
   NoDup (Task.res_threadId <$> results s)).
Proof.
  intros Hloop.
  destruct (in_step_loop task N A fuel _ s (in_step_initial task A) Hloop)
    as [Hr _].
  split; [exact Hr|]. split.
  - by rewrite Hr, length_fmap, length_seq.
  - intros Hid.
    assert (Task.res_threadId <$> results s = seq 1 (totalAttempts s)) as Hids.
    { rewrite Hr, <- list_fmap_compose.
      rewrite (list_fmap_ext (Task.res_threadId ∘ task) id);
        [by rewrite list_fmap_id|].
      intros i t _. apply Hid. }
    split; [exact Hids|]. rewrite Hids. apply NoDup_seq.
Qed.

Lemma thread_ids_count_attempts_witness :
  exists s,
    loop always_fails 3 6 24 (initial 6) = Some s /\
    Task.res_threadId <$> results s = seq 1 25.
Proof.
  eexists. split; [vm_compute; reflexivity|].
  refine (proj1 (proj2 (proj2
    (thread_ids_count_attempts always_fails 3 6 24 _ _)) _)).
  - vm_compute. reflexivity.
  - intros t. reflexivity.
Defined.

(** X6.  The summary of a run adds up: when no result is both a success
    and a skip, as is the case for the results of [processAccount], the
    successes, the skipped and the failed of the summary are together the
    attempts made. *)
Theorem summary_adds_up (task : threadId -> Task.result) (N maxThreads : Z)
    (fuel : nat) (sm : summary) :
  (forall t, Task.success (task t) = true -> Task.skipped (task t) = false) ->
  generate task N maxThreads fuel = Some sm ->
  actualSuccessful sm + summary_skipped sm + summary_failed sm
  = summary_totalAttempts sm /\
  targetSuccessful sm = N.
Proof.
  intros Hexcl. unfold generate.
  destruct (loop _ _ _ _ _) as [s|] eqn:Hloop; [|done]. intros [= <-].
  destruct (in_step_loop task N _ fuel _ s (in_step_initial task _) Hloop)
    as [Hr Hc].
  split; [|reflexivity]. simpl. rewrite Hc.
  rewrite results_split.
  - by rewrite Hr, length_fmap, length_seq.
  - rewrite Hr. apply Forall_fmap, Forall_forall. intros t _. exact (Hexcl t).
Qed.

Lemma summary_adds_up_witness :
  generate always_fails 3 6 24 = Some (Summary 3 0 25 0 25) /\
  0 + 0 + 25 = 25.
Proof.
  split; [vm_compute; reflexivity|].
  refine (proj1 (summary_adds_up always_fails 3 6 24 (Summary 3 0 25 0 25) _ _)).
  - intros t. simpl. discriminate.
  - vm_compute. reflexivity.
Defined.

(** X7.  When the request allows two threads or more, every batch of the
    run starts with at least two and at most [min(maxThreads, 6)] threads,
    and it starts no more tasks than that. *)
Theorem threads_within_limit (task : threadId -> Task.result) (N maxThreads : Z)
    (k : nat) :
  (2 <= maxThreads)%Z ->
  let A := Z.min maxThreads MAX_THREADS in
  let s := turn_state task N A k in
  (2 <= currentThreads s <= A)%Z /\
  (batchSize N s <= A)%Z /\
  (forall fuel s', loop task N A fuel (initial A) = Some s' ->
                   (2 <= currentThreads s' <= A)%Z).
Proof.
  intros Hmax A.
  assert (2 <= A <= 6)%Z as HA by (unfold A, MAX_THREADS; lia).
  assert (forall k, 2 <= currentThreads (turn_state task N A k) <= A)%Z as Hall.
  { clear k. induction k as [|k IH]; simpl.
    - lia.
    - unfold Sizing.calculateOptimalBatchSize.
      fold (turn_state task N A k).
      destruct (_ <? _)%float; [lia|]. destruct (_ <? _)%float; lia. }
  intros s. split; [apply Hall|]. split.
  - unfold batchSize. specialize (Hall k). fold s in Hall. lia.
  - intros fuel s' Hloop.
    destruct (loop_turn_state task N A fuel 0 s' Hloop) as [k' ->]. apply Hall.
Qed.

Lemma threads_within_limit_witness :
  (2 <= currentThreads (turn_state always_fails 3 (Z.min 6 MAX_THREADS) 2)
   <= Z.min 6 MAX_THREADS)%Z.
Proof.
  refine (proj1 (threads_within_limit always_fails 3 6 2 _)). lia.
Defined.

(** X8.  A limit of one thread does not hold: the thread count goes down
    to 2 at least, not to the limit.  For [maxThreads = 1] the first batch
    is one task; when it fails, the rate 0 brings the count to
    [max(1 - 1, 2) = 2], and the next batch starts two tasks. *)
Theorem one_thread_limit_is_exceeded (task : threadId -> Task.result) (N : Z) :
  (2 <= N)%Z ->
  Task.success (task 1) = false ->
  let A := Z.min 1 MAX_THREADS in
  currentThreads (initial A) = 1%Z /\
  batchSize N (initial A) = 1%Z /\
  currentThreads (turn_state task N A 1) = 2%Z /\
  batchSize N (turn_state task N A 1) = 2%Z.
Proof.
  intros HN Hfail A. subst A. change (Z.min 1 MAX_THREADS) with 1%Z.
  unfold turn_state, batch, batchSize. simpl.
  change (Z.min 3 1) with 1%Z. change (Z.of_nat 0) with 0%Z.
  replace (Z.min 1 (N - 0))%Z with 1%Z by lia.
  change (Z.to_nat 1) with 1. cbn [seq fmap list_fmap length].
  unfold successes. rewrite filter_cons, filter_nil.
  rewrite decide_False by (rewrite Hfail; done).
  change (Z.of_nat (length [])) with 0%Z. change (Z.of_nat 1) with 1%Z.
  unfold Sizing.calculateOptimalBatchSize.
  rewrite (Sizing.below_not_above (Sizing.ratio 0 1) ratio_0_1_low), ratio_0_1_low.
  repeat split; lia.
Qed.

Lemma one_thread_limit_is_exceeded_witness :
  currentThreads (turn_state always_fails 3 (Z.min 1 MAX_THREADS) 1) = 2%Z.
Proof.
  refine (proj1 (proj2 (proj2
    (one_thread_limit_is_exceeded always_fails 3 _ _)))).
  - lia.
  - reflexivity.
Defined.

End Ledger.

(** ** The shared browser *)

Module Chromium.

(** A browser is named by the number of launches made before its own. *)
Abbreviation browser := nat (only parsing).

Definition MAX_BROWSER_USES : nat := 15.

Record t := Make {
  browserInstance : option browser;   (* let browserInstance = null *)
  browserUseCount : nat;              (* let browserUseCount = 0 *)
  launched : nat;                     (* calls of puppeteer.launch that gave a browser *)
  handed : list browser               (* what getOrCreateBrowser returned, oldest first *)
}.

Definition initial : t := Make None 0 0 [].

(** How [getOrCreateBrowser] leaves its first stretch: with a [return],
    or suspended on [browserInstance.close()], or on [puppeteer.launch]. *)
Inductive entered :=
| Returns (b : browser)
| AwaitsClose (b : browser)
| AwaitsLaunch.

(** [getOrCreateBrowser(proxyConfig)] up to its first [await]; the proxy
    only adds an argument to the launch. *)
Definition getOrCreateBrowser (s : t) : entered * t :=
  match browserInstance s with
  | Some b =>
      if decide (browserUseCount s < MAX_BROWSER_USES) then
        (Returns b,
         Make (browserInstance s) (S (browserUseCount s)) (launched s)
              (handed s ++ [b]))
      else (AwaitsClose b, s)
  | None => (AwaitsLaunch, s)
  end.

(** After [await browserInstance.close()], whether it threw or not:
    [browserInstance = null], and the launch is started. *)
Definition after_close (s : t) : t :=
  Make None (browserUseCount s) (launched s) (handed s).

(** After [await puppeteer.launch(...)]: with a browser ([ok]) it becomes
    the instance, with one use, and is returned; otherwise the call
    rejects and the variables stay. *)
Definition after_launch (ok : bool) (s : t) : option browser * t :=
  if ok then
    (Some (launched s),
     Make (Some (launched s)) 1 (S (launched s)) (handed s ++ [launched s]))
  else (None, s).

(** [/api/cleanup] after its [await browserInstance.close()]: the two
    assignments are skipped when [close] threw. *)
Definition cleanup_closed (ok : bool) (s : t) : t :=
  if ok then Make None 0 (launched s) (handed s) else s.

(** The [finally] of [/api/generate] after [await browser.close()]. *)
Definition generate_closed (ok : bool) (s : t) : t :=
  if ok then Make None (browserUseCount s) (launched s) (handed s) else s.

(** The stretches of code that touch the two variables, in the order in
    which the event loop runs them. *)
Inductive event :=
| Enter
| Closed
| Launched (ok : bool)
| CleanupClosed (ok : bool)
| GenerateClosed (ok : bool).

Definition step (s : t) (ev : event) : t :=
  match ev with
  | Enter => snd (getOrCreateBrowser s)
  | Closed => after_close s
  | Launched ok => snd (after_launch ok s)
  | CleanupClosed ok => cleanup_closed ok s
  | GenerateClosed ok => generate_closed ok s
  end.

Definition run (evs : list event) (s : t) : t := fold_left step evs s.

(** How many times [b] was handed out. *)
Definition uses (b : browser) (s : t) : nat :=
  length (filter (fun b' => b' = b) (handed s)).

(** *** Properties *)

Record counted (s : t) : Prop := {
  counted_known : forall b, b ∈ handed s -> b < launched s;
  counted_instance : forall b, browserInstance s = Some b ->
                               b < launched s /\ uses b s = browserUseCount s /\
                               1 <= browserUseCount s;
  counted_uses : forall b, uses b s <= MAX_BROWSER_USES
}.

Lemma uses_snoc (b b' : browser) (s : t) (i : option browser) (c n : nat) :
  uses b (Make i c n (handed s ++ [b'])) =
  uses b s + (if decide (b' = b) then 1 else 0).
Proof.
  unfold uses. simpl. rewrite filter_app, length_app, filter_cons, filter_nil.
  by case_decide.
Qed.

Lemma uses_unknown (b : browser) (s : t) :
  (forall b', b' ∈ handed s -> b' < launched s) -> launched s <= b -> uses b s = 0.
Proof.
  intros Hk Hb. unfold uses.
  destruct (filter (fun b' => b' = b) (handed s)) as [|x l] eqn:Hf; [done|].
  assert (x ∈ filter (fun b' => b' = b) (handed s)) as Hx
    by (rewrite Hf; apply list_elem_of_here).
  apply list_elem_of_filter in Hx as [-> Hin]. apply Hk in Hin. lia.
Qed.

Lemma counted_initial : counted initial.
Proof.
  split; simpl.
  - intros b Hb. by apply elem_of_nil in Hb.
  - intros b [=].
  - intros b. unfold uses. simpl. unfold MAX_BROWSER_USES. lia.
Qed.

Lemma counted_step (s : t) (ev : event) : counted s -> counted (step s ev).
Proof.
  intros Hs. pose proof Hs as [Hk Hi Hu].
  destruct ev as [| |[]|[]|[]]; simpl; try exact Hs.
  - unfold getOrCreateBrowser.
    destruct (browserInstance s) as [b|] eqn:Hb; [|done].
    case_decide as Hlt; [|done]. simpl.
    destruct (Hi b eq_refl) as (Hold & Huses & Hone).
    split; simpl.
    + intros b' [Hin| ->%list_elem_of_singleton]%elem_of_app; auto.
    + intros b' [= <-]. rewrite uses_snoc, decide_True by done.
      split; [done|]. lia.
    + intros b'. rewrite uses_snoc. case_decide as Heq.
      * subst b'. lia.
      * specialize (Hu b'). lia.
  - unfold after_close. split; simpl; [exact Hk|intros b [=]|exact Hu].
  - split; simpl.
    + intros b [Hin| ->%list_elem_of_singleton]%elem_of_app; [|lia].
      apply Hk in Hin. lia.
    + intros b [= <-]. rewrite uses_snoc, decide_True by done.
      rewrite (uses_unknown (launched s) s Hk) by lia. lia.
    + intros b. rewrite uses_snoc. case_decide as Heq.
      * subst b. rewrite (uses_unknown (launched s) s Hk) by lia.
        unfold MAX_BROWSER_USES. lia.
      * specialize (Hu b). lia.
  - split; simpl; [exact Hk|intros b [=]|exact Hu].
  - split; simpl; [exact Hk|intros b [=]|exact Hu].
Qed.

Lemma counted_run (evs : list event) (s : t) : counted s -> counted (run evs s).
Proof.
  revert s. induction evs as [|ev evs IH]; intros s Hs; simpl; [done|].
  apply IH, counted_step, Hs.
Qed.

(** X9.  However the calls of [getOrCreateBrowser], of [/api/cleanup] and
    of the end of [/api/generate] interleave: no browser is handed out more
    than [MAX_BROWSER_USES = 15] times, and while a browser is the current
    instance, [browserUseCount] is the number of times it was handed out,
    between 1 and 15. *)
Theorem browser_uses_bounded (evs : list event) (b : browser) :
  let s := run evs initial in
  uses b s <= 15 /\
  (browserInstance s = Some b ->
   browserUseCount s = uses b s /\ 1 <= browserUseCount s <= 15).
Proof.
  intros s. destruct (counted_run evs initial counted_initial) as [Hk Hi Hu].
  fold s in Hk, Hi, Hu. split; [apply Hu|].
  intros Hb. destruct (Hi b Hb) as (_ & Huses & Hone).
  specialize (Hu b). unfold MAX_BROWSER_USES in Hu. lia.
Qed.

(** X10.  A browser that is the instance with [c] uses is returned by the
    next [15 - c] calls of [getOrCreateBrowser]; the call after them does
    not return it: it closes it, and [browserInstance] is [null] until the
    launch of the next browser ends. *)
Theorem browser_is_replaced (s : t) (b : browser) :
  browserInstance s = Some b -> browserUseCount s <= MAX_BROWSER_USES ->
  let n := MAX_BROWSER_USES - browserUseCount s in
  let s' := run (replicate n Enter) s in
  handed s' = handed s ++ replicate n b /\
  browserInstance s' = Some b /\
  browserUseCount s' = MAX_BROWSER_USES /\
  getOrCreateBrowser s' = (AwaitsClose b, s') /\
  browserInstance (after_close s') = None /\
  after_launch true (after_close s')
  = (Some (launched s),
     Make (Some (launched s)) 1 (S (launched s))
          (handed s ++ replicate n b ++ [launched s])).
Proof.
  intros Hb Hc n.
  assert (forall k s0,
             browserInstance s0 = Some b ->
             browserUseCount s0 + k <= MAX_BROWSER_USES ->
             run (replicate k Enter) s0
             = Make (Some b) (browserUseCount s0 + k) (launched s0)
                    (handed s0 ++ replicate k b)) as Hrun.
  { induction k as [|k IH]; intros s0 Hb0 Hc0; simpl.
    - rewrite Nat.add_0_r, app_nil_r. destruct s0; simpl in *. by subst.
    - unfold getOrCreateBrowser at 1. rewrite Hb0.
      rewrite decide_True by lia. simpl. rewrite IH; simpl; [|done|lia].
      rewrite <- app_assoc. f_equal. lia. }
  intros s'. unfold s'. rewrite (Hrun n s Hb) by (unfold n; lia).
  replace (browserUseCount s + n) with MAX_BROWSER_USES by (unfold n; lia).
  simpl. repeat split.
  unfold after_launch, after_close. simpl. by rewrite <- app_assoc.
Qed.

Lemma browser_is_replaced_witness :
  handed (run (replicate 14 Enter) (snd (after_launch true initial)))
  = replicate 15 0 /\
  getOrCreateBrowser (run (replicate 14 Enter) (snd (after_launch true initial)))
  = (AwaitsClose 0, Make (Some 0) 15 1 (replicate 15 0)).
Proof.
  destruct (browser_is_replaced (snd (after_launch true initial)) 0)
    as (Hh & _ & _ & Hg & _); [reflexivity|simpl; unfold MAX_BROWSER_USES; lia|].
  split; [exact Hh|exact Hg].
Defined.

End Chromium.

(** ** Texts *)

Module Text.

Import Task.

Local Open Scope string_scope.

Lemma substring_front (s post : string) :
  substring 0 (String.length s) (s ++ post) = s.
Proof.
  induction s as [|c s IH]; simpl; [by destruct post|]. by rewrite IH.
Qed.

Lemma substring_middle (pre s post : string) :
  substring (String.length pre) (String.length s) (pre ++ s ++ post) = s.
Proof.
  induction pre as [|c pre IH]; simpl; [exact (substring_front s post)|exact IH].
Qed.

Lemma substring_head (n : nat) (s t : string) :
  substring 0 n s = t -> String.length t = n -> exists post, s = t ++ post.
Proof.
  revert s t. induction n as [|n IH]; intros s t.
  - destruct s; simpl; intros <- _; by eexists.
  - destruct s as [|c s]; simpl; [intros <-; discriminate|].
    intros <- [= Hlen]. destruct (IH s _ eq_refl Hlen) as (post & Hs).
    exists post. change (String c s = String c (substring 0 n s ++ post)).
    by f_equal.
Qed.

Lemma substring_split (m n : nat) (s t : string) :
  substring m n s = t -> String.length t = n ->
  exists pre post, s = pre ++ t ++ post.
Proof.
  revert s. induction m as [|m IH]; intros s Hsub Hlen.
  - destruct (substring_head n s t Hsub Hlen) as [post ->]. by exists EmptyString, post.
  - destruct s as [|c s]; simpl in Hsub.
    + subst t. by exists EmptyString, EmptyString.
    + destruct (IH s Hsub Hlen) as (pre & post & ->).
      by exists (String c pre), post.
Qed.

(** [hay.includes(needle)] holds when [needle] occurs in [hay]. *)
Lemma includes_spec (hay needle : string) :
  includes hay needle = true <-> exists pre post, hay = pre ++ needle ++ post.
Proof.
  unfold includes. split.
  - destruct (index 0 needle hay) as [m|] eqn:Hi; [|done]. intros _.
    apply index_correct1 in Hi. by apply substring_split in Hi.
  - intros (pre & post & ->).
    destruct (index 0 needle (pre ++ needle ++ post)) as [m|] eqn:Hi; [done|].
    exfalso. destruct needle as [|c needle].
    + apply index_correct4 in Hi. lia.
    + apply (index_correct3 0 (String.length pre)) in Hi; [|done|lia].
      apply Hi, substring_middle.
Qed.

Lemma append_assoc (a b c : string) : (a ++ b) ++ c = a ++ b ++ c.
Proof.
  induction a as [|x a IH]; [reflexivity|].
  change (String x ((a ++ b) ++ c) = String x (a ++ b ++ c)). by rewrite IH.
Qed.

(** A text that includes [mid] includes what [mid] includes. *)
Lemma includes_trans (hay mid needle : string) :
  includes hay mid = true -> includes mid needle = true ->
  includes hay needle = true.
Proof.
  rewrite !includes_spec. intros (p1 & q1 & ->) (p2 & q2 & ->).
  exists (p1 ++ p2), (q2 ++ q1). by rewrite !append_assoc.
Qed.

Lemma includes_append (pre needle post : string) :
  includes (pre ++ needle ++ post) needle = true.
Proof. apply includes_spec. by exists pre, post. Qed.

End Text.

(** ** What the pages are allowed to load *)

Module Filter.

Import Task.

Local Open Scope string_scope.

(** What the handler of the [request] event does with a request. *)
Inductive decision := Continue | Abort.

(** [isCaptchaResource] *)
Definition isCaptchaResource (url : string) : bool :=
  includes url "captcha"
  || includes url "t.captcha"
  || includes url "ssl.captcha"
  || includes url "tcaptcha"
  || includes url "qq.com".

(** [page.on('request', ...)] of [setupOptimizedPage]: [resourceType] is
    [req.resourceType()] and [url] is [req.url()]. *)
Definition on_request (resourceType url : string) : decision :=
  if isCaptchaResource url then Continue
  else if String.eqb resourceType "image"
          || String.eqb resourceType "stylesheet"
          || String.eqb resourceType "font"
          || String.eqb resourceType "media"
          || includes url "google-analytics"
          || includes url "facebook"
          || includes url "doubleclick"
          || includes url "tracking"
          || includes url ".woff"
          || includes url ".ttf"
       then Abort
       else Continue.

(** X11.  The request filter lets every request through whose URL
    contains [captcha] or [qq.com], whatever the request is for (the three
    other tests of [isCaptchaResource] add nothing to these two).  Of the
    other requests it aborts the images, style sheets, fonts and media,
    and those whose URL contains one of the six listed strings; it lets
    the rest through. *)
Theorem captcha_resources_load (resourceType url : string) :
  isCaptchaResource url = includes url "captcha" || includes url "qq.com" /\
  (includes url "captcha" = true \/ includes url "qq.com" = true ->
   on_request resourceType url = Continue) /\
  (includes url "captcha" = false -> includes url "qq.com" = false ->
   (on_request resourceType url = Abort <->
    resourceType = "image" \/ resourceType = "stylesheet" \/
    resourceType = "font" \/ resourceType = "media" \/
    includes url "google-analytics" = true \/ includes url "facebook" = true \/
    includes url "doubleclick" = true \/ includes url "tracking" = true \/
    includes url ".woff" = true \/ includes url ".ttf" = true)).
Proof.
  assert (isCaptchaResource url = includes url "captcha" || includes url "qq.com")
    as Hcaptcha.
  { unfold isCaptchaResource.
    destruct (includes url "captcha") eqn:Hc; [reflexivity|]. simpl.
    assert (forall mid, includes mid "captcha" = true -> includes url mid = false)
      as Hmid.
    { intros mid Hm. destruct (includes url mid) eqn:Hu; [|done].
      by rewrite (Text.includes_trans _ _ _ Hu Hm) in Hc. }
    rewrite !Hmid by (vm_compute; reflexivity). reflexivity. }
  split; [exact Hcaptcha|]. unfold on_request. rewrite Hcaptcha. split.
  - intros [-> | ->]; by rewrite ?orb_true_r.
  - intros -> ->. simpl.
    rewrite <- !String.eqb_eq.
    repeat match goal with |- context [String.eqb ?a ?b] =>
             destruct (String.eqb a b) end;
      repeat match goal with |- context [includes ?a ?b] =>
               destruct (includes a b) end;
      simpl; split; intros H; try done; try tauto;
      repeat destruct H as [H|H]; try done.
Qed.

End Filter.

(** ** The reply of the model *)

Module Reply.

(** A JavaScript string is a sequence of UTF-16 code units. *)
Definition text : Type := list N.

(** The code units of a text of ASCII characters. *)
Definition units (s : string) : text := N_of_ascii <$> list_ascii_of_string s.

Local Open Scope N_scope.

(** The white space and the line terminators of ECMAScript: what
    [String.prototype.trim] removes and what [parseInt] skips. *)
Definition isWhiteSpace (c : N) : bool :=
  match c with
  | 0x09 | 0x0A | 0x0B | 0x0C | 0x0D | 0x20 | 0xA0 | 0x1680
  | 0x2028 | 0x2029 | 0x202F | 0x205F | 0x3000 | 0xFEFF => true
  | _ => (0x2000 <=? c) && (c <=? 0x200A)
  end.

Fixpoint trimStart (s : text) : text :=
  match s with
  | c :: s' => if isWhiteSpace c then trimStart s' else s
  | [] => []
  end.

Fixpoint trimEnd (s : text) : text :=
  match s with
  | c :: s' =>
      match trimEnd s' with
      | [] => if isWhiteSpace c then [] else [c]
      | rest => c :: rest
      end
  | [] => []
  end.

(** [text.trim()] *)
Definition trim (s : text) : text := trimEnd (trimStart s).

(** The value of a code unit as a digit of the radix, if it is one:
    [0-9], then [a-z] or [A-Z] for ten and more. *)
Definition digit (radix c : N) : option N :=
  let value :=
    if (48 <=? c) && (c <=? 57) then Some (c - 48)
    else if (97 <=? c) && (c <=? 122) then Some (c - 87)
    else if (65 <=? c) && (c <=? 90) then Some (c - 55)
    else None in
  match value with
  | Some d => if d <? radix then Some d else None
  | None => None
  end.

(** The number that the longest prefix of digits denotes; [acc] is the
    value of the digits read so far, [None] when none was read. *)
Fixpoint number (radix : N) (s : text) (acc : option N) : option N :=
  match s with
  | c :: s' =>
      match digit radix c with
      | Some d => number radix s' (Some (default 0 acc * radix + d))
      | None => acc
      end
  | [] => acc
  end.

(** [parseInt(string)] without a radix: white space is skipped, a sign is
    read, [0x] or [0X] selects radix 16, and the digits that follow are
    read up to the first character that is not one.  [None] is [NaN].  The
    result is kept exact; JavaScript rounds it to a binary64 number, which
    changes nothing for the comparisons with 1 and 6 that follow. *)
Definition parseInt (input : text) : option Z :=
  let s := trimStart input in
  let '(negative, s) :=
    match s with
    | c :: s' =>
        if c =? 45 then (true, s') else if c =? 43 then (false, s')
        else (false, s)
    | [] => (false, s)
    end in
  let '(radix, s) :=
    match s with
    | c :: x :: s' =>
        if (c =? 48) && ((x =? 120) || (x =? 88)) then (16, s') else (10, s)
    | _ => (10, s)
    end in
  match number radix s None with
  | Some n => Some (if negative : bool then (- Z.of_N n)%Z else Z.of_N n)
  | None => None
  end.

(** The second half of [solveWithGemini]: [response.text().trim()],
    [parseInt] and the test [position >= 1 && position <= 6]; [None] is
    the [null] it returns for an invalid position. *)
Definition position_of (reply : text) : option Z :=
  match parseInt (trim reply) with
  | Some position =>
      if ((1 <=? position) && (position <=? 6))%Z then Some position else None
  | None => None
  end.

(** *** Properties *)

Lemma trimStart_white (ws s : text) :
  Forall (fun c => isWhiteSpace c = true) ws -> trimStart (ws ++ s) = trimStart s.
Proof. induction 1 as [|c ws Hc _ IH]; simpl; [done|]. by rewrite Hc. Qed.

Lemma trimStart_black (c : N) (s : text) :
  isWhiteSpace c = false -> trimStart (c :: s) = c :: s.
Proof. intros Hc. simpl. by rewrite Hc. Qed.

Lemma trimEnd_black (c : N) (s : text) :
  isWhiteSpace c = false -> trimEnd (c :: s) = c :: trimEnd s.
Proof. intros Hc. simpl. rewrite Hc. by destruct (trimEnd s). Qed.

Lemma trimEnd_head (s : text) :
  head (trimEnd s) = None \/ head (trimEnd s) = head s.
Proof.
  destruct s as [|c s]; simpl; [by left|].
  destruct (trimEnd s); [|by right]. destruct (isWhiteSpace c); auto.
Qed.

(** A decimal digit is no white space. *)
Lemma digit_black (c : N) : 48 <= c <= 57 -> isWhiteSpace c = false.
Proof.
  intros Hc. unfold isWhiteSpace.
  assert (c = 48 \/ c = 49 \/ c = 50 \/ c = 51 \/ c = 52 \/ c = 53 \/
          c = 54 \/ c = 55 \/ c = 56 \/ c = 57) as Hcases by lia.
  repeat destruct Hcases as [->|Hcases]; try reflexivity. by subst.
Qed.

(** Without a sign and without a leading zero, the digits are read in
    radix 10. *)
Lemma parseInt_plain (c : N) (s : text) :
  isWhiteSpace c = false -> c <> 45 -> c <> 43 -> c <> 48 ->
  parseInt (c :: s) = Z.of_N <$> number 10 (c :: s) None.
Proof.
  intros Hblack H45 H43 H48. unfold parseInt. rewrite trimStart_black by done.
  destruct (N.eqb_spec c 45) as [|_]; [done|].
  destruct (N.eqb_spec c 43) as [|_]; [done|].
  destruct s as [|x s'].
  - by destruct (number 10 [c] None).
  - destruct (N.eqb_spec c 48) as [|_]; [done|]. cbn [andb].
    by destruct (number 10 (c :: x :: s') None).
Qed.

(** X12.  What [solveWithGemini] makes of a reply is [null] or a position
    from 1 to 6, and every such position has its entry in
    [gridCoordinates]: the click that follows has coordinates.  The same
    holds for the value [solveWithGemini] returns to the captcha loop. *)
Theorem position_has_coordinates (reply : text) (e : Task.env) (w : Task.world) :
  match position_of reply with
  | Some p => (1 <= p <= 6)%Z /\ is_Some (Task.gridCoordinates p)
  | None => True
  end /\
  match fst (Task.solveWithGemini e w) with
  | Task.Value (Some p) => (1 <= p <= 6)%Z /\ is_Some (Task.gridCoordinates p)
  | Task.Value None => True
  | Task.Thrown _ => False
  end.
Proof.
  assert (forall p, (1 <=? p)%Z && (p <=? 6)%Z = true ->
                    (1 <= p <= 6)%Z /\ is_Some (Task.gridCoordinates p)) as Hgrid.
  { intros p [H1 H6]%andb_true_iff. apply Z.leb_le in H1, H6.
    split; [lia|].
    assert (p = 1 \/ p = 2 \/ p = 3 \/ p = 4 \/ p = 5 \/ p = 6)%Z as Hp by lia.
    repeat destruct Hp as [->|Hp]; try (by eexists). subst. by eexists. }
  split.
  - unfold position_of. destruct (parseInt (trim reply)) as [p|]; [|done].
    destruct ((1 <=? p)%Z && (p <=? 6)%Z) eqn:Hp; [|done]. by apply Hgrid.
  - unfold Task.solveWithGemini. destruct (Task.useAiSolver e); simpl; [|done].
    destruct (Task.gemini e (Task.clock w)) as [p|]; [|done].
    destruct ((1 <=? p)%Z && (p <=? 6)%Z) eqn:Hp; [|done]. by apply Hgrid.
Qed.

(** X13.  Which replies count.  A reply whose first character after the
    white space is one of the digits 1 to 6, followed by the end of the
    text or by anything but a decimal digit, gives that position: what
    comes after the digit is ignored.  A reply whose first character
    after the white space is neither a decimal digit nor a sign gives
    [null], whatever follows: a sentence that ends with the position is
    not read. *)
Theorem replies_that_count (ws rest : text) (c : N) :
  Forall (fun c => isWhiteSpace c = true) ws ->
  (49 <= c <= 54 ->
   match head rest with Some c' => ~ 48 <= c' <= 57 | None => True end ->
   position_of (ws ++ c :: rest) = Some (Z.of_N c - 48)%Z) /\
  (isWhiteSpace c = false -> ~ 48 <= c <= 57 -> c <> 43 -> c <> 45 ->
   position_of (ws ++ c :: rest) = None).
Proof.
  intros Hws. split.
  - intros Hc Hrest.
    assert (isWhiteSpace c = false) as Hblack by (apply digit_black; lia).
    unfold position_of, trim.
    rewrite trimStart_white, trimStart_black, trimEnd_black by done.
    rewrite parseInt_plain by (done || lia).
    assert (forall v, number 10 (trimEnd rest) (Some v) = Some v) as Hnum.
    { intros v. destruct (trimEnd rest) as [|c' rest'] eqn:Htrim; [done|].
      destruct (trimEnd_head rest) as [Hh|Hh]; rewrite Htrim in Hh; [done|].
      simpl in Hh. rewrite <- Hh in Hrest. simpl. unfold digit.
      destruct ((48 <=? c') && (c' <=? 57)) eqn:Hd.
      - apply andb_true_iff in Hd as [H1 H2]. apply N.leb_le in H1, H2. lia.
      - destruct ((97 <=? c') && (c' <=? 122)) eqn:Hl.
        + apply andb_true_iff in Hl as [H1 H2]. apply N.leb_le in H1, H2.
          replace (c' - 87 <? 10) with false; [done|].
          symmetry. apply N.ltb_ge. lia.
        + destruct ((65 <=? c') && (c' <=? 90)) eqn:Hu; [|done].
          apply andb_true_iff in Hu as [H1 H2]. apply N.leb_le in H1, H2.
          replace (c' - 55 <? 10) with false; [done|].
          symmetry. apply N.ltb_ge. lia. }
    assert (number 10 (c :: trimEnd rest) None = Some (c - 48)) as Hread.
    { simpl. unfold digit.
      replace ((48 <=? c) && (c <=? 57)) with true
        by (symmetry; apply andb_true_iff; split; apply N.leb_le; lia).
      replace (c - 48 <? 10) with true by (symmetry; apply N.ltb_lt; lia).
      by rewrite Hnum. }
    rewrite Hread. cbn [fmap option_fmap option_map].
    replace ((1 <=? Z.of_N (c - 48))%Z && (Z.of_N (c - 48) <=? 6)%Z) with true
      by (symmetry; apply andb_true_iff; split; apply Z.leb_le; lia).
    f_equal. lia.
  - intros Hblack Hdigit Hplus Hminus.
    unfold position_of, trim.
    rewrite trimStart_white, trimStart_black, trimEnd_black by done.
    rewrite parseInt_plain by (done || lia).
    assert (digit 10 c = None) as Hd.
    { unfold digit.
      destruct ((48 <=? c) && (c <=? 57)) eqn:Hd.
      - apply andb_true_iff in Hd as [H1 H2]. apply N.leb_le in H1, H2. lia.
      - destruct ((97 <=? c) && (c <=? 122)) eqn:Hl.
        + apply andb_true_iff in Hl as [H1 H2]. apply N.leb_le in H1, H2.
          replace (c - 87 <? 10) with false; [done|].
          symmetry. apply N.ltb_ge. lia.
        + destruct ((65 <=? c) && (c <=? 90)) eqn:Hu; [|done].
          apply andb_true_iff in Hu as [H1 H2]. apply N.leb_le in H1, H2.
          replace (c - 55 <? 10) with false; [done|].
          symmetry. apply N.ltb_ge. lia. }
    simpl. by rewrite Hd.
Qed.

(** The replies ["3"], [" 4. "] and ["5 (the cat)"] give the positions 3,
    4 and 5; ["Position 3"], ["7"], ["12"], ["0"] and the empty reply give [null]. *)
Lemma replies_that_count_witness :
  position_of (units "3") = Some 3%Z /\
  position_of (units " 4. ") = Some 4%Z /\
  position_of (units "5 (the cat)") = Some 5%Z /\
  position_of (units "Position 3") = None /\
  position_of (units "7") = None /\ position_of (units "12") = None /\
  position_of (units "0") = None /\ position_of (units EmptyString) = None.
Proof.
  split; [|split; [|split; [|split]]].
  - refine (proj1 (replies_that_count [] [] 51 _) _ _);
      [constructor|lia|exact I].
  - refine (proj1 (replies_that_count [32] (units ". ") 52 _) _ _).
    + repeat constructor.
    + lia.
    + simpl. lia.
  - refine (proj1 (replies_that_count [] (units " (the cat)") 53 _) _ _).
    + constructor.
    + lia.
    + simpl. lia.
  - refine (proj2 (replies_that_count [] (units "osition 3") 80 _) _ _ _ _);
      [constructor|reflexivity|lia|lia|lia].
  - repeat split; reflexivity.
Defined.

End Reply.

(** ** The inbox *)

Module Inbox.

Import Task.

Local Open Scope string_scope.

(** Texts are kept as their UTF-8 bytes.  The expression has no flag [u]:
    [\d] and [\w] are classes of ASCII characters, and every byte of
    another character is, as the character itself, a non-word character.
    In lower case no other character gives a letter of the three words
    that [checkInbox] looks for. *)

(** *** The regular expression [/\b\d{4,8}\b/] *)

(** A word character of a regular expression: [[A-Za-z0-9_]]. *)
Definition is_word (c : ascii) : bool :=
  let n := nat_of_ascii c in
  (((48 <=? n) && (n <=? 57)) || ((65 <=? n) && (n <=? 90))
   || ((97 <=? n) && (n <=? 122)) || (n =? 95))%nat.

Definition first_char (s : string) : option ascii :=
  match s with
  | String c _ => Some c
  | EmptyString => None
  end.

Fixpoint last_char (s : string) : option ascii :=
  match s with
  | String c EmptyString => Some c
  | String _ s' => last_char s'
  | EmptyString => None
  end.

(** [\b] between two characters; [None] is the outside of the text. *)
Definition boundary (before after : option ascii) : bool :=
  xorb (from_option is_word false before) (from_option is_word false after).

(** [\d{k}]: the [k] digits read and the text after them. *)
Fixpoint read_digits (k : nat) (s : string) : option (string * string) :=
  match k with
  | 0 => Some (EmptyString, s)
  | S k' =>
      match s with
      | String c s' =>
          if is_digit c then
            match read_digits k' s' with
            | Some (d, rest) => Some (String c d, rest)
            | None => None
            end
          else None
      | EmptyString => None
      end
  end.

(** [\d{k}\b] *)
Definition try_count (s : string) (k : nat) : option string :=
  match read_digits k s with
  | Some (d, rest) =>
      if boundary (last_char d) (first_char rest) then Some d else None
  | None => None
  end.

Fixpoint first_of {A B} (f : A -> option B) (l : list A) : option B :=
  match l with
  | [] => None
  | a :: l' => match f a with
               | Some b => Some b
               | None => first_of f l'
               end
  end.

(** The match of the whole expression at one position: [\d{4,8}] is
    greedy, it takes eight digits first and gives them back one by one. *)
Definition match_here (before : option ascii) (s : string) : option string :=
  if boundary before (first_char s) then first_of (try_count s) [8; 7; 6; 5; 4]
  else None.

(** The positions are tried from left to right. *)
Fixpoint search (before : option ascii) (s : string) : option string :=
  match match_here before s with
  | Some code => Some code
  | None =>
      match s with
      | String c s' => search (Some c) s'
      | EmptyString => None
      end
  end.

(** [fullText.match(/\b\d{4,8}\b/)]: [codeMatch[0]], or [None] for [null]. *)
Definition codeMatch (fullText : string) : option string := search None fullText.

(** *** The messages *)

(** A message as the template literal reads it: [subject || ''],
    [text || ''] (for tempmail.lol [body || '']) and [html || '']. *)
Record letter := Letter {
  subject : string;
  body : string;
  html : string
}.

Definition fullText (l : letter) : string :=
  subject l ++ " " ++ body l ++ " " ++ html l.

(** The test on the three words, and the code of a message that passes. *)
Definition code_of (l : letter) : option string :=
  if includes (toLowerCase (fullText l)) "verification"
     || includes (toLowerCase (fullText l)) "code"
     || includes (toLowerCase (fullText l)) "playcfl"
  then codeMatch (fullText l)
  else None.

(** A request that throws: with [error.response.status] 404 or 401, or
    in another way. *)
Inductive failure := status_404_or_401 | other_failure.

Inductive provider := mailtm | tempmail | other_provider.

(** What the two services answer at each attempt.  For mail.tm the list
    is [data['hydra:member'] || []] and every message takes a request of
    its own, which may throw; for tempmail.lol the list is
    [data.email || []]. *)
Record services := Services {
  messages : nat -> failure + list (failure + letter);
  emails : nat -> failure + list letter
}.

(** How one turn of the [for] loop ends before its [wait]. *)
Inductive attempted :=
| Found (code : string)
| NotYet
| Threw (f : failure).

Fixpoint scan (ms : list (failure + letter)) : attempted :=
  match ms with
  | [] => NotYet
  | inl f :: _ => Threw f
  | inr l :: ms' =>
      match code_of l with
      | Some code => Found code
      | None => scan ms'
      end
  end.

Definition attempt (p : provider) (sv : services) (i : nat) : attempted :=
  match p with
  | mailtm =>
      match messages sv i with
      | inl f => Threw f
      | inr ms => scan ms
      end
  | tempmail =>
      match emails sv i with
      | inl f => Threw f
      | inr ms => scan (inr <$> ms)
      end
  | other_provider => NotYet
  end.

(** [1.15] as JavaScript reads it. *)
Definition growth : float := 0x1.2666666666666p+0%float.
Definition maxDelay : float := 4000%float.

(** [Math.min] on two numbers, neither of which is [NaN]. *)
Definition Math_min (a b : float) : float := if (a <? b)%float then a else b.

(** [delay = Math.min(delay * 1.15, maxDelay)] *)
Definition next_delay (delay : float) : float :=
  Math_min (delay * growth)%float maxDelay.

(** The [for] loop of [checkInbox]: [i] is its counter, [remaining] is
    [maxAttempts - i], [waits] are the arguments of the calls of [wait]
    made so far. *)
Fixpoint poll (p : provider) (sv : services) (remaining i : nat)
    (delay : float) (waits : list float) : option string * list float :=
  match remaining with
  | 0 => (None, waits)
  | S remaining' =>
      match attempt p sv i with
      | Found code => (Some code, waits)
      | NotYet | Threw status_404_or_401 =>
          poll p sv remaining' (S i) (next_delay delay) (waits ++ [delay])
      | Threw other_failure =>
          poll p sv remaining' (S i) delay (waits ++ [600%float])
      end
  end.

(** [checkInbox(sidToken, threadId, provider, maxAttempts = 80)]: the code
    or [null], and the waits it made. *)
Definition checkInbox (p : provider) (sv : services) (maxAttempts : nat)
  : option string * list float :=
  poll p sv maxAttempts 0 800%float [].

(** *** Properties of the expression *)

Lemma append_empty (s : string) : EmptyString ++ s = s.
Proof. reflexivity. Qed.

Lemma append_String (c : ascii) (s t : string) :
  String c s ++ t = String c (s ++ t).
Proof. reflexivity. Qed.

Fixpoint all_digits (s : string) : bool :=
  match s with
  | String c s' => is_digit c && all_digits s'
  | EmptyString => true
  end.

Lemma digit_is_word (c : ascii) : is_digit c = true -> is_word c = true.
Proof. unfold is_digit, is_word. by intros ->. Qed.

Lemma read_digits_spec (k : nat) (s d rest : string) :
  read_digits k s = Some (d, rest) ->
  s = d ++ rest /\ String.length d = k /\ all_digits d = true.
Proof.
  revert s d rest. induction k as [|k IH]; intros s d rest; simpl.
  - by intros [= <- <-].
  - destruct s as [|c s]; [done|]. destruct (is_digit c) eqn:Hc; [|done].
    destruct (read_digits k s) as [[d' rest']|] eqn:Hr; [|done].
    intros [= <- <-]. destruct (IH _ _ _ Hr) as (-> & <- & Hd).
    simpl. by rewrite Hc, Hd.
Qed.

Lemma last_char_digit (d : string) :
  all_digits d = true -> d <> EmptyString ->
  from_option is_word false (last_char d) = true.
Proof.
  induction d as [|c d IH]; [done|]. simpl.
  intros [Hc Hd]%andb_true_iff _. destruct d as [|c' d]; simpl.
  - by apply digit_is_word.
  - by apply IH.
Qed.

Lemma first_char_digit (d rest : string) :
  all_digits d = true -> d <> EmptyString ->
  from_option is_word false (first_char (d ++ rest)) = true.
Proof.
  destruct d as [|c d]; [done|]. simpl.
  intros [Hc _]%andb_true_iff _. by apply digit_is_word.
Qed.

Lemma first_of_Some {A B} (f : A -> option B) (l : list A) (b : B) :
  first_of f l = Some b -> exists a, a ∈ l /\ f a = Some b.
Proof.
  induction l as [|a l IH]; simpl; [done|].
  destruct (f a) as [b'|] eqn:Ha.
  - intros [= <-]. exists a. split; [left|done].
  - intros (a' & Hin & Hf)%IH. exists a'. split; [by right|done].
Qed.

Lemma match_here_spec (before : option ascii) (s code : string) :
  match_here before s = Some code ->
  exists rest,
    s = code ++ rest /\ 4 <= String.length code <= 8 /\
    all_digits code = true /\
    from_option is_word false before = false /\
    from_option is_word false (first_char rest) = false.
Proof.
  unfold match_here. destruct (boundary _ _) eqn:Hb; [|done].
  intros (k & Hk & Htry)%first_of_Some. unfold try_count in Htry.
  destruct (read_digits k s) as [[d rest]|] eqn:Hr; [|done].
  destruct (boundary (last_char d) (first_char rest)) eqn:Hb'; [|done].
  injection Htry as ->. destruct (read_digits_spec _ _ _ _ Hr) as (-> & Hlen & Hd).
  assert (4 <= k <= 8) as Hrange.
  { rewrite !elem_of_cons in Hk. rewrite elem_of_nil in Hk. lia. }
  assert (code <> EmptyString) as Hne by (intros ->; simpl in Hlen; lia).
  exists rest. split; [done|]. split; [lia|]. split; [done|].
  unfold boundary in Hb, Hb'.
  rewrite first_char_digit in Hb by done. rewrite last_char_digit in Hb' by done.
  split.
  - by destruct (from_option is_word false before).
  - by destruct (from_option is_word false (first_char rest)).
Qed.

(** The character before the position, given the one before the text. *)
Definition char_before (before : option ascii) (pre : string) : option ascii :=
  match last_char pre with
  | Some c => Some c
  | None => before
  end.

Lemma char_before_cons (before : option ascii) (c : ascii) (pre : string) :
  char_before before (String c pre) = char_before (Some c) pre.
Proof.
  unfold char_before. simpl. destruct pre as [|c' pre]; [done|].
  destruct (last_char (String c' pre)) eqn:Hl; [done|].
  exfalso. clear -Hl. revert c' Hl. induction pre as [|x pre IH]; intros c' Hl.
  - done.
  - simpl in Hl. by apply (IH x).
Qed.

Lemma search_spec (before : option ascii) (s code : string) :
  search before s = Some code ->
  exists pre post,
    s = pre ++ code ++ post /\ 4 <= String.length code <= 8 /\
    all_digits code = true /\
    from_option is_word false (char_before before pre) = false /\
    from_option is_word false (first_char post) = false.
Proof.
  revert before. induction s as [|c s IH]; intros before; simpl.
  - destruct (match_here before EmptyString) as [code'|] eqn:Hm; [|done].
    intros [= ->]. apply match_here_spec in Hm as (rest & Hs & H).
    by exists EmptyString, rest.
  - destruct (match_here before (String c s)) as [code'|] eqn:Hm.
    + intros [= ->]. apply match_here_spec in Hm as (rest & Hs & H).
      by exists EmptyString, rest.
    + intros (pre & post & -> & Hlen & Hd & Hb & Ha)%IH.
      exists (String c pre), post. rewrite char_before_cons. done.
Qed.

Lemma read_digits_all (code post : string) :
  all_digits code = true ->
  read_digits (String.length code) (code ++ post) = Some (code, post).
Proof.
  induction code as [|c code IH]; simpl; [done|].
  intros [-> Hd]%andb_true_iff. by rewrite IH.
Qed.

Lemma read_digits_short (k : nat) (code post : string) :
  all_digits code = true -> String.length code < k ->
  from_option is_word false (first_char post) = false ->
  read_digits k (code ++ post) = None.
Proof.
  revert k. induction code as [|c code IH]; intros k Hd Hk Hpost; simpl in *.
  - destruct k as [|k]; [lia|]. rewrite append_empty.
    destruct post as [|c post]; [done|]. simpl in *.
    destruct (is_digit c) eqn:Hc; [|done].
    apply digit_is_word in Hc. congruence.
  - destruct k as [|k]; [lia|]. rewrite append_String. simpl.
    apply andb_true_iff in Hd as [-> Hd]. rewrite IH; [done|done|lia|done].
Qed.

Lemma match_here_code (before : option ascii) (code post : string) :
  all_digits code = true -> 4 <= String.length code <= 8 ->
  from_option is_word false before = false ->
  from_option is_word false (first_char post) = false ->
  match_here before (code ++ post) = Some code.
Proof.
  intros Hd Hlen Hb Hp.
  assert (code <> EmptyString) as Hne by (intros ->; simpl in Hlen; lia).
  unfold match_here, boundary. rewrite Hb, first_char_digit by done. simpl.
  assert (forall k, String.length code < k -> try_count (code ++ post) k = None)
    as Hshort.
  { intros k Hk. unfold try_count. by rewrite read_digits_short. }
  assert (try_count (code ++ post) (String.length code) = Some code) as Hfull.
  { unfold try_count, boundary.
    rewrite read_digits_all, last_char_digit, Hp by done. done. }
  assert (String.length code = 4 \/ String.length code = 5 \/
          String.length code = 6 \/ String.length code = 7 \/
          String.length code = 8) as Hcases by lia.
  repeat destruct Hcases as [Hl|Hcases]; try rename Hcases into Hl;
    rewrite Hl in Hfull; rewrite ?Hshort by lia; by rewrite Hfull.
Qed.

Fixpoint no_digit (s : string) : bool :=
  match s with
  | String c s' => negb (is_digit c) && no_digit s'
  | EmptyString => true
  end.

Lemma match_here_no_digit (before : option ascii) (c : ascii) (s : string) :
  is_digit c = false -> match_here before (String c s) = None.
Proof.
  intros Hc. unfold match_here. destruct (boundary _ _); [|done].
  unfold try_count. simpl. by rewrite Hc.
Qed.

Lemma search_code (before : option ascii) (pre code post : string) :
  no_digit pre = true -> all_digits code = true ->
  4 <= String.length code <= 8 ->
  from_option is_word false (char_before before pre) = false ->
  from_option is_word false (first_char post) = false ->
  search before (pre ++ code ++ post) = Some code.
Proof.
  intros Hpre Hd Hlen Hb Hp. revert before Hb.
  induction pre as [|c pre IH]; intros before Hb.
  - change (EmptyString ++ code ++ post) with (code ++ post).
    assert (match_here before (code ++ post) = Some code) as Hm
      by (by apply match_here_code).
    destruct (code ++ post); simpl; by rewrite Hm.
  - simpl in Hpre. apply andb_true_iff in Hpre as [Hc Hpre].
    apply negb_true_iff in Hc.
    change (String c pre ++ code ++ post) with (String c (pre ++ code ++ post)).
    cbn [search]. rewrite match_here_no_digit by done.
    apply IH; [done|]. by rewrite <- (char_before_cons before).
Qed.

(** *** Properties of the loop *)

Lemma poll_spec (p : provider) (sv : services) (remaining i : nat)
    (delay : float) (waits : list float) :
  let '(r, waits') := poll p sv remaining i delay waits in
  match r with
  | Some code =>
      exists n, n < remaining /\ attempt p sv (i + n) = Found code /\
                (forall j c, j < n -> attempt p sv (i + j) <> Found c) /\
                length waits' = length waits + n
  | None =>
      (forall j c, j < remaining -> attempt p sv (i + j) <> Found c) /\
      length waits' = length waits + remaining
  end.
Proof.
  revert i delay waits. induction remaining as [|remaining IH];
    intros i delay waits; simpl.
  - split; [intros; lia|lia].
  - assert (forall d ws,
               (forall c, attempt p sv i <> Found c) ->
               length ws = S (length waits) ->
               let '(r, waits') := poll p sv remaining (S i) d ws in
               match r with
               | Some code =>
                   exists n, n < S remaining /\
                             attempt p sv (i + n) = Found code /\
                             (forall j c, j < n -> attempt p sv (i + j) <> Found c) /\
                             length waits' = length waits + n
               | None =>
                   (forall j c, j < S remaining ->
                                attempt p sv (i + j) <> Found c) /\
                   length waits' = length waits + S remaining
               end) as Hnext.
    { intros d ws Hno Hws. specialize (IH (S i) d ws).
      destruct (poll p sv remaining (S i) d ws) as [[code|] waits'].
      - destruct IH as (n & Hn & Hfound & Hbefore & Hlen).
        exists (S n). split; [lia|]. split; [by rewrite <- Nat.add_succ_comm|].
        split; [|lia]. intros [|j] c Hj.
        + rewrite Nat.add_0_r. apply Hno.
        + rewrite <- Nat.add_succ_comm. apply Hbefore. lia.
      - destruct IH as [Hnone Hlen]. split; [|lia]. intros [|j] c Hj.
        + rewrite Nat.add_0_r. apply Hno.
        + rewrite <- Nat.add_succ_comm. apply Hnone. lia. }
    destruct (attempt p sv i) as [code| |[]] eqn:Ha.
    + exists 0. rewrite Nat.add_0_r. split; [lia|]. split; [done|].
      split; [intros; lia|lia].
    + apply Hnext; [done|]. rewrite length_app. simpl. lia.
    + apply Hnext; [done|]. rewrite length_app. simpl. lia.
    + apply Hnext; [done|]. rewrite length_app. simpl. lia.
Qed.

(** The delays [checkInbox] can reach: 800 ms and what the twelve
    multiplications by 1.15 make of it, the last one being capped. *)
Fixpoint delays_from (n : nat) (delay : float) : list float :=
  match n with
  | 0 => []
  | S n' => delay :: delays_from n' (next_delay delay)
  end.

Definition delays : list float := delays_from 13 800%float.

(** A wait of 600 ms at least and 4000 ms at most. *)
Definition moderate (w : float) : bool :=
  ((600 <=? w) && (w <=? 4000))%float.

Lemma delays_closed (d : float) : In d delays -> In (next_delay d) delays.
Proof.
  unfold delays. cbn [delays_from In]. intros H.
  repeat destruct H as [<-|H]; try (exfalso; exact H);
    vm_compute; repeat (first [left; reflexivity|right]).
Qed.

Lemma delays_moderate (d : float) : In d delays -> moderate d = true.
Proof.
  unfold delays. cbn [delays_from In]. intros H.
  repeat destruct H as [<-|H]; try (exfalso; exact H); vm_compute; reflexivity.
Qed.

Lemma poll_waits (p : provider) (sv : services) (remaining i : nat)
    (delay : float) (waits : list float) :
  In delay delays -> Forall (fun w => moderate w = true) waits ->
  Forall (fun w => moderate w = true) (snd (poll p sv remaining i delay waits)).
Proof.
  revert i delay waits. induction remaining as [|remaining IH];
    intros i delay waits Hd Hw; simpl; [done|].
  destruct (attempt p sv i) as [code| |[]]; simpl; [done|..].
  - apply IH; [by apply delays_closed|].
    apply Forall_app. split; [done|]. constructor; [|done].
    by apply delays_moderate.
  - apply IH; [by apply delays_closed|].
    apply Forall_app. split; [done|]. constructor; [|done].
    by apply delays_moderate.
  - apply IH; [done|].
    apply Forall_app. split; [done|]. constructor; [|done].
    vm_compute. reflexivity.
Qed.

(** X14.  A code that the expression finds in a text has between four
    and eight characters, all of them decimal digits, and stands in the
    text between two characters that are no word characters (no digit, no
    letter of [A-Za-z] and no underscore), or at an end of the text: part
    of a longer number, or a number glued to a word, is never taken for
    the code. *)
Theorem code_is_delimited (text code : string) :
  codeMatch text = Some code ->
  4 <= String.length code <= 8 /\ all_digits code = true /\
  exists pre post,
    text = pre ++ code ++ post /\
    from_option is_word false (last_char pre) = false /\
    from_option is_word false (first_char post) = false.
Proof.
  intros (pre & post & -> & Hlen & Hd & Hb & Ha)%search_spec.
  split; [done|]. split; [done|]. exists pre, post. split; [done|].
  split; [|done]. unfold char_before in Hb. by destruct (last_char pre).
Qed.

Lemma code_is_delimited_witness :
  codeMatch "Your code is 123456." = Some "123456" /\
  4 <= String.length "123456" <= 8 /\
  codeMatch "Order 123456789 of user_2024" = None.
Proof.
  assert (codeMatch "Your code is 123456." = Some "123456") as Hm
    by (vm_compute; reflexivity).
  split; [exact Hm|]. split; [|vm_compute; reflexivity].
  exact (proj1 (code_is_delimited _ _ Hm)).
Defined.

(** X15.  The first number that stands alone is the code: in a message
    whose text has no digit before a number of four to eight digits that
    stands between two characters that are no word characters (or at an
    end of the text), that number is the code of the message, provided
    the text says "verification", "code" or "playcfl" in any case; when it
    says none of the three, the message has no code. *)
Theorem first_number_is_the_code (l : letter) (pre code post : string) :
  fullText l = pre ++ code ++ post ->
  no_digit pre = true -> all_digits code = true ->
  4 <= String.length code <= 8 ->
  from_option is_word false (last_char pre) = false ->
  from_option is_word false (first_char post) = false ->
  codeMatch (fullText l) = Some code /\
  (includes (toLowerCase (fullText l)) "verification" = true \/
   includes (toLowerCase (fullText l)) "code" = true \/
   includes (toLowerCase (fullText l)) "playcfl" = true ->
   code_of l = Some code) /\
  (includes (toLowerCase (fullText l)) "verification" = false ->
   includes (toLowerCase (fullText l)) "code" = false ->
   includes (toLowerCase (fullText l)) "playcfl" = false ->
   code_of l = None).
Proof.
  intros Htext Hpre Hd Hlen Hb Ha.
  assert (codeMatch (fullText l) = Some code) as Hm.
  { rewrite Htext. apply search_code; try done.
    unfold char_before. by destruct (last_char pre). }
  split; [exact Hm|]. unfold code_of. split.
  - intros [-> | [-> | ->]]; by rewrite ?orb_true_r.
  - by intros -> -> ->.
Qed.

Lemma first_number_is_the_code_witness :
  code_of (Letter "Your Verification Code" "Enter 482913 to go on." EmptyString)
  = Some "482913" /\
  code_of (Letter "Welcome" "Your number is 482913." EmptyString) = None.
Proof.
  split.
  - refine (proj1 (proj2 (first_number_is_the_code
             (Letter "Your Verification Code" "Enter 482913 to go on." EmptyString)
             "Your Verification Code Enter " "482913" " to go on. "
             _ _ _ _ _ _)) _); try reflexivity.
    + simpl. lia.
    + left. vm_compute. reflexivity.
  - refine (proj2 (proj2 (first_number_is_the_code
             (Letter "Welcome" "Your number is 482913." EmptyString)
             "Welcome Your number is " "482913" ". "
             _ _ _ _ _ _)) _ _ _); try reflexivity.
    simpl. lia.
Defined.

(** X16.  [checkInbox] returns the code of the first attempt, in order,
    that finds one, after one wait for each attempt before it; when none
    of the [maxAttempts] attempts finds a code it returns [null] after
    [maxAttempts] waits.  A request that throws costs its attempt. *)
Theorem inbox_first_code (p : provider) (sv : services) (maxAttempts : nat) :
  match checkInbox p sv maxAttempts with
  | (Some code, waits) =>
      exists n, n < maxAttempts /\ attempt p sv n = Found code /\
                (forall j c, j < n -> attempt p sv j <> Found c) /\
                length waits = n
  | (None, waits) =>
      (forall j c, j < maxAttempts -> attempt p sv j <> Found c) /\
      length waits = maxAttempts
  end.
Proof.
  pose proof (poll_spec p sv maxAttempts 0 800%float []) as H.
  unfold checkInbox. destruct (poll p sv maxAttempts 0 800%float [])
    as [[code|] waits]; exact H.
Qed.

(** X17.  Between two attempts [checkInbox] waits 600 ms at least and
    4000 ms at most, whatever the services answer: the delay starts at
    800 ms and the multiplications by 1.15 never bring it above
    [maxDelay]. *)
Theorem inbox_waits_bounded (p : provider) (sv : services) (maxAttempts : nat) :
  Forall (fun w => ((600 <=? w) && (w <=? 4000))%float = true)
         (snd (checkInbox p sv maxAttempts)) /\
  length (snd (checkInbox p sv maxAttempts)) <= maxAttempts.
Proof.
  split.
  - apply poll_waits; [|constructor]. left. reflexivity.
  - pose proof (poll_spec p sv maxAttempts 0 800%float []) as H.
    unfold checkInbox.
    destruct (poll p sv maxAttempts 0 800%float []) as [[code|] waits]; simpl.
    + destruct H as (n & Hn & _ & _ & Hlen). simpl in Hlen. lia.
    + destruct H as [_ Hlen]. simpl in Hlen. lia.
Qed.

End Inbox.

(** ** The clock of the front end *)

Module Display.

Local Open Scope string_scope.

(** A JavaScript number is a binary64 floating-point number.  [whole x]
    is the integer that [x] is, if it is one. *)
Definition whole (x : float) : option Z :=
  match Prim2SF x with
  | S754_zero _ => Some 0%Z
  | S754_finite negative m e =>
      let sign (v : Z) := if negative then (- v)%Z else v in
      if (0 <=? e)%Z then Some (sign (Z.pos m * 2 ^ e)%Z)
      else if (Z.pos m mod 2 ^ (- e) =? 0)%Z
           then Some (sign (Z.pos m / 2 ^ (- e))%Z)
           else None
  | S754_infinity _ | S754_nan => None
  end.

(** [Math.floor(x)] for a finite [x], as an integer. *)
Definition Math_floor (x : float) : option Z :=
  match Prim2SF x with
  | S754_zero _ => Some 0%Z
  | S754_finite negative m e =>
      let numerator := if negative then Z.neg m else Z.pos m in
      if (0 <=? e)%Z then Some (numerator * 2 ^ e)%Z
      else Some (numerator / 2 ^ (- e))%Z
  | S754_infinity _ | S754_nan => None
  end.

(** [x % d] for a whole number [x]: the remainder has the sign of [x]
    and is exact.  (The remainder of a fraction is a fraction, whose
    digits are not covered here.) *)
Definition remainder (x : float) (d : Z) : option Z :=
  (fun n => Z.rem n d) <$> whole x.

(** [n.toString()] for a whole number below [2^53] in absolute value: its
    decimal digits, after a minus sign when it is negative.  (Larger
    numbers are printed rounded, or with an exponent from [1e21]: not
    covered here.) *)
Definition toString (n : Z) : option string :=
  if (Z.abs n <? 2 ^ 53)%Z then Some (NilZero.string_of_int (Z.to_int n))
  else None.

(** [s.padStart(2, '0')] *)
Definition padStart2 (s : string) : string :=
  match String.length s with
  | 0 => "00"
  | 1 => "0" ++ s
  | _ => s
  end.

(** [formatTime(seconds)]: [None] where the digits are not covered. *)
Definition formatTime (seconds : float) : option string :=
  mins ← Math_floor (seconds / 60)%float;
  secs ← remainder seconds 60;
  mm ← toString mins;
  ss ← toString secs;
  Some (padStart2 mm ++ ":" ++ padStart2 ss).

(** The number that is the integer [n], for [0 <= n < 2^53]. *)
Definition number (n : Z) : float := of_uint63 (Uint63.of_Z n).

(** The integer that a text of digits denotes, with its sign. *)
Definition read (s : string) : option Z := Z.of_int <$> NilZero.int_of_string s.

(** *** Properties *)

(** The quotient by 60 is computed on floating-point numbers; up to ten
    hours its floor is the quotient of the integers. *)
Definition exact (n : Z) : bool :=
  bool_decide (Math_floor (number n / 60)%float = Some (n / 60)%Z)
  && bool_decide (whole (number n) = Some n).

Fixpoint from (fuel : nat) (n : Z) (P : Z -> bool) : bool :=
  match fuel with
  | 0 => true
  | S fuel' => P n && from fuel' (n + 1)%Z P
  end.

Lemma from_spec (fuel : nat) (n : Z) (P : Z -> bool) :
  from fuel n P = true ->
  forall k, (n <= k < n + Z.of_nat fuel)%Z -> P k = true.
Proof.
  revert n. induction fuel as [|fuel IH]; intros n; simpl; [lia|].
  intros [Hn Hrest]%andb_true_iff k Hk.
  destruct (decide (k = n)) as [->|Hne]; [done|].
  apply (IH (n + 1)%Z Hrest). lia.
Qed.

Definition ten_hours : Z := 36000.

Lemma exact_ten_hours : from (600 * 60) 0 exact = true.
Proof. vm_compute. reflexivity. Qed.

Lemma quotient_exact (n : Z) :
  (0 <= n < ten_hours)%Z ->
  Math_floor (number n / 60)%float = Some (n / 60)%Z /\
  whole (number n) = Some n.
Proof.
  intros Hn.
  assert (exact n = true) as [H1 H2]%andb_true_iff.
  { apply (from_spec _ _ _ exact_ten_hours). unfold ten_hours in Hn. lia. }
  split; by eapply bool_decide_eq_true_1.
Qed.

Lemma toString_small (n : Z) :
  (Z.abs n < 2 ^ 53)%Z -> toString n = Some (NilZero.string_of_int (Z.to_int n)).
Proof. intros Hn. unfold toString. by rewrite (proj2 (Z.ltb_lt _ _) Hn). Qed.

Lemma read_digits (n : Z) : read (NilZero.string_of_int (Z.to_int n)) = Some n.
Proof.
  unfold read. rewrite NilZero.isi.
  - simpl. by rewrite DecimalZ.of_to.
  - destruct n as [|p|p]; simpl; try done.
    intros [= H]. by apply Unsigned.to_uint_nonnil in H.
  - destruct n as [|p|p]; simpl; try done.
    intros [= H]. by apply Unsigned.to_uint_nonnil in H.
Qed.

Lemma read_one_char (c : ascii) (n : Z) :
  read (String c EmptyString) = Some n ->
  read (String "0" (String c EmptyString)) = Some n.
Proof.
  destruct c as [[] [] [] [] [] [] [] []]; vm_compute; congruence.
Qed.

Lemma read_padStart2 (n : Z) :
  read (padStart2 (NilZero.string_of_int (Z.to_int n))) = Some n.
Proof.
  pose proof (read_digits n) as Hr. unfold padStart2.
  destruct (NilZero.string_of_int (Z.to_int n)) as [|c [|c' s]]; simpl;
    [done| |done].
  by apply read_one_char.
Qed.

Lemma length_padStart2 (s : string) : 2 <= String.length (padStart2 s).
Proof.
  unfold padStart2. destruct s as [|c [|c' s]]; simpl; lia.
Qed.

Lemma length_two_digits (k : nat) :
  k < 100 ->
  String.length (padStart2 (NilZero.string_of_int (Z.to_int (Z.of_nat k)))) = 2.
Proof.
  intros Hk. do 100 (destruct k as [|k]; [vm_compute; reflexivity|]). lia.
Qed.

Lemma length_append (a b : string) :
  String.length (a ++ b) = String.length a + String.length b.
Proof.
  induction a as [|c a IH]; [done|].
  change (S (String.length (a ++ b)) = S (String.length a) + String.length b).
  by rewrite IH.
Qed.

Lemma append_inj (a a' b b' : string) :
  a ++ b = a' ++ b' -> String.length b = String.length b' -> a = a' /\ b = b'.
Proof.
  revert a'. induction a as [|c a IH]; intros [|c' a'] Heq Hlen.
  - done.
  - apply (f_equal String.length) in Heq.
    change (String.length b = S (String.length (a' ++ b'))) in Heq.
    rewrite length_append in Heq. lia.
  - apply (f_equal String.length) in Heq.
    change (S (String.length (a ++ b)) = String.length b') in Heq.
    rewrite length_append in Heq. lia.
  - change (String c (a ++ b) = String c' (a' ++ b')) in Heq.
    injection Heq as -> Heq. destruct (IH _ Heq Hlen) as [-> ->]. done.
Qed.

(** What [formatTime] computes for a whole number of seconds up to ten
    hours. *)
Lemma formatTime_whole (n : Z) :
  (0 <= n < ten_hours)%Z ->
  formatTime (number n)
  = Some (padStart2 (NilZero.string_of_int (Z.to_int (n / 60)))
          ++ ":" ++ padStart2 (NilZero.string_of_int (Z.to_int (n mod 60)))).
Proof.
  intros Hn. destruct (quotient_exact n Hn) as [Hfloor Hwhole].
  unfold formatTime, remainder. rewrite Hfloor, Hwhole. simpl.
  rewrite Z.rem_mod_nonneg by lia.
  assert (0 <= n / 60 < 6000)%Z as Hm.
  { unfold ten_hours in Hn. split; [apply Z.div_pos; lia|].
    apply Z.div_lt_upper_bound; lia. }
  pose proof (Z.mod_pos_bound n 60) as Hs.
  rewrite !toString_small by lia. reflexivity.
Qed.

Lemma formatTime_shape (n : Z) :
  (0 <= n < ten_hours)%Z ->
  exists mm ss,
    formatTime (number n) = Some (mm ++ ":" ++ ss) /\
    2 <= String.length mm /\ String.length ss = 2 /\
    read mm = Some (n / 60)%Z /\ read ss = Some (n mod 60)%Z.
Proof.
  intros Hn. eexists _, _. split; [by apply formatTime_whole|].
  split; [apply length_padStart2|].
  split; [|split; apply read_padStart2].
  rewrite <- (Z2Nat.id (n mod 60)) by (apply Z.mod_pos_bound; lia).
  apply length_two_digits.
  pose proof (Z.mod_pos_bound n 60). lia.
Qed.

(** X18.  For a whole number of seconds from 0 up to ten hours, with the
    quotient computed on binary64 numbers as the code does, [formatTime]
    gives the minutes on two digits or more, a colon, and the seconds on
    two digits exactly; read back, the two numbers are the quotient and
    the remainder of the seconds by 60.  No two of these durations are
    shown alike, and below 100 minutes the text has five characters. *)
Theorem formatTime_reads_back (n : Z) :
  (0 <= n < ten_hours)%Z ->
  (exists mm ss,
      formatTime (number n) = Some (mm ++ ":" ++ ss) /\
      2 <= String.length mm /\ String.length ss = 2 /\
      read mm = Some (n / 60)%Z /\ read ss = Some (n mod 60)%Z) /\
  (forall other, (0 <= other < ten_hours)%Z ->
                 formatTime (number other) = formatTime (number n) ->
                 other = n) /\
  ((n < 6000)%Z ->
   exists text, formatTime (number n) = Some text /\ String.length text = 5).
Proof.
  intros Hn. split; [by apply formatTime_shape|]. split.
  - intros other Ho Heq.
    destruct (formatTime_shape n Hn) as (mm & ss & Hf & _ & Hl & Hm & Hss).
    destruct (formatTime_shape other Ho) as (mm' & ss' & Hf' & _ & Hl' & Hm' & Hss').
    rewrite Hf, Hf' in Heq. injection Heq as Heq.
    apply append_inj in Heq as [-> Heq]; [|rewrite !length_append; lia].
    change (String ":" ss' = String ":" ss) in Heq. injection Heq as ->.
    assert (other / 60 = n / 60)%Z by congruence.
    assert (other mod 60 = n mod 60)%Z by congruence.
    rewrite (Z.div_mod other 60), (Z.div_mod n 60) by lia. lia.
  - intros Hlt. eexists. split; [by apply formatTime_whole|].
    rewrite !length_append. simpl.
    assert (String.length
              (padStart2 (NilZero.string_of_int (Z.to_int (n mod 60)))) = 2) as ->.
    { rewrite <- (Z2Nat.id (n mod 60)) by (apply Z.mod_pos_bound; lia).
      apply length_two_digits. pose proof (Z.mod_pos_bound n 60). lia. }
    assert (0 <= n / 60 < 100)%Z as Hm.
    { split; [apply Z.div_pos; lia|]. apply Z.div_lt_upper_bound; lia. }
    assert (String.length
              (padStart2 (NilZero.string_of_int (Z.to_int (n / 60)))) = 2) as ->;
      [|done].
    rewrite <- (Z2Nat.id (n / 60)) by lia.
    apply length_two_digits. lia.
Qed.

Lemma formatTime_reads_back_witness :
  formatTime (number 3725) = Some "62:05" /\
  exists text, formatTime (number 3725) = Some text /\ String.length text = 5.
Proof.
  split; [vm_compute; reflexivity|].
  apply (proj2 (proj2 (formatTime_reads_back 3725 ltac:(unfold ten_hours; lia)))).
  lia.
Defined.

End Display.

(** ** The progress shown to the user *)

Module Progress.

Import Scheduler.

(** The object of a [progress] message, as far as the front end reads
    it: [data.successful] and [data.attempts]; [target] only comes with
    the first message of a run. *)
Record update := Update {
  successful : nat;
  target : option Z;
  attempts : nat
}.

(** The variables of [/api/generate] and the calls of
    [sendProgressUpdate] made so far, oldest first. *)
Record run := Run {
  vars : state;
  sent : list update
}.

Section Generate.

Variable task : threadId -> Task.result.
Variables accountCount maxAllowedThreads : Z.

(** The order in which the tasks of a batch end. *)
Variable order : list threadId -> list threadId.

(** The callback [.then(result => ...)] of one task. *)
Definition settled (r : run) (t : threadId) : run :=
  if Task.success (task t) then
    let s := vars r in
    let successfulCount' := S (successfulCount s) in
    Run (State (currentThreads s) successfulCount' (totalAttempts s) (results s))
        (sent r ++ [Update successfulCount' None (totalAttempts s)])
  else r.

(** One turn of the [while] loop: the [for] loop counts the attempts and
    starts the tasks; each task ends with its callback; [Promise.all]
    gives the results in the order of the tasks; the thread count is
    adapted. *)
Definition batch_run (r : run) : run :=
  let s := vars r in
  let size := Z.to_nat (batchSize accountCount s) in
  let threadIds := seq (S (totalAttempts s)) size in
  let started :=
    Run (State (currentThreads s) (successfulCount s) (totalAttempts s + size)
               (results s))
        (sent r) in
  let ended := fold_left settled (order threadIds) started in
  let batchResults := task <$> threadIds in
  let batchSuccessRate :=
    Sizing.ratio (Z.of_nat (successes batchResults))
                 (Z.of_nat (length batchResults)) in
  let newThreadCount :=
    Sizing.calculateOptimalBatchSize batchSuccessRate (currentThreads s)
                                     maxAllowedThreads in
  Run (State newThreadCount (successfulCount (vars ended))
             (totalAttempts (vars ended)) (results (vars ended) ++ batchResults))
      (sent ended).

Fixpoint loop_run (fuel : nat) (r : run) : option run :=
  if goes_on accountCount (vars r) then
    match fuel with
    | 0 => None
    | S fuel => loop_run fuel (batch_run r)
    end
  else Some r.

(** The start of the request: the first [sendProgressUpdate]. *)
Definition initial_run : run :=
  Run (initial maxAllowedThreads) [Update 0 (Some accountCount) 0].

End Generate.

(** The two counters of the front end that the messages set. *)
Record counters := Counters {
  successfulAccounts : nat;
  totalAttempts_shown : nat
}.

(** The [progress] branch of [ws.onmessage]. *)
Definition onmessage_progress (c : counters) (data : update) : counters :=
  Counters (successful data) (attempts data).

(** What a front end shows that was connected all along: [startGeneration]
    has set both counters to 0, then the messages came in. *)
Definition shown (r : run) : counters :=
  fold_left onmessage_progress (sent r) (Counters 0 0).

(** *** Properties *)

Section Facts.

Variable task : threadId -> Task.result.
Variables N A : Z.
Variable order : list threadId -> list threadId.
Hypothesis order_permutes : forall l, order l ≡ₚ l.

Lemma successes_cons (r : Task.result) (rs : list Task.result) :
  successes (r :: rs) = (if Task.success r then 1 else 0) + successes rs.
Proof.
  unfold successes. rewrite filter_cons.
  destruct (Task.success r); [by rewrite decide_True|by rewrite decide_False].
Qed.

Lemma settled_one (r : run) (t : threadId) :
  let r' := settled task r t in
  let one := if Task.success (task t) then 1 else 0 in
  successfulCount (vars r') = successfulCount (vars r) + one /\
  totalAttempts (vars r') = totalAttempts (vars r) /\
  currentThreads (vars r') = currentThreads (vars r) /\
  results (vars r') = results (vars r) /\
  sent r' = sent r ++
            (if Task.success (task t)
             then [Update (S (successfulCount (vars r))) None (totalAttempts (vars r))]
             else []).
Proof.
  unfold settled. destruct (Task.success (task t)); simpl.
  - repeat split. lia.
  - rewrite app_nil_r. repeat split. lia.
Qed.

Lemma settled_all (ts : list threadId) (r : run) :
  let r' := fold_left (settled task) ts r in
  successfulCount (vars r') = successfulCount (vars r) + successes (task <$> ts) /\
  totalAttempts (vars r') = totalAttempts (vars r) /\
  currentThreads (vars r') = currentThreads (vars r) /\
  results (vars r') = results (vars r) /\
  exists new,
    sent r' = sent r ++ new /\
    length new = successes (task <$> ts) /\
    (forall u, u ∈ new -> attempts u = totalAttempts (vars r)) /\
    (forall u, last new = Some u ->
               successful u = successfulCount (vars r) + successes (task <$> ts)).
Proof.
  revert r. induction ts as [|t ts IH]; intros r.
  - cbn [fold_left fmap list_fmap]. unfold successes. simpl.
    repeat split; try lia.
    exists []. rewrite app_nil_r. repeat split; try done.
    intros u Hu. by apply elem_of_nil in Hu.
  - cbn [fold_left]. rewrite fmap_cons, successes_cons.
    specialize (IH (settled task r t)). cbv zeta in IH.
    destruct (settled_one r t) as (Hc1 & Ht1 & Hth1 & Hr1 & Hs1).
    destruct IH as (Hc & Ht & Hth & Hr & new & Hs & Hl & Ha & Hlast).
    cbv zeta.
    rewrite Hc, Ht, Hth, Hr, Hc1, Ht1, Hth1, Hr1.
    repeat split; try lia.
    rewrite Hs, Hs1, <- app_assoc. eexists. split; [reflexivity|].
    destruct (Task.success (task t)); simpl.
    + split; [lia|]. split.
      * intros u [->|Hu]%elem_of_cons; [done|]. rewrite (Ha u Hu). done.
      * intros u. destruct new as [|u' new].
        -- simpl in *. intros [= <-]. simpl. lia.
        -- change (last (?x :: u' :: new)) with (last (u' :: new)).
           intros Hu. rewrite (Hlast u Hu). lia.
    + split; [lia|]. split.
      * intros u Hu. rewrite (Ha u Hu). done.
      * intros u Hu. rewrite (Hlast u Hu). lia.
Qed.

(** Whatever the order in which the tasks of a batch end, the variables
    after the batch are those of [Scheduler.batch]. *)
Lemma batch_run_vars (r : run) :
  vars (batch_run task N A order r) = batch task N A (vars r).
Proof.
  unfold batch_run, batch.
  match goal with |- context [fold_left (settled task) ?ts ?r0] =>
    destruct (settled_all ts r0) as (Hc & Ht & Hth & Hr & _) end.
  cbn [vars] in *. rewrite Hc, Ht, Hr. cbn [successfulCount totalAttempts results].
  f_equal. unfold successes. f_equal.
  apply Permutation_length. by rewrite (order_permutes _).
Qed.

(** What the front end shows is the last update. *)
Lemma shown_last (r : run) (u : update) :
  last (sent r) = Some u ->
  shown r = Counters (successful u) (attempts u).
Proof.
  unfold shown. generalize (Counters 0 0).
  induction (sent r) as [|u' l IH]; intros c; [done|].
  destruct l as [|u'' l]; simpl in *.
  - by intros [= ->].
  - intros Hu. by apply IH.
Qed.

(** The counters on the screen and those of the server. *)
Record in_view (r : run) : Prop := {
  view_successes : successfulAccounts (shown r) = successfulCount (vars r);
  view_attempts : totalAttempts_shown (shown r) <= totalAttempts (vars r);
  view_none : successfulCount (vars r) = 0 -> totalAttempts_shown (shown r) = 0
}.

Lemma in_view_initial : in_view (initial_run N A).
Proof. split; simpl; [done|lia|done]. Qed.

Lemma shown_sent (r r' : run) : sent r = sent r' -> shown r = shown r'.
Proof. unfold shown. by intros ->. Qed.

Lemma in_view_batch (r : run) :
  in_view r -> in_view (batch_run task N A order r).
Proof.
  intros [Hs Ha Hn]. unfold batch_run.
  match goal with |- context [fold_left (settled task) ?ts ?r0] =>
    destruct (settled_all ts r0)
      as (Hc & Ht & Hth & Hr & new & Hsent & Hlen & Hatt & Hlast);
    set (ended := fold_left (settled task) ts r0) in * end.
  cbn [vars sent successfulCount totalAttempts] in Hc, Ht, Hsent, Hatt, Hlast.
  assert (successfulAccounts (shown ended) = successfulCount (vars ended) /\
          totalAttempts_shown (shown ended) <= totalAttempts (vars ended) /\
          (successfulCount (vars ended) = 0 ->
           totalAttempts_shown (shown ended) = 0)) as (H1 & H2 & H3).
  { destruct (last new) as [u|] eqn:Hu.
    - assert (last (sent ended) = Some u) as Hl
        by (by rewrite Hsent, last_app, Hu).
      rewrite (shown_last ended u Hl). simpl.
      rewrite (Hlast u eq_refl), Hc, Ht.
      rewrite (Hatt u) by (by apply last_Some_elem_of).
      split; [done|]. split; [lia|]. intros Hzero.
      assert (new = []) as -> by (apply length_zero_iff_nil; lia). done.
    - apply last_None in Hu. subst new. rewrite app_nil_r in Hsent.
      rewrite (shown_sent ended r Hsent). simpl in Hlen.
      rewrite Hc, Ht, <- Hlen.
      split; [lia|]. split; [lia|]. intros Hzero. apply Hn. lia. }
  split; cbn [vars successfulCount totalAttempts];
    rewrite (shown_sent _ ended) by reflexivity; done.
Qed.

Lemma in_view_loop (fuel : nat) (r r' : run) :
  in_view r -> loop_run task N A order fuel r = Some r' -> in_view r'.
Proof.
  revert r. induction fuel as [|fuel IH]; intros r Hr; simpl;
    destruct (goes_on N (vars r)); try congruence.
  apply IH, in_view_batch, Hr.
Qed.

Lemma loop_run_vars (fuel : nat) (r : run) :
  vars <$> loop_run task N A order fuel r = loop task N A fuel (vars r).
Proof.
  revert r. induction fuel as [|fuel IH]; intros r; simpl;
    destruct (goes_on N (vars r)); try done.
  by rewrite IH, batch_run_vars.
Qed.

End Facts.

(** X19.  What a front end that stays connected shows at the end of a
    run.  In whatever order the tasks of each batch end, the run ends with
    the summary of [/api/generate]; the successes on the screen are those
    of the summary; the attempts on the screen are those counted when the
    last success was reported: never more than those of the summary, and
    none when no task succeeded, however many were made. *)
Theorem screen_and_summary (task : threadId -> Task.result) (N maxThreads : Z)
    (order : list threadId -> list threadId) (fuel : nat) (r : run) :
  (forall l, order l ≡ₚ l) ->
  loop_run task N (Z.min maxThreads MAX_THREADS) order fuel
           (initial_run N (Z.min maxThreads MAX_THREADS)) = Some r ->
  generate task N maxThreads fuel = Some (summarize N (vars r)) /\
  successfulAccounts (shown r) = actualSuccessful (summarize N (vars r)) /\
  totalAttempts_shown (shown r) <= summary_totalAttempts (summarize N (vars r)) /\
  (actualSuccessful (summarize N (vars r)) = 0 -> totalAttempts_shown (shown r) = 0).
Proof.
  intros Horder Hloop.
  set (A := Z.min maxThreads MAX_THREADS) in *.
  pose proof (loop_run_vars task N A order Horder fuel (initial_run N A)) as Hvars.
  rewrite Hloop in Hvars.
  destruct (in_view_loop task N A order fuel _ r (in_view_initial N A) Hloop)
    as [Hs Ha Hn].
  split; [|done]. unfold generate. fold A.
  change (initial A) with (vars (initial_run N A)). by rewrite <- Hvars.
Qed.

(** Every task fails, for a target of three accounts: 25 attempts are
    made and the screen still shows none. *)
Lemma screen_and_summary_witness :
  exists r,
    loop_run always_fails 3 (Z.min 6 MAX_THREADS) reverse 24
             (initial_run 3 (Z.min 6 MAX_THREADS)) = Some r /\
    generate always_fails 3 6 24 = Some (summarize 3 (vars r)) /\
    summary_totalAttempts (summarize 3 (vars r)) = 25 /\
    totalAttempts_shown (shown r) = 0.
Proof.
  eexists. split; [vm_compute; reflexivity|].
  match goal with |- context [vars ?r] =>
    destruct (screen_and_summary always_fails 3 6 reverse 24 r)
      as (Hg & _ & _ & Hn) end.
  - intros l. apply reverse_Permutation.
  - vm_compute. reflexivity.
  - split; [exact Hg|]. split; [reflexivity|]. apply Hn. reflexivity.
Defined.

End Progress.

(** ** From the screen of the user to the task *)

Module Relay.

Import Registry.

(** [const gridCoordinates] of the front end *)
Definition gridCoordinates (position : Z) : option (Z * Z) :=
  match position with
  | 1 => Some (60, 190) | 2 => Some (180, 190) | 3 => Some (300, 190)
  | 4 => Some (60, 290) | 5 => Some (180, 290) | 6 => Some (300, 290)
  | _ => None
  end%Z.

(** The message of [sendCaptchaToClients(base64Image, threadId)], sent at
    the time [now]. *)
Definition captcha_message (base64Image : string) (threadId now : nat)
  : Frontend.captcha_message :=
  Frontend.Captcha_message ("data:image/png;base64," ++ base64Image)%string
                           threadId (Some now).

(** What [handleCaptchaSelect(position)] sends: nothing without a captcha
    on the screen or with a socket that is not open; for a position
    without coordinates, [coords.x] throws before anything is sent. *)
Definition click_message (position : Z) (open : bool) (s : Frontend.state)
  : option message :=
  match Frontend.currentCaptcha s with
  | None => None
  | Some currentCaptcha =>
      if open then
        match gridCoordinates position with
        | Some (x, y) =>
            Some (captcha_click (Some (Frontend.threadId currentCaptcha))
                                (Solution (Some x) (Some y) (Some position) false))
        | None => None
        end
      else None
  end.

(** What [handleSkipCaptcha()] sends. *)
Definition skip_message (open : bool) (s : Frontend.state) : option message :=
  match Frontend.currentCaptcha s with
  | None => None
  | Some currentCaptcha =>
      if open then Some (skip_captcha (Some (Frontend.threadId currentCaptcha)))
      else None
  end.

(** *** Properties *)

(** A click for the thread that is the first message handled while the
    task waits resolves the wait with the object of the click. *)
Lemma await_click (t : threadId) (data : solution) (e : Task.env) (w : Task.world)
    (post : list message) :
  0 < t -> coherent (Task.srv w) ->
  Task.incoming e (Task.clock w) = captcha_click (Some t) data :: post ->
  exists w', Task.await_solution t e w = (Task.Value (Some data), w').
Proof.
  intros Ht Hcoh Hin. unfold Task.await_solution, waitForCaptchaSolution.
  unfold Task.advance. cbn [Task.srv Task.clock Task.clicks Task.shown].
  rewrite Hin. cbn [fold_left]. unfold on_message at 2.
  destruct t as [|t]; [lia|].
  cbn [falsy andb captchaResolvers set_flags set_resolvers negb].
  rewrite Map_get_set.
  match goal with |- context [fold_left ?f post ?s1] =>
    destruct (Task.messages_resolved post s1) as [l Hl];
    set (s2 := fold_left f post s1) in * end.
  simpl in Hl.
  assert (resolutions (promises (Task.srv w)) s2
          = Some data
            :: (snd <$> filter (fun r => fst r = promises (Task.srv w)) l)) as ->.
  { unfold resolutions. rewrite Hl, !filter_app, filter_cons.
    rewrite decide_True by done. rewrite filter_nil.
    pose proof (resolutions_none (promises (Task.srv w)) (Task.srv w)) as Hnone.
    unfold resolutions in Hnone. apply fmap_nil_inv in Hnone.
    - rewrite Hnone. reflexivity.
    - intros Hp. assert (promises (Task.srv w) < promises (Task.srv w)); [|lia].
      apply (coh_old _ Hcoh). by left. }
  eexists. reflexivity.
Qed.



End Relay.

(** ** Clicks that name no thread *)

Module Untagged.

Import Registry.

Lemma Map_set_new {V} (k : nat) (v : V) (m : list (nat * V)) :
  Map_get k m = None -> Map_set k v m = m ++ [(k, v)].
Proof.
  induction m as [|[k' v'] m IH]; simpl; [done|].
  case_decide; [done|]. intros Hg. by rewrite IH.
Qed.

Lemma Map_delete_head {V} (k : nat) (v : V) (m : list (nat * V)) :
  NoDup (fst <$> (k, v) :: m) -> Map_delete k ((k, v) :: m) = m.
Proof.
  rewrite fmap_cons, NoDup_cons. simpl. intros [Hnot _].
  unfold Map_delete. rewrite filter_cons. simpl. rewrite decide_False by tauto.
  induction m as [|[k' v'] m IH]; [done|].
  rewrite fmap_cons, not_elem_of_cons in Hnot. destruct Hnot as [Hne Hnot].
  rewrite filter_cons. simpl in *. rewrite decide_True by done.
  by rewrite IH.
Qed.

(** X21.  A click that names no thread, or the thread 0, is given to the
    first entry of [captchaResolvers], when there is one with a thread id
    from 1: its promise is resolved with the click, its timer is cleared
    and its entry is removed, the other waits stay as they are.  The
    entries stand in the order in which their threads began to wait, the
    wait of a thread that had no entry being added at the end: the click
    goes to the wait that is the oldest.  Without any entry the click
    changes nothing. *)
Theorem untagged_click_goes_to_oldest (evs : list event) (data : solution) :
  let s := run evs initial_server in
  (forall t, Map_get t (captchaResolvers s) = None ->
             captchaResolvers (snd (waitForCaptchaSolution t s))
             = captchaResolvers s ++ [(t, promises s)]) /\
  (forall t p rest i,
      captchaResolvers s = (t, p) :: rest -> 0 < t -> falsy i = true ->
      let s' := on_message (captcha_click i data) s in
      captchaResolvers s' = rest /\
      resolved s' = resolved s ++ [(p, Some data)] /\
      timers s' = delete p (timers s) /\
      skipCaptchaFlags s' = skipCaptchaFlags s) /\
  (forall i, captchaResolvers s = [] -> falsy i = true ->
             on_message (captcha_click i data) s = s).
Proof.
  intros s. assert (coherent s) as Hcoh by apply coherent_run, coherent_initial.
  clearbody s.
  split; [|split].
  - intros t Hg. simpl. by apply Map_set_new.
  - intros t p rest i Hs Ht Hi. cbv zeta.
    pose proof (coh_keys _ Hcoh) as Hnd. rewrite Hs in Hnd.
    assert (on_message (captcha_click i data) s
            = set_resolvers rest (resolver_resolve p data s)) as ->.
    { unfold on_message. rewrite Hi, Hs. simpl.
      destruct t as [|t]; [lia|]. simpl. rewrite decide_True by done.
      by rewrite (Map_delete_head _ _ _ Hnd). }
    done.
  - intros i Hs Hi. unfold on_message. rewrite Hi, Hs.
    destruct i as [[|t]|]; [reflexivity|discriminate Hi|reflexivity].
Qed.

End Untagged.

(** ** The button "Get code" *)

Module GetCode.

Import Task.
Local Open Scope task_scope.

(** What the calls of [waitForAndClickGetCodeButton] find on the page at
    each tick. *)
Record slide := Slide {
  buttonAppeared : nat -> bool;    (* waitForFunction finds the button before its timeout *)
  textMatchClick : nat -> bool;    (* the first strategy found and clicked the button *)
  focused : nat -> bool;           (* the second strategy found and focused it *)
  captchaAppeared : nat -> bool    (* '#tcaptcha_iframe_dy' is visible within 2.5 s *)
}.

Section Page.

Variable page : slide.

(** [promise.catch(() => value)] *)
Definition or_else {A} (m : M A) (value : A) : M A :=
  try_catch m (fun _ => ret value).

(** The strategy "Text Match Click" *)
Definition text_match_click : M bool :=
  browser (fun _ k => textMatchClick page k).

(** The strategy "Focus + Enter" *)
Definition focus_enter : M bool :=
  success <- browser (fun _ k => focused page k) ;;
  if success then
    wait 150 ;;
    browser (fun _ _ => tt) ;;
    ret true
  else ret false.

(** One turn of the loop over the strategies; the result tells whether
    the function returns [true] there.  With its strategy, it gives the
    strategies run so far. *)
Definition attempt (execute : M bool) : M bool :=
  try_catch
    (success <- execute ;;
     if success then
       wait 400 ;;
       captcha <- or_else (browser (fun _ k => captchaAppeared page k)) false ;;
       if captcha then ret true
       else wait 600 ;; ret false
     else ret false)
    (fun _ => ret false).

(** The loop over [clickStrategies] and the [return false] after it. *)
Definition click_strategies : M bool :=
  first <- attempt text_match_click ;;
  if first then ret true else
  second <- attempt focus_enter ;;
  if second then ret true else
  ret false.

(** The function from the wait for the button on. *)
Definition await_button : M bool :=
  appeared <- or_else (browser (fun _ k => buttonAppeared page k)) false ;;
  if negb appeared then ret false else click_strategies.

(** [waitForAndClickGetCodeButton(page, threadId)] *)
Definition waitForAndClickGetCodeButton : M bool :=
  or_else (browser (fun _ _ => tt)) tt ;;
  wait 400 ;;
  browser (fun _ _ => tt) ;;
  wait 400 ;;
  await_button.

End Page.

(** *** Properties *)

(** [m] does not return [true]. *)
Definition never_true (e : env) (m : M bool) : Prop :=
  forall w, fst (m e w) <> Value true.

(** [m] does not throw. *)
Definition total {A} (e : env) (m : M A) : Prop :=
  forall w, exists a, fst (m e w) = Value a.

Lemma total_ret {A} (e : env) (a : A) : total e (ret a).
Proof. intros w. by exists a. Qed.

Lemma total_wait (e : env) (ms : nat) : total e (wait ms).
Proof. intros w. by exists tt. Qed.

Lemma total_bind {A B} (e : env) (m : M A) (k : A -> M B) :
  total e m -> (forall a, total e (k a)) -> total e (bind m k).
Proof.
  intros Hm Hk w. unfold bind. destruct (Hm w) as [a Ha].
  destruct (m e w) as [r w1]. simpl in Ha. subst r. apply Hk.
Qed.

Lemma total_try_catch {A} (e : env) (m : M A) (h : string -> M A) :
  (forall message, total e (h message)) -> total e (try_catch m h).
Proof.
  intros Hh w. unfold try_catch.
  destruct (m e w) as [[a|message] w1]; [by exists a|]. apply Hh.
Qed.

Lemma total_attempt (page : slide) (e : env) (execute : M bool) :
  total e (attempt page execute).
Proof. apply total_try_catch. intros _. apply total_ret. Qed.

Lemma attempt_true (page : slide) (e : env) (execute : M bool) (w w' : world) :
  attempt page execute e w = (Value true, w') ->
  exists k, captchaAppeared page k = true.
Proof.
  unfold attempt, try_catch, bind.
  destruct (execute e w) as [[[]|?] w1]; try (intros [=]; fail).
  unfold wait at 1. unfold or_else, try_catch.
  destruct (browser _ e (advance e w1)) as [[captcha|?] w2] eqn:Hb;
    try (intros [=]; fail).
  destruct captcha; [|intros [=]]. intros _.
  unfold browser in Hb. destruct (rejects e _); [discriminate Hb|].
  injection Hb as Hb _. eauto.
Qed.

(** X22.  [waitForAndClickGetCodeButton] throws only when the scroll to
    the slide throws; it returns [false], without trying to click, when
    the button does not appear in time; and it returns [true] only when
    the captcha frame showed after one of its two ways of clicking, never
    on the click alone. *)
Theorem get_code_outcomes (page : slide) (e : env) (w : world) :
  (rejects e (S (S (clock w))) = false ->
   exists b, fst (waitForAndClickGetCodeButton page e w) = Value b) /\
  (rejects e (S (S (clock w))) = false ->
   buttonAppeared page (4 + clock w) = false \/ rejects e (4 + clock w) = true ->
   waitForAndClickGetCodeButton page e w
   = (Value false, advance e (advance e (advance e (advance e (advance e w)))))) /\
  (fst (waitForAndClickGetCodeButton page e w) = Value true ->
   exists k, captchaAppeared page k = true).
Proof.
  assert (waitForAndClickGetCodeButton page e w
          = match browser (fun _ _ => tt) e (advance e (advance e w)) with
            | (Value _, w1) => await_button page e (advance e w1)
            | (Thrown message, w1) => (Thrown message, w1)
            end) as ->.
  { unfold waitForAndClickGetCodeButton. unfold bind at 1.
    unfold or_else, try_catch, browser at 1.
    destruct (rejects e (clock w)); unfold ret; unfold bind at 1, wait at 1;
      unfold bind at 1;
      destruct (browser _ e (advance e (advance e w))) as [[[]|?] w1];
      reflexivity. }
  assert (total e (await_button page)) as Htotal.
  { apply total_bind.
    - apply total_try_catch. intros _. apply total_ret.
    - intros appeared. destruct appeared; simpl; [|apply total_ret].
      apply total_bind; [apply total_attempt|].
      intros []; [apply total_ret|].
      apply total_bind; [apply total_attempt|].
      intros []; apply total_ret. }
  unfold browser at 1 2 3.
  change (clock (advance e (advance e w))) with (S (S (clock w))).
  split; [|split].
  - intros ->. apply Htotal.
  - intros -> Hbutton. unfold await_button, bind, or_else, try_catch, browser.
    change (clock (advance e (advance e (advance e (advance e w)))))
      with (4 + clock w).
    destruct (rejects e (4 + clock w)); [reflexivity|].
    destruct Hbutton as [-> | [=]]. reflexivity.
  - destruct (rejects e (S (S (clock w)))); [intros [=]|].
    unfold await_button. unfold bind at 1.
    destruct (or_else _ false e _) as [[[]|?] w3]; try (intros [=]; fail).
    cbn [negb]. unfold click_strategies. unfold bind at 1.
    destruct (attempt page (text_match_click page) e w3) as [[[]|?] w4] eqn:H1;
      try (intros [=]; fail).
    + intros _. by apply attempt_true in H1.
    + unfold bind at 1.
      destruct (attempt page (focus_enter page) e w4) as [[[]|?] w5] eqn:H2;
        try (intros [=]; fail).
      intros _. by apply attempt_true in H2.
Qed.

(** A page on which the button appears and the first click brings up the
    captcha, and one on which the button never appears. *)
Definition button_works : slide :=
  Slide (fun _ => true) (fun _ => true) (fun _ => false) (fun _ => true).

Definition no_button : slide :=
  Slide (fun _ => false) (fun _ => true) (fun _ => true) (fun _ => true).

Lemma get_code_outcomes_witness :
  fst (waitForAndClickGetCodeButton button_works stubborn_captcha (turn_granted 1))
  = Value true /\
  (exists k, captchaAppeared button_works k = true) /\
  fst (waitForAndClickGetCodeButton no_button stubborn_captcha (turn_granted 1))
  = Value false.
Proof.
  assert (fst (waitForAndClickGetCodeButton button_works stubborn_captcha
                                            (turn_granted 1)) = Value true) as Hrun
    by (vm_compute; reflexivity).
  split; [exact Hrun|]. split.
  - exact (proj2 (proj2 (get_code_outcomes button_works stubborn_captcha
                                           (turn_granted 1))) Hrun).
  - rewrite (proj1 (proj2 (get_code_outcomes no_button stubborn_captcha
                                             (turn_granted 1))));
      [reflexivity|reflexivity|by left].
Defined.

End GetCode.
